(** * topo_order_commits: commit graph construction, deterministic
      topological ordering and run-boundary annotation

    A shallow embedding of [topo_order_commits.py].  Python [str] values are
    Rocq strings whose characters are read as code points below 256, a
    [dict] is an association list in insertion order, a [set] is a
    duplicate-free list whose order stands for the (unspecified) iteration
    order of the hash set, and an [int] is a [Z].  A function that can raise
    returns an [outcome]. *)

From Stdlib Require Import List String Ascii ZArith Lia Bool Arith.
From Stdlib Require Import Permutation Sorted ListDec Relations.
From Stdlib Require Import OrderedTypeEx.
Import ListNotations.
Open Scope string_scope.
Open Scope list_scope.

(** ** Results of Python calls *)

Inductive exn : Type :=
| KeyError (key : string)
| IndexError
| ReadError.

Inductive outcome (A : Type) : Type :=
| Returns (a : A)
| Raises (e : exn)
| OutOfFuel.

Arguments Returns {A} a.
Arguments Raises {A} e.
Arguments OutOfFuel {A}.

Definition bind {A B : Type} (m : outcome A) (f : A -> outcome B) : outcome B :=
  match m with
  | Returns a => f a
  | Raises e => Raises e
  | OutOfFuel => OutOfFuel
  end.

Notation "x <- m ;; k" := (bind m (fun x => k))
  (at level 61, m at next level, right associativity).
Notation "' p <- m ;; k" := (bind m (fun p => k))
  (at level 61, p pattern, m at next level, right associativity).

(** ** The Python primitives the program uses *)

Module Py.

(** [sorted] on a list of [str]: comparison is lexicographic on code
    points, which is [String.leb]. *)
Fixpoint insort (x : string) (l : list string) : list string :=
  match l with
  | [] => [x]
  | y :: l' => if String.leb x y then x :: l else y :: insort x l'
  end.

Fixpoint sorted (l : list string) : list string :=
  match l with
  | [] => []
  | x :: l' => insort x (sorted l')
  end.

(** [str.isspace] on the code points below 256. *)
Definition isspace (c : ascii) : bool :=
  let n := nat_of_ascii c in
  ((9 <=? n)%nat && (n <=? 13)%nat) || ((28 <=? n)%nat && (n <=? 32)%nat)
  || (n =? 133)%nat || (n =? 160)%nat.

(** [s.split()]: the maximal runs of characters that are not whitespace. *)
Fixpoint split (s : string) : list string :=
  match s with
  | EmptyString => []
  | String c s' =>
      if isspace c then split s'
      else match s' with
           | EmptyString => [String c EmptyString]
           | String c' _ =>
               if isspace c' then String c EmptyString :: split s'
               else match split s' with
                    | w :: ws => String c w :: ws
                    | [] => [String c EmptyString]
                    end
           end
  end.

(** [s.split('\n')]. *)
Fixpoint split_lines (s : string) : list string :=
  match s with
  | EmptyString => [EmptyString]
  | String c s' =>
      if Ascii.eqb c "010"%char then EmptyString :: split_lines s'
      else match split_lines s' with
           | l :: ls => String c l :: ls
           | [] => [String c EmptyString]
           end
  end.

Definition startswith (s pre : string) : bool := String.prefix pre s.

Definition join (sep : string) (l : list string) : string := String.concat sep l.

(** *** dict *)
Section Dict.
Context {V : Type}.

Definition dict := list (string * V).

Fixpoint dict_get (k : string) (d : dict) : option V :=
  match d with
  | [] => None
  | (k', v) :: d' => if String.eqb k' k then Some v else dict_get k d'
  end.

Definition dict_mem (k : string) (d : dict) : bool :=
  match dict_get k d with Some _ => true | None => false end.

(** [d[k] = v]: an existing key keeps its place, a new one goes last. *)
Fixpoint dict_set (k : string) (v : V) (d : dict) : dict :=
  match d with
  | [] => [(k, v)]
  | (k', v') :: d' =>
      if String.eqb k' k then (k, v) :: d' else (k', v') :: dict_set k v d'
  end.

Definition keys (d : dict) : list string := map fst d.
End Dict.
Arguments dict V : clear implicits.

(** *** set of str *)
Definition set_mem (x : string) (s : list string) : bool :=
  existsb (String.eqb x) s.

Definition set_add (x : string) (s : list string) : list string :=
  if set_mem x s then s else s ++ [x].

End Py.
Import Py.

Arguments startswith : simpl never.

(** ** class CommitNode *)

Record CommitNode : Type := mkCommitNode {
  commit_hash : string;
  parents : list string;
  children : list string
}.

(** [CommitNode(commit_hash)] *)
Definition new_CommitNode (h : string) : CommitNode := mkCommitNode h [] [].

Definition NodeTable := dict CommitNode.

(** ** topo_sort *)

(** [in_degree = {}; for hash_, node in commit_nodes.items(): in_degree[hash_] = len(node.parents)] *)
Definition in_degree_of (commit_nodes : NodeTable) : dict Z :=
  fold_left
    (fun in_degree (item : string * CommitNode) =>
       dict_set (fst item) (Z.of_nat (List.length (parents (snd item)))) in_degree)
    commit_nodes [].

(** [[hash_ for hash_, degree in in_degree.items() if degree == 0]] *)
Definition zero_degree (in_degree : dict Z) : list string :=
  map fst (filter (fun item : string * Z => (snd item =? 0)%Z) in_degree).

(** The [for child in ...] loop of one iteration; [cs] is the already sorted
    list of children. *)
Fixpoint process_children (cs : list string) (in_degree : dict Z)
    (queue : list string) : outcome (dict Z * list string) :=
  match cs with
  | [] => Returns (in_degree, queue)
  | child :: cs' =>
      match dict_get child in_degree with
      | None => Raises (KeyError child)
      | Some d =>
          let in_degree := dict_set child (d - 1)%Z in_degree in
          if (d - 1 =? 0)%Z
          then process_children cs' in_degree (sorted (queue ++ [child]))
          else process_children cs' in_degree queue
      end
  end.

(** The state at the head of the [while queue:] loop. *)
Record sort_state : Type := mkSortState {
  st_in_degree : dict Z;
  st_queue : list string;
  st_result : list string
}.

(** One iteration of the [while] body, for a non-empty queue
    [current :: rest]. *)
Definition topo_step (commit_nodes : NodeTable) (st : sort_state)
    (current : string) (rest : list string) : outcome sort_state :=
  let result := st_result st ++ [current] in
  match dict_get current commit_nodes with
  | None => Raises (KeyError current)
  | Some node =>
      '(in_degree, queue) <-
        process_children (sorted (children node)) (st_in_degree st) rest ;;
      Returns (mkSortState in_degree queue result)
  end.

Fixpoint topo_loop (fuel : nat) (commit_nodes : NodeTable) (st : sort_state)
    : outcome (list string) :=
  match st_queue st with
  | [] => Returns (st_result st)
  | current :: rest =>
      match fuel with
      | O => OutOfFuel
      | S fuel' =>
          st' <- topo_step commit_nodes st current rest ;;
          topo_loop fuel' commit_nodes st'
      end
  end.

Definition topo_init (commit_nodes : NodeTable) : sort_state :=
  let in_degree := in_degree_of commit_nodes in
  mkSortState in_degree (sorted (zero_degree in_degree)) [].

(** Every iteration appends one new key to [result], so the number of keys
    bounds the number of iterations (lemma [topo_sort_terminates]). *)
Definition topo_sort (commit_nodes : NodeTable) : outcome (list string) :=
  result <- topo_loop (List.length commit_nodes) commit_nodes (topo_init commit_nodes) ;;
  Returns (rev result).

(** ** decompress_git_object *)

(** What lies at [objects/<hash[:2]>/<hash[2:]>]: a file that [open],
    [zlib.decompress] or [decode] rejects, or a file holding the compressed
    form of [text].  A hash without an entry in the store is a path that does
    not exist. *)
Inductive ObjectFile : Type :=
| Corrupt
| Blob (text : string).

Definition GitDir := dict ObjectFile.

Definition decompress_git_object (git_dir : GitDir) (hash : string)
    : outcome (list string) :=
  match dict_get hash git_dir with
  | None => Returns []
  | Some Corrupt => Raises ReadError
  | Some (Blob text) => Returns (split_lines text)
  end.

(** ** build_commit_graph *)

(** [if h not in graph: graph[h] = CommitNode(h)] *)
Definition ensure_node (h : string) (graph : NodeTable) : NodeTable :=
  if dict_mem h graph then graph else dict_set h (new_CommitNode h) graph.

(** [graph[hash].parents.add(parent_hash)] *)
Definition add_parent (hash parent_hash : string) (graph : NodeTable)
    : outcome NodeTable :=
  match dict_get hash graph with
  | None => Raises (KeyError hash)
  | Some node =>
      Returns (dict_set hash
                 (mkCommitNode (commit_hash node)
                    (set_add parent_hash (parents node)) (children node))
                 graph)
  end.

(** [graph[parent_hash].children.add(hash)] *)
Definition add_child (parent_hash hash : string) (graph : NodeTable)
    : outcome NodeTable :=
  match dict_get parent_hash graph with
  | None => Raises (KeyError parent_hash)
  | Some node =>
      Returns (dict_set parent_hash
                 (mkCommitNode (commit_hash node)
                    (parents node) (set_add hash (children node)))
                 graph)
  end.

(** The body of [if line.startswith('parent')], after [parent_hash] has
    been read off the line, without the push on the stack. *)
Definition add_edge (hash parent_hash : string) (graph : NodeTable)
    : outcome NodeTable :=
  graph1 <- add_parent hash parent_hash (ensure_node parent_hash graph) ;;
  add_child parent_hash hash graph1.

(** [for line in lines: ...].  The stack is kept with its top first:
    [stack.append(x)] is [x :: stack] and [stack.pop()] takes the head. *)
Fixpoint scan_lines (hash : string) (lines : list string)
    (graph : NodeTable) (stack : list string)
    : outcome (NodeTable * list string) :=
  match lines with
  | [] => Returns (graph, stack)
  | line :: rest =>
      if startswith line "parent" then
        match nth_error (split line) 1 with
        | None => Raises IndexError
        | Some parent_hash =>
            graph' <- add_edge hash parent_hash graph ;;
            scan_lines hash rest graph' (parent_hash :: stack)
        end
      else if String.eqb line "" then Returns (graph, stack)
      else scan_lines hash rest graph stack
  end.

Record build_state : Type := mkBuildState {
  bs_graph : NodeTable;
  bs_stack : list string;
  bs_visited : list string
}.

(** The body of [while stack:] for an unvisited [hash] popped off the stack,
    [rest] being what is left of the stack. *)
Definition visit (git_dir : GitDir) (st : build_state)
    (hash : string) (rest : list string) : outcome build_state :=
  let visited := set_add hash (bs_visited st) in
  let graph := ensure_node hash (bs_graph st) in
  lines <- decompress_git_object git_dir hash ;;
  '(graph', stack') <- scan_lines hash lines graph rest ;;
  Returns (mkBuildState graph' stack' visited).

Fixpoint build_loop (fuel : nat) (git_dir : GitDir) (st : build_state)
    : outcome NodeTable :=
  match bs_stack st with
  | [] => Returns (bs_graph st)
  | hash :: rest =>
      match fuel with
      | O => OutOfFuel
      | S fuel' =>
          if set_mem hash (bs_visited st)
          then build_loop fuel' git_dir
                 (mkBuildState (bs_graph st) rest (bs_visited st))
          else st' <- visit git_dir st hash rest ;;
               build_loop fuel' git_dir st'
      end
  end.

Definition object_lines (f : ObjectFile) : nat :=
  match f with
  | Corrupt => 0
  | Blob text => List.length (split_lines text)
  end.

(** Every iteration pops one entry, and an entry is either a seed or was
    pushed for one line of a record that is read once: the seeds and the
    lines of the store bound the iterations (lemma
    [build_commit_graph_terminates]). *)
Definition build_fuel (git_dir : GitDir) (stack : list string) : nat :=
  List.length stack
  + list_sum (map (fun item : string * ObjectFile => object_lines (snd item)) git_dir).

Definition build_commit_graph (git_dir : GitDir)
    (branches_list : list (string * string)) : outcome NodeTable :=
  let stack := rev (map snd branches_list) in
  build_loop (build_fuel git_dir stack) git_dir (mkBuildState [] stack []).

(** ** print_topo_ordered_commits *)

Definition nonempty {A : Type} (l : list A) : bool :=
  match l with [] => false | _ :: _ => true end.

(** The sticky end [f"{' '.join(sorted(parents))}="], or ["="]. *)
Definition sticky_end (prev_node : CommitNode) : string :=
  if nonempty (parents prev_node)
  then (join " " (sorted (parents prev_node)) ++ "=")%string
  else "=".

(** The sticky start [f"={''.join([' ' + c for c in children]) if children else ''}"]. *)
Definition sticky_start (node : CommitNode) : string :=
  let children := sorted (children node) in
  ("=" ++ (if nonempty children
           then join "" (map (fun c => " " ++ c)%string children)
           else ""))%string.

(** The line of the commit itself. *)
Definition commit_line (head_to_branches : dict (list string)) (hash : string)
    : string :=
  let branches :=
    match dict_get hash head_to_branches with Some b => b | None => [] end in
  if nonempty branches
  then (hash ++ " " ++ join " " (sorted branches))%string
  else hash.

(** The [if prev is not None and prev not in commit_nodes[hash].children]
    block: [out] is the list of the lines printed so far.  The [and] does
    not look [hash] up when there is no previous commit. *)
Definition print_sticky (commit_nodes : NodeTable) (prev : option string)
    (hash : string) (out : list string) : outcome (list string) :=
  match prev with
  | None => Returns out
  | Some p =>
      match dict_get hash commit_nodes with
      | None => Raises (KeyError hash)
      | Some node =>
          if negb (set_mem p (children node)) then
            match dict_get p commit_nodes with
            | None => Raises (KeyError p)
            | Some prev_node =>
                Returns (out ++ [sticky_end prev_node] ++ [""] ++ [sticky_start node])
            end
          else Returns out
      end
  end.

Fixpoint print_loop (commit_nodes : NodeTable)
    (head_to_branches : dict (list string)) (topo_ordered_commits : list string)
    (prev : option string) (out : list string) : outcome (list string) :=
  match topo_ordered_commits with
  | [] => Returns out
  | hash :: rest =>
      out1 <- print_sticky commit_nodes prev hash out ;;
      print_loop commit_nodes head_to_branches rest (Some hash)
        (out1 ++ [commit_line head_to_branches hash])
  end.

(** The lines written to standard output. *)
Definition print_topo_ordered_commits (commit_nodes : NodeTable)
    (topo_ordered_commits : list string)
    (head_to_branches : dict (list string)) : outcome (list string) :=
  print_loop commit_nodes head_to_branches topo_ordered_commits None [].

(** ** topo_order_commits, from the branches on *)

Definition head_to_branches_of (branches : list (string * string))
    : dict (list string) :=
  fold_left
    (fun d (b : string * string) =>
       let d1 := if dict_mem (snd b) d then d else dict_set (snd b) [] d in
       match dict_get (snd b) d1 with
       | Some names => dict_set (snd b) (names ++ [fst b]) d1
       | None => d1
       end)
    branches [].

Definition topo_order_commits (git_dir : GitDir)
    (branches : list (string * string)) : outcome (list string) :=
  let head_to_branches := head_to_branches_of branches in
  commit_nodes <- build_commit_graph git_dir branches ;;
  topo_ordered_commits <- topo_sort commit_nodes ;;
  print_topo_ordered_commits commit_nodes topo_ordered_commits head_to_branches.

(** ** The vocabulary of the specification: tables and the sorter *)

Definition parents_of (t : NodeTable) (x : string) : list string :=
  match dict_get x t with Some n => parents n | None => [] end.

Definition children_of (t : NodeTable) (x : string) : list string :=
  match dict_get x t with Some n => children n | None => [] end.

(** The data-model invariants of a NodeTable: a dict has each key once, a
    set has each member once, every identifier is a key, and [parents] and
    [children] mirror each other. *)
Record well_formed (t : NodeTable) : Prop := mkWellFormed {
  wf_keys : NoDup (keys t);
  wf_parents : forall x, NoDup (parents_of t x);
  wf_children : forall x, NoDup (children_of t x);
  wf_closed : forall x y,
      In y (parents_of t x) \/ In y (children_of t x) -> In y (keys t);
  wf_symmetric : forall a b,
      In b (parents_of t a) <-> In a (children_of t b)
}.

Arguments wf_keys {t}.
Arguments wf_parents {t}.
Arguments wf_children {t}.
Arguments wf_closed {t}.
Arguments wf_symmetric {t}.

(** [parent_edge t c p]: the table records [p] as a parent of [c]. *)
Definition parent_edge (t : NodeTable) (c p : string) : Prop :=
  In p (parents_of t c).

(** [ancestor t x y]: a path of one or more parent edges leads from [x] to [y]. *)
Definition ancestor (t : NodeTable) : string -> string -> Prop :=
  clos_trans_1n string (parent_edge t).

Definition on_cycle (t : NodeTable) (x : string) : Prop := ancestor t x x.

Definition contains_cycle (t : NodeTable) : Prop := exists x, on_cycle t x.

Definition acyclic (t : NodeTable) : Prop := forall x, ~ on_cycle t x.

(** [x] occurs at an earlier position of [l] than [y]. *)
Definition occurs_before (x y : string) (l : list string) : Prop :=
  exists l1 l2 l3, l = l1 ++ x :: l2 ++ y :: l3.

Definition str_le (a b : string) : Prop := String.leb a b = true.

Definition str_lt (a b : string) : Prop := String.ltb a b = true.

(** The sorter reports an error. *)
Definition reports_error {A : Type} (o : outcome A) : Prop :=
  exists e, o = Raises e.

(** The states the head of the [while queue:] loop of [topo_sort] sees. *)
Inductive loop_head (t : NodeTable) : sort_state -> Prop :=
| head_init : loop_head t (topo_init t)
| head_next st current rest st' :
    loop_head t st ->
    st_queue st = current :: rest ->
    topo_step t st current rest = Returns st' ->
    loop_head t st'.

(** Two nodes with the same sets, whatever the iteration order of the sets. *)
Definition same_node (n1 n2 : CommitNode) : Prop :=
  commit_hash n1 = commit_hash n2
  /\ Permutation (parents n1) (parents n2)
  /\ Permutation (children n1) (children n2).

(** Two dicts holding the same table, whatever the iteration order of the
    mapping and of the sets inside. *)
Definition same_content (t1 t2 : NodeTable) : Prop :=
  NoDup (keys t1) /\ NoDup (keys t2)
  /\ forall k,
       match dict_get k t1, dict_get k t2 with
       | Some n1, Some n2 => same_node n1 n2
       | None, None => True
       | _, _ => False
       end.

(** ** The vocabulary of the specification: Graph Builder and annotator *)

(** The header of a record: its lines before the first blank line. *)
Fixpoint header (lines : list string) : list string :=
  match lines with
  | [] => []
  | line :: rest => if String.eqb line "" then [] else line :: header rest
  end.

(** What the code asks of a line to take [id] for a parent: the line starts
    with the characters [parent], and [id] is its second field. *)
Definition declares (line id : string) : Prop :=
  startswith line "parent" = true /\ nth_error (split line) 1 = Some id.

Definition declared (lines : list string) (id : string) : Prop :=
  exists line, In line (header lines) /\ declares line id.

Definition all_space (s : string) : Prop :=
  forallb isspace (list_ascii_of_string s) = true.

Definition no_space (s : string) : Prop :=
  forallb (fun c => negb (isspace c)) (list_ascii_of_string s) = true.

(** The end of a field: the end of the line, or a whitespace. *)
Definition field_end (s : string) : Prop :=
  match s with
  | EmptyString => True
  | String c _ => isspace c = true
  end.

(** The line begins with the literal token [parent] followed by whitespace
    and the node identifier [id]. *)
Definition parent_token_line (line id : string) : Prop :=
  exists ws rest,
    line = ("parent" ++ ws ++ id ++ rest)%string
    /\ ws <> "" /\ all_space ws
    /\ id <> "" /\ no_space id
    /\ field_end rest.

(** What holds of the state of the traversal at the head of its loop. *)
Record build_inv (git_dir : GitDir) (st : build_state) : Prop := mkBuildInv {
  bi_keys : NoDup (keys (bs_graph st));
  bi_parents : forall x, NoDup (parents_of (bs_graph st) x);
  bi_children : forall x, NoDup (children_of (bs_graph st) x);
  bi_symmetric : forall a b,
      In b (parents_of (bs_graph st) a) <-> In a (children_of (bs_graph st) b);
  bi_pending : forall x, In x (keys (bs_graph st)) ->
      In x (bs_visited st) \/ In x (bs_stack st);
  bi_visited : forall x, In x (bs_visited st) ->
      In x (keys (bs_graph st))
      /\ exists lines,
           decompress_git_object git_dir x = Returns lines
           /\ forall p, In p (parents_of (bs_graph st) x) <-> declared lines p;
  bi_unvisited : forall x, ~ In x (bs_visited st) ->
      parents_of (bs_graph st) x = []
}.

(** The closing marker of a boundary: the identifiers in ascending order,
    joined by spaces, then the marker symbol. *)
Definition closing_marker (ids : list string) : string :=
  (String.concat " " (sorted ids) ++ "=")%string.

(** The opening marker: the marker symbol, then each identifier, in
    ascending order, after a space. *)
Definition opening_marker (ids : list string) : string :=
  ("=" ++ String.concat "" (map (fun c => " " ++ c) (sorted ids)))%string.

Definition boundary_block (t : NodeTable) (previous current : string)
    : list string :=
  [closing_marker (parents_of t previous); "";
   opening_marker (children_of t current)].

(** The annotated sequence, as the specification describes it. *)
Fixpoint annotate (t : NodeTable) (name_map : dict (list string))
    (previous : option string) (ordered_ids : list string) : list string :=
  match ordered_ids with
  | [] => []
  | current :: rest =>
      match previous with
      | Some p =>
          if set_mem p (children_of t current) then []
          else boundary_block t p current
      | None => []
      end
      ++ [commit_line name_map current]
      ++ annotate t name_map (Some current) rest
  end.

(** ** Quantities used in the proofs about [topo_sort] *)

(** The entry of [in_degree] for one item of the table. *)
Definition degree_item (item : string * CommitNode) : string * Z :=
  (fst item, Z.of_nat (List.length (parents (snd item)))).

(** The number of parents of [x] that are not in [result] yet. *)
Definition remaining (t : NodeTable) (result : list string) (x : string) : nat :=
  List.length (filter (fun p => negb (set_mem p result)) (parents_of t x)).

(** What holds at the head of the loop on a well-formed table. *)
Record sort_inv (t : NodeTable) (st : sort_state) : Prop := mkSortInv {
  inv_keys : keys (st_in_degree st) = keys t;
  inv_nodup : NoDup (st_result st ++ st_queue st);
  inv_incl : incl (st_result st ++ st_queue st) (keys t);
  inv_degree : forall x, In x (keys t) ->
      dict_get x (st_in_degree st) = Some (Z.of_nat (remaining t (st_result st) x));
  inv_ready : forall x, In x (keys t) ->
      (In x (st_result st ++ st_queue st) <-> remaining t (st_result st) x = 0%nat);
  inv_order : forall l1 x l2, st_result st = l1 ++ x :: l2 ->
      incl (parents_of t x) l1;
  inv_sorted : StronglySorted str_le (st_queue st)
}.

Arguments inv_nodup {t st}.
Arguments inv_incl {t st}.

(** A path along a relation, as the list of its nodes. *)
Fixpoint is_chain (R : string -> string -> Prop) (l : list string) : Prop :=
  match l with
  | x :: (y :: _) as l' => R x y /\ is_chain R l'
  | _ => True
  end.

(** ** Relations used in the proof of determinism *)

(** Two dicts that answer every lookup alike. *)
Definition dict_ext {V : Type} (d1 d2 : dict V) : Prop :=
  forall k, dict_get k d1 = dict_get k d2.

(** Two outcomes of the loop over the children that agree. *)
Definition children_agree (o1 o2 : outcome (dict Z * list string)) : Prop :=
  match o1, o2 with
  | Returns (d1, q1), Returns (d2, q2) => dict_ext d1 d2 /\ q1 = q2
  | Raises e1, Raises e2 => e1 = e2
  | OutOfFuel, OutOfFuel => True
  | _, _ => False
  end.

(** Two tables whose lookups give nodes with the same sorted children. *)
Definition same_children (t1 t2 : NodeTable) : Prop :=
  forall k,
    match dict_get k t1, dict_get k t2 with
    | Some n1, Some n2 => sorted (children n1) = sorted (children n2)
    | None, None => True
    | _, _ => False
    end.

(** ** The measure of the traversal *)

(** The lines of the records that have not been visited yet. *)
Definition pending (git_dir : GitDir) (visited : list string) : nat :=
  list_sum
    (map (fun item : string * ObjectFile =>
            if set_mem (fst item) visited then 0%nat else object_lines (snd item))
       git_dir).

(** ** What bounds the iterations of the sorter on any table *)

(** [held] lists, without repetition, keys of [in_degree] whose count is
    not positive any more. *)
Definition spent (in_degree : dict Z) (held : list string) : Prop :=
  NoDup (keys in_degree)
  /\ NoDup held
  /\ incl held (keys in_degree)
  /\ forall x, In x held ->
       exists d, dict_get x in_degree = Some d /\ (d <= 0)%Z.








(** ** Decision procedures for concrete tables *)

Fixpoint nodupb (l : list string) : bool :=
  match l with
  | [] => true
  | x :: l' => negb (set_mem x l') && nodupb l'
  end.

Definition node_okb (t : NodeTable) (item : string * CommitNode) : bool :=
  nodupb (parents (snd item)) && nodupb (children (snd item))
  && forallb (fun p => dict_mem p t && set_mem (fst item) (children_of t p))
       (parents (snd item))
  && forallb (fun c => dict_mem c t && set_mem (fst item) (parents_of t c))
       (children (snd item)).

Definition well_formedb (t : NodeTable) : bool :=
  nodupb (keys t) && forallb (node_okb t) t.

(** The position of [x] in [order]. *)
Fixpoint rank_in (order : list string) (x : string) : nat :=
  match order with
  | [] => 0
  | y :: order' => if String.eqb y x then 0 else S (rank_in order' x)
  end.

(** Every parent stands before its child in [order]. *)
Definition rankedb (t : NodeTable) (order : list string) : bool :=
  forallb
    (fun item : string * CommitNode =>
       forallb (fun p => (rank_in order p <? rank_in order (fst item))%nat)
         (parents (snd item)))
    t.

(** ** Example tables *)

(** [A] has parent [B], [B] has parent [C]. *)
Definition chain_ABC : NodeTable :=
  [ ("A", mkCommitNode "A" ["B"] []);
    ("B", mkCommitNode "B" ["C"] ["A"]);
    ("C", mkCommitNode "C" [] ["B"]) ].

(** [A]'s parent is [B], [B]'s parent is [A]. *)
Definition cycle_AB : NodeTable :=
  [ ("A", mkCommitNode "A" ["B"] ["B"]);
    ("B", mkCommitNode "B" ["A"] ["A"]) ].

(** A root [R] with a child [K] whose parent is also [K]'s child [L]. *)
Definition cycle_below_root : NodeTable :=
  [ ("R", mkCommitNode "R" [] ["K"]);
    ("K", mkCommitNode "K" ["R"; "L"] ["L"]);
    ("L", mkCommitNode "L" ["K"] ["K"]) ].

(** Two unrelated roots. *)
Definition roots_AB : NodeTable :=
  [ ("B", mkCommitNode "B" [] []);
    ("A", mkCommitNode "A" [] []) ].

(** A merge: [M] has the parents [P] and [Q], both children of [O]. *)
Definition diamond : NodeTable :=
  [ ("M", mkCommitNode "M" ["Q"; "P"] []);
    ("Q", mkCommitNode "Q" ["O"] ["M"]);
    ("P", mkCommitNode "P" ["O"] ["M"]);
    ("O", mkCommitNode "O" [] ["Q"; "P"]) ].

(** [diamond] with the mapping and the sets iterated in another order. *)
Definition diamond_permuted : NodeTable :=
  [ ("O", mkCommitNode "O" [] ["P"; "Q"]);
    ("P", mkCommitNode "P" ["O"] ["M"]);
    ("M", mkCommitNode "M" ["P"; "Q"] []);
    ("Q", mkCommitNode "Q" ["O"] ["M"]) ].

(** ** Example stores *)

Definition newline : string := String "010" "".

(** [A] with the parents [B] and [D], [B] with the parent [C]; the objects
    of [C] and [D] are missing. *)
Definition store_ABCD : GitDir :=
  [ ("A", Blob ("tree t" ++ newline ++ "parent B" ++ newline ++ "parent D"
                ++ newline ++ "author x" ++ newline ++ newline
                ++ "parent Z" ++ newline)%string);
    ("B", Blob ("tree t" ++ newline ++ "parent C" ++ newline ++ newline
                ++ "msg")%string) ].

(** A record whose line starts with the characters [parent] without being
    the token. *)
Definition store_parentx : GitDir :=
  [ ("H", Blob ("parentx abc" ++ newline)%string) ].

(** An object that is there and cannot be read. *)
Definition store_corrupt : GitDir := [ ("G", Corrupt) ].

(** Two components, [A] with parent [B] and [C] with parent [D]. *)
Definition two_components : NodeTable :=
  [ ("A", mkCommitNode "A" ["B"] []);
    ("B", mkCommitNode "B" [] ["A"]);
    ("C", mkCommitNode "C" ["D"] []);
    ("D", mkCommitNode "D" [] ["C"]) ].

(** ** The store as a graph, for the reach of the traversal *)

(** The identifiers the traversal starts from. *)
Definition seeds (branches_list : list (string * string)) : list string :=
  map snd branches_list.

(** A line the scan goes through without raising: one that starts with
    [parent] has a second field. *)
Definition line_ok (line : string) : bool :=
  if startswith line "parent"
  then match nth_error (split line) 1 with Some _ => true | None => false end
  else true.

Definition header_ok (lines : list string) : bool :=
  forallb line_ok (header lines).

(** The record of [x] can be read, and scanned to its first blank line. *)
Definition record_ok (git_dir : GitDir) (x : string) : Prop :=
  exists lines,
    decompress_git_object git_dir x = Returns lines /\ header_ok lines = true.

(** The record of [x] in the store declares the parent [p]. *)
Definition store_parent (git_dir : GitDir) (x p : string) : Prop :=
  exists lines,
    decompress_git_object git_dir x = Returns lines /\ declared lines p.

(** [x] is a seed, or is reached from one along declared parents. *)
Definition reachable (git_dir : GitDir) (from : list string) (x : string) : Prop :=
  exists s, In s from /\ clos_refl_trans_1n string (store_parent git_dir) s x.

(** What the traversal keeps about the seeds [from]. *)
Record reach_inv (git_dir : GitDir) (from : list string) (st : build_state)
    : Prop := mkReachInv {
  ri_keys : forall x, In x (keys (bs_graph st)) -> reachable git_dir from x;
  ri_stack : forall x, In x (bs_stack st) -> reachable git_dir from x;
  ri_seeds : forall s, In s from ->
      In s (keys (bs_graph st)) \/ In s (bs_stack st);
  ri_records : forall x, In x (bs_visited st) -> record_ok git_dir x
}.

(** ** Vocabulary of the further properties of the annotator *)

(** The number of places of a sequence where the node before is not a child
    of the node after. *)
Fixpoint breaks (t : NodeTable) (ordered : list string) : nat :=
  match ordered with
  | p :: (c :: _) as rest =>
      (if set_mem p (children_of t c) then 0 else 1) + breaks t rest
  | _ => 0
  end.

(** The names of the branches whose head is [h], in the order of the list. *)
Definition names_at (branches : list (string * string)) (h : string)
    : list string :=
  map fst (filter (fun b : string * string => String.eqb (snd b) h) branches).

(** ** Tables with the same sets *)

(** Two dicts with the same keys and, at each key, parents and children
    sets with the same members. *)
Definition same_sets (t1 t2 : NodeTable) : Prop :=
  NoDup (keys t1) /\ NoDup (keys t2)
  /\ (forall k, In k (keys t1) <-> In k (keys t2))
  /\ forall k,
       Permutation (parents_of t1 k) (parents_of t2 k)
       /\ Permutation (children_of t1 k) (children_of t2 k).

(** ** Lines *)

Definition no_newline (line : string) : Prop :=
  forallb (fun c => negb (Ascii.eqb c "010"%char)) (list_ascii_of_string line)
  = true.

(** ** get_git_directory *)

Definition is_slash (c : ascii) : bool := Ascii.eqb c "/"%char.

(** [s.endswith('/')] *)
Definition ends_with_slash (s : string) : bool :=
  match rev (list_ascii_of_string s) with
  | c :: _ => is_slash c
  | [] => false
  end.

(** [os.path.join(a, b)] on POSIX, for one component [b]. *)
Definition path_join (a b : string) : string :=
  if startswith b "/" then b
  else if String.eqb a "" || ends_with_slash a then (a ++ b)%string
  else (a ++ "/" ++ b)%string.

Fixpoint drop_while (f : ascii -> bool) (l : list ascii) : list ascii :=
  match l with
  | [] => []
  | c :: l' => if f c then drop_while f l' else l
  end.

(** [os.path.dirname(p)] on POSIX: [head = p[:p.rfind('/') + 1]], and
    [head.rstrip('/')] unless [head] is empty or made of slashes only.  The
    characters are handled from the end of the path. *)
Definition dirname (p : string) : string :=
  let head := drop_while (fun c => negb (is_slash c)) (rev (list_ascii_of_string p)) in
  if nonempty head && negb (forallb is_slash head)
  then string_of_list_ascii (rev (drop_while is_slash head))
  else string_of_list_ascii (rev head).

(** How a call of [get_git_directory] ends: it returns the path of a [.git]
    directory, or writes [message] to the error stream and exits with
    [status]; [StillClimbing] stands for a loop that has not come to an end
    within the fuel. *)
Inductive located : Type :=
| Found (git_path : string)
| Exits (message : string) (status : Z)
| StillClimbing.

(** The [while curr_path != '/'] loop; [isdir] is [os.path.isdir] on the
    file system at hand. *)
Fixpoint climb (fuel : nat) (isdir : string -> bool) (curr_path : string)
    : located :=
  if String.eqb curr_path "/"
  then Exits ("Not inside a Git repository" ++ newline)%string 1%Z
  else match fuel with
       | O => StillClimbing
       | S fuel' =>
           let git_path := path_join curr_path ".git" in
           if isdir git_path then Found git_path
           else climb fuel' isdir (dirname curr_path)
       end.

(** [cwd] is what [os.getcwd()] returns.  A step of the loop that does not
    end it shortens the path, so the length of [cwd] bounds the steps of a
    loop that ends. *)
Definition get_git_directory (isdir : string -> bool) (cwd : string) : located :=
  climb (String.length cwd) isdir cwd.

(** A path component: not empty, no slash in it. *)
Definition component (c : string) : Prop :=
  c <> "" /\ forallb (fun a => negb (is_slash a)) (list_ascii_of_string c) = true.

(** The text of the directories under the root named by [comps]. *)
Fixpoint below_root (comps : list string) : string :=
  match comps with
  | [] => ""
  | c :: comps' => ("/" ++ c ++ below_root comps')%string
  end.

(** The absolute path with the components [comps]; the root for none. *)
Definition abs_path (comps : list string) : string :=
  match comps with
  | [] => "/"
  | _ => below_root comps
  end.

(** The [.git] the loop finds from the directory whose components, innermost
    first, are [inner_first]. *)
Fixpoint nearest_git (isdir : string -> bool) (inner_first : list string)
    : option string :=
  match inner_first with
  | [] => None
  | _ :: outer =>
      let git_path := (abs_path (rev inner_first) ++ "/.git")%string in
      if isdir git_path then Some git_path else nearest_git isdir outer
  end.

(** ** An example file system *)

(** A file system in which [/home/u] and the root hold a [.git] directory. *)
Definition isdir_home_u (path : string) : bool :=
  String.eqb path "/home/u/.git" || String.eqb path "/.git".

(** ** Topological orders *)

(** [l] lists every key once, each after all its parents. *)
Definition topological (t : NodeTable) (l : list string) : Prop :=
  Permutation l (keys t)
  /\ forall l1 x l2, l = l1 ++ x :: l2 -> incl (parents_of t x) l1.

(** The lexicographic order on sequences of identifiers. *)
Inductive lex_le : list string -> list string -> Prop :=
| lex_nil l : lex_le [] l
| lex_less x y l1 l2 : str_lt x y -> lex_le (x :: l1) (y :: l2)
| lex_same x l1 l2 : lex_le l1 l2 -> lex_le (x :: l1) (x :: l2).

(** * Properties *)

(** ** Strings and [sorted] *)

Lemma str_le_refl a : str_le a a.
Proof.
  unfold str_le, String.leb.
  replace (String.compare a a) with Eq; [reflexivity|].
  symmetry. now apply String_as_OT.cmp_eq.
Qed.

Lemma str_le_cases a b : str_le a b <-> a = b \/ String_as_OT.lt a b.
Proof.
  unfold str_le, String.leb.
  destruct (String.compare a b) eqn:E; split; intros H; try reflexivity.
  - left. now apply String_as_OT.cmp_eq.
  - right. now apply String_as_OT.cmp_lt.
  - discriminate.
  - destruct H as [H | H].
    + apply String_as_OT.cmp_eq in H. unfold String_as_OT.cmp in H. congruence.
    + apply String_as_OT.cmp_lt in H. unfold String_as_OT.cmp in H. congruence.
Qed.

Lemma str_le_trans a b c : str_le a b -> str_le b c -> str_le a c.
Proof.
  rewrite !str_le_cases. intros [-> | H1] [-> | H2]; auto.
  right. eapply String_as_OT.lt_trans; eauto.
Qed.

Lemma str_le_antisym a b : str_le a b -> str_le b a -> a = b.
Proof. apply String.leb_antisym. Qed.

Lemma str_le_total a b : str_le a b \/ str_le b a.
Proof. apply String.leb_total. Qed.

Lemma str_lt_le a b : str_lt a b <-> str_le a b /\ a <> b.
Proof.
  unfold str_lt, str_le, String.ltb, String.leb.
  destruct (String.compare a b) eqn:E; split; try intros [H1 H2]; try easy.
  - apply String_as_OT.cmp_eq in E. contradiction.
  - intros _. split; [reflexivity|]. intros ->.
    assert (String.compare b b = Eq) by now apply String_as_OT.cmp_eq.
    congruence.
Qed.

Lemma insort_perm x l : Permutation (insort x l) (x :: l).
Proof.
  induction l as [|y l IH]; simpl; [reflexivity|].
  destruct (String.leb x y); [reflexivity|].
  rewrite IH. apply perm_swap.
Qed.

Lemma sorted_perm l : Permutation (sorted l) l.
Proof.
  induction l as [|x l IH]; simpl; [reflexivity|].
  rewrite insort_perm. now constructor.
Qed.

Lemma sorted_In x l : In x (sorted l) <-> In x l.
Proof.
  split; apply Permutation_in; [|symmetry]; apply sorted_perm.
Qed.

Lemma sorted_NoDup l : NoDup l -> NoDup (sorted l).
Proof.
  intros H. eapply Permutation_NoDup; [symmetry; apply sorted_perm|exact H].
Qed.

Lemma insort_sorted x l :
  StronglySorted str_le l -> StronglySorted str_le (insort x l).
Proof.
  induction 1 as [|y l Hs IH Hy]; simpl.
  - repeat constructor.
  - destruct (String.leb x y) eqn:E.
    + constructor; [now constructor|].
      constructor; [exact E|].
      eapply Forall_impl; [|exact Hy].
      intros z Hz. eapply str_le_trans; eauto.
    + constructor; [exact IH|].
      eapply Permutation_Forall; [symmetry; apply insort_perm|].
      constructor; [|exact Hy].
      destruct (str_le_total x y) as [H|H]; [unfold str_le in H; congruence|exact H].
Qed.

Lemma sorted_sorted l : StronglySorted str_le (sorted l).
Proof.
  induction l; simpl; [constructor|now apply insort_sorted].
Qed.

Lemma strongly_sorted_unique l1 l2 :
  StronglySorted str_le l1 -> StronglySorted str_le l2 ->
  Permutation l1 l2 -> l1 = l2.
Proof.
  intros H1. revert l2.
  induction H1 as [|x l1 Hs1 IH Hx]; intros l2 H2 HP.
  - apply Permutation_nil in HP. now subst.
  - destruct H2 as [|y l2 Hs2 Hy].
    + symmetry in HP. apply Permutation_nil in HP. discriminate.
    + assert (x = y) as ->.
      { assert (In x (y :: l2)) as Hin by (eapply Permutation_in; [exact HP|now left]).
        assert (In y (x :: l1)) as Hin' by (eapply Permutation_in; [symmetry; exact HP|now left]).
        destruct Hin as [->|Hin]; [reflexivity|].
        destruct Hin' as [->|Hin']; [reflexivity|].
        apply str_le_antisym.
        - rewrite Forall_forall in Hx. now apply Hx.
        - rewrite Forall_forall in Hy. now apply Hy. }
      f_equal. apply IH; [exact Hs2|]. eapply Permutation_cons_inv; exact HP.
Qed.

Lemma sorted_perm_eq l1 l2 : Permutation l1 l2 -> sorted l1 = sorted l2.
Proof.
  intros HP. apply strongly_sorted_unique; try apply sorted_sorted.
  rewrite !sorted_perm. exact HP.
Qed.


(** ** dict and set *)

Section DictFacts.
Context {V : Type}.
Implicit Types (d : dict V) (k : string) (v : V).

Lemma dict_get_Some_In k v d : dict_get k d = Some v -> In (k, v) d.
Proof.
  induction d as [|[k' v'] d IH]; simpl; [discriminate|].
  destruct (String.eqb_spec k' k) as [->|Hne].
  - intros [= ->]. now left.
  - intros H. right. now apply IH.
Qed.

Lemma dict_get_Some_key k v d : dict_get k d = Some v -> In k (keys d).
Proof.
  intros H. apply dict_get_Some_In in H.
  unfold keys. change k with (fst (k, v)). now apply in_map.
Qed.

Lemma dict_get_None k d : dict_get k d = None <-> ~ In k (keys d).
Proof.
  induction d as [|[k' v'] d IH]; simpl; [tauto|].
  destruct (String.eqb_spec k' k) as [->|Hne].
  - split; [discriminate|]. intros H. exfalso. apply H. now left.
  - rewrite IH. tauto.
Qed.

Lemma dict_get_key k d : In k (keys d) -> exists v, dict_get k d = Some v.
Proof.
  intros H. destruct (dict_get k d) eqn:E; [eauto|].
  apply dict_get_None in E. contradiction.
Qed.

Lemma dict_mem_In k d : dict_mem k d = true <-> In k (keys d).
Proof.
  unfold dict_mem. destruct (dict_get k d) eqn:E.
  - split; [intros _; eapply dict_get_Some_key; eauto|reflexivity].
  - apply dict_get_None in E. split; [discriminate|contradiction].
Qed.

Lemma dict_get_In k v d : NoDup (keys d) -> In (k, v) d -> dict_get k d = Some v.
Proof.
  induction d as [|[k' v'] d IH]; simpl; [tauto|].
  intros Hnd [H|H]; inversion Hnd; subst.
  - inversion H; subst. now rewrite String.eqb_refl.
  - destruct (String.eqb_spec k' k) as [->|Hne]; [|now apply IH].
    exfalso. apply H2. change k with (fst (k, v)). now apply in_map.
Qed.

Lemma dict_get_set_eq k v d : dict_get k (dict_set k v d) = Some v.
Proof.
  induction d as [|[k' v'] d IH]; simpl.
  - now rewrite String.eqb_refl.
  - destruct (String.eqb_spec k' k) as [->|Hne]; simpl.
    + now rewrite String.eqb_refl.
    + destruct (String.eqb_spec k' k); [contradiction|exact IH].
Qed.

Lemma dict_get_set_neq k k' v d :
  k <> k' -> dict_get k' (dict_set k v d) = dict_get k' d.
Proof.
  intros Hne. induction d as [|[k0 v0] d IH]; simpl.
  - destruct (String.eqb_spec k k'); [contradiction|reflexivity].
  - destruct (String.eqb_spec k0 k) as [->|Hne0]; simpl.
    + destruct (String.eqb_spec k k'); [contradiction|reflexivity].
    + now rewrite IH.
Qed.

Lemma keys_set_in k v d : In k (keys d) -> keys (dict_set k v d) = keys d.
Proof.
  induction d as [|[k0 v0] d IH]; simpl; [tauto|].
  intros H. destruct (String.eqb_spec k0 k) as [->|Hne]; simpl; [reflexivity|].
  f_equal. apply IH. destruct H; [contradiction|assumption].
Qed.

Lemma keys_set_notin k v d :
  ~ In k (keys d) -> keys (dict_set k v d) = keys d ++ [k].
Proof.
  induction d as [|[k0 v0] d IH]; simpl; [reflexivity|].
  intros H. destruct (String.eqb_spec k0 k) as [->|Hne]; simpl.
  - exfalso. apply H. now left.
  - f_equal. apply IH. tauto.
Qed.

Lemma dict_set_notin k v d : ~ In k (keys d) -> dict_set k v d = d ++ [(k, v)].
Proof.
  induction d as [|[k0 v0] d IH]; simpl; [reflexivity|].
  intros H. destruct (String.eqb_spec k0 k) as [->|Hne]; simpl.
  - exfalso. apply H. now left.
  - f_equal. apply IH. tauto.
Qed.

Lemma keys_set_In k k' v d :
  In k' (keys (dict_set k v d)) <-> k' = k \/ In k' (keys d).
Proof.
  destruct (in_dec string_dec k (keys d)) as [Hin|Hnin].
  - rewrite keys_set_in by assumption. split; [tauto|]. intros [->|H]; assumption.
  - rewrite keys_set_notin by assumption. rewrite in_app_iff. simpl.
    split; intros H; intuition.
Qed.

Lemma keys_set_NoDup k v d : NoDup (keys d) -> NoDup (keys (dict_set k v d)).
Proof.
  intros Hnd. destruct (in_dec string_dec k (keys d)) as [Hin|Hnin].
  - now rewrite keys_set_in.
  - rewrite keys_set_notin by assumption.
    apply NoDup_app; [assumption|repeat constructor; auto|].
    intros x Hx [<-|[]]. contradiction.
Qed.
End DictFacts.

Lemma set_mem_In x s : set_mem x s = true <-> In x s.
Proof.
  unfold set_mem. rewrite existsb_exists. split.
  - intros [y [Hy E]]. apply String.eqb_eq in E. now subst.
  - intros H. exists x. split; [assumption|apply String.eqb_refl].
Qed.

Lemma set_mem_false x s : set_mem x s = false <-> ~ In x s.
Proof.
  rewrite <- set_mem_In. destruct (set_mem x s); split; intros; easy.
Qed.

Lemma set_add_In x y s : In y (set_add x s) <-> y = x \/ In y s.
Proof.
  unfold set_add. destruct (set_mem x s) eqn:E.
  - apply set_mem_In in E. split; [tauto|]. intros [->|H]; assumption.
  - rewrite in_app_iff. simpl. intuition.
Qed.

Lemma set_add_NoDup x s : NoDup s -> NoDup (set_add x s).
Proof.
  unfold set_add. intros H. destruct (set_mem x s) eqn:E; [assumption|].
  apply set_mem_false in E.
  apply NoDup_app; [assumption|repeat constructor; auto|].
  intros y Hy [<-|[]]. contradiction.
Qed.

(** ** [in_degree] *)

Lemma in_degree_fold (t : NodeTable) : forall acc : dict Z,
  NoDup (keys acc ++ keys t) ->
  fold_left
    (fun in_degree (item : string * CommitNode) =>
       dict_set (fst item) (Z.of_nat (List.length (parents (snd item)))) in_degree)
    t acc
  = acc ++ map degree_item t.
Proof.
  induction t as [|item t IH]; intros acc Hnd; simpl.
  - now rewrite app_nil_r.
  - simpl in Hnd. rewrite IH.
    + rewrite dict_set_notin.
      * now rewrite <- app_assoc.
      * apply NoDup_remove_2 in Hnd. intros Hin. apply Hnd.
        apply in_or_app. now left.
    + rewrite keys_set_notin.
      * rewrite <- app_assoc. exact Hnd.
      * apply NoDup_remove_2 in Hnd. intros Hin. apply Hnd.
        apply in_or_app. now left.
Qed.

Lemma in_degree_of_map (t : NodeTable) :
  NoDup (keys t) -> in_degree_of t = map degree_item t.
Proof.
  intros H. unfold in_degree_of. now rewrite in_degree_fold.
Qed.

Lemma keys_degree_items (t : NodeTable) : keys (map degree_item t) = keys t.
Proof.
  unfold keys. rewrite map_map. now apply map_ext.
Qed.

Lemma dict_get_degree_items (t : NodeTable) x :
  dict_get x (map degree_item t)
  = option_map (fun n => Z.of_nat (List.length (parents n))) (dict_get x t).
Proof.
  induction t as [|[k n] t IH]; simpl; [reflexivity|].
  destruct (String.eqb k x); [reflexivity|exact IH].
Qed.

Lemma zero_degree_In (t : NodeTable) x :
  In x (zero_degree (map degree_item t))
  <-> exists n, In (x, n) t /\ parents n = [].
Proof.
  unfold zero_degree. rewrite in_map_iff. split.
  - intros [[k d] [E H]]. simpl in E. subst k.
    apply filter_In in H. destruct H as [H Hz]. simpl in Hz.
    apply in_map_iff in H. destruct H as [[k n] [E H]].
    unfold degree_item in E. simpl in E. inversion E; subst.
    exists n. split; [assumption|].
    apply Z.eqb_eq in Hz. destruct (parents n); [reflexivity|simpl in Hz; lia].
  - intros [n [H Hp]]. exists (degree_item (x, n)). split; [reflexivity|].
    apply filter_In. split; [now apply in_map|].
    unfold degree_item. simpl. now rewrite Hp.
Qed.

Lemma zero_degree_NoDup (d : dict Z) : NoDup (keys d) -> NoDup (zero_degree d).
Proof.
  unfold zero_degree, keys. induction d as [|[k v] d IH]; simpl; intros H.
  - constructor.
  - inversion H; subst. destruct (v =? 0)%Z; simpl; [|now apply IH].
    constructor; [|now apply IH].
    intros Hin. apply H2. apply in_map_iff in Hin.
    destruct Hin as [y [E Hy]]. apply filter_In in Hy.
    rewrite <- E. apply in_map. tauto.
Qed.

(** ** The loop over the children *)

Lemma process_children_spec : forall cs deg q,
  NoDup cs ->
  (forall c, In c cs -> In c (keys deg)) ->
  exists deg' q',
    process_children cs deg q = Returns (deg', q')
    /\ keys deg' = keys deg
    /\ (forall k, dict_get k deg'
                  = if set_mem k cs
                    then option_map (fun d => (d - 1)%Z) (dict_get k deg)
                    else dict_get k deg)
    /\ Permutation q'
         (q ++ filter (fun c => match dict_get c deg with
                                | Some d => (d - 1 =? 0)%Z
                                | None => false
                                end) cs)
    /\ (StronglySorted str_le q -> StronglySorted str_le q').
Proof.
  induction cs as [|c cs IH]; intros deg q Hnd Hkeys; simpl.
  - exists deg, q. rewrite app_nil_r. repeat split; auto.
  - inversion Hnd as [|? ? Hc Hnd']; subst.
    destruct (dict_get_key c deg) as [d Hd]; [apply Hkeys; now left|].
    rewrite Hd.
    assert (Hkeys' : forall c', In c' cs -> In c' (keys (dict_set c (d - 1)%Z deg))).
    { intros c' H'. apply keys_set_In. right. apply Hkeys. now right. }
    assert (Hother : forall k, In k cs ->
              dict_get k (dict_set c (d - 1)%Z deg) = dict_get k deg).
    { intros k Hk. apply dict_get_set_neq. intros ->. contradiction. }
    assert (Hfilter :
      filter (fun c0 => match dict_get c0 (dict_set c (d - 1)%Z deg) with
                        | Some d0 => (d0 - 1 =? 0)%Z | None => false end) cs
      = filter (fun c0 => match dict_get c0 deg with
                          | Some d0 => (d0 - 1 =? 0)%Z | None => false end) cs).
    { apply filter_ext_in. intros k Hk. now rewrite Hother. }
    destruct (d - 1 =? 0)%Z eqn:Ez.
    + destruct (IH (dict_set c (d - 1)%Z deg) (sorted (q ++ [c])) Hnd' Hkeys')
        as (deg' & q' & Hrun & Hk & Hget & Hperm & Hsort).
      exists deg', q'. split; [exact Hrun|]. split.
      { rewrite Hk. apply keys_set_in. apply Hkeys. now left. }
      split.
      { intros k. rewrite Hget. destruct (String.eqb_spec k c) as [->|Hne].
        - simpl. apply set_mem_false in Hc. rewrite Hc.
          rewrite dict_get_set_eq, Hd. reflexivity.
        - simpl. rewrite dict_get_set_neq by congruence. reflexivity. }
      split.
      { rewrite Hperm, Hfilter, sorted_perm, <- app_assoc. reflexivity. }
      { intros _. apply Hsort. apply sorted_sorted. }
    + destruct (IH (dict_set c (d - 1)%Z deg) q Hnd' Hkeys')
        as (deg' & q' & Hrun & Hk & Hget & Hperm & Hsort).
      exists deg', q'. split; [exact Hrun|]. split.
      { rewrite Hk. apply keys_set_in. apply Hkeys. now left. }
      split.
      { intros k. rewrite Hget. destruct (String.eqb_spec k c) as [->|Hne].
        - simpl. apply set_mem_false in Hc. rewrite Hc.
          rewrite dict_get_set_eq, Hd. reflexivity.
        - simpl. rewrite dict_get_set_neq by congruence. reflexivity. }
      split.
      { rewrite Hperm, Hfilter. reflexivity. }
      { exact Hsort. }
Qed.

(** ** Kahn's algorithm on a well-formed table *)

Lemma filter_absent_length (c : string) (res l : list string) :
  ~ In c l ->
  List.length (filter (fun p => negb (set_mem p (res ++ [c]))) l)
  = List.length (filter (fun p => negb (set_mem p res)) l).
Proof.
  intros Hc. f_equal. apply filter_ext_in. intros p Hp. f_equal.
  destruct (set_mem p res) eqn:E.
  - apply set_mem_In. apply in_or_app. left. now apply set_mem_In.
  - apply set_mem_false. apply set_mem_false in E. rewrite in_app_iff.
    simpl. intros [H|[H|[]]]; [contradiction|subst; contradiction].
Qed.

Lemma filter_present_length (c : string) (res l : list string) :
  NoDup l -> In c l -> ~ In c res ->
  List.length (filter (fun p => negb (set_mem p res)) l)
  = S (List.length (filter (fun p => negb (set_mem p (res ++ [c]))) l)).
Proof.
  induction 1 as [|x l Hx Hnd IH]; intros Hin Hres; [destruct Hin|].
  destruct Hin as [->|Hin].
  - simpl. apply set_mem_false in Hres. rewrite Hres. simpl.
    replace (set_mem c (res ++ [c])) with true.
    + simpl. f_equal. symmetry. now apply filter_absent_length.
    + symmetry. apply set_mem_In. apply in_or_app. right. now left.
  - simpl. assert (x <> c) by (intros ->; contradiction).
    replace (set_mem x (res ++ [c])) with (set_mem x res).
    + destruct (set_mem x res); simpl; rewrite IH; auto.
    + destruct (set_mem x res) eqn:E; symmetry.
      * apply set_mem_In. apply in_or_app. left. now apply set_mem_In.
      * apply set_mem_false. apply set_mem_false in E. rewrite in_app_iff.
        simpl. intros [?|[?|[]]]; [contradiction|congruence].
Qed.

Lemma filter_length_zero (res l : list string) :
  List.length (filter (fun p => negb (set_mem p res)) l) = 0%nat <-> incl l res.
Proof.
  induction l as [|x l IH]; simpl.
  - split; [intros _ y []|reflexivity].
  - destruct (set_mem x res) eqn:E; simpl.
    + rewrite IH. apply set_mem_In in E. split.
      * intros H y [<-|Hy]; auto.
      * intros H y Hy. apply H. now right.
    + apply set_mem_false in E. split; [discriminate|].
      intros H. exfalso. apply E, H. now left.
Qed.

Section Kahn.
Variable t : NodeTable.
Hypothesis WF : well_formed t.

Lemma remaining_zero res x : remaining t res x = 0%nat <-> incl (parents_of t x) res.
Proof. apply filter_length_zero. Qed.

Lemma remaining_nil x : remaining t [] x = List.length (parents_of t x).
Proof.
  unfold remaining. f_equal. induction (parents_of t x) as [|a l IH]; [reflexivity|].
  cbn in *. now rewrite IH.
Qed.

Lemma remaining_child res c x :
  In x (children_of t c) -> ~ In c res ->
  remaining t res x = S (remaining t (res ++ [c]) x).
Proof.
  intros Hx Hc. apply filter_present_length; [apply WF| |exact Hc].
  now apply (wf_symmetric WF).
Qed.

Lemma remaining_other res c x :
  ~ In x (children_of t c) -> remaining t (res ++ [c]) x = remaining t res x.
Proof.
  intros Hx. apply filter_absent_length. intros H. apply Hx.
  now apply (wf_symmetric WF).
Qed.

Lemma key_node x : In x (keys t) -> exists n, dict_get x t = Some n.
Proof. apply dict_get_key. Qed.

Lemma topo_init_inv : sort_inv t (topo_init t).
Proof.
  pose proof (wf_keys WF) as Hnd.
  unfold topo_init. rewrite in_degree_of_map by assumption.
  assert (Hzero : forall x, In x (zero_degree (map degree_item t))
                            <-> In x (keys t) /\ remaining t [] x = 0%nat).
  { intros x. rewrite zero_degree_In, remaining_nil. unfold parents_of. split.
    - intros [n [Hin Hp]]. rewrite (dict_get_In _ _ _ Hnd Hin), Hp.
      split; [|reflexivity]. change x with (fst (x, n)). now apply in_map.
    - intros [Hk Hl]. destruct (key_node _ Hk) as [n Hn]. rewrite Hn in Hl.
      exists n. split; [now apply dict_get_Some_In|].
      now apply length_zero_iff_nil. }
  constructor; simpl.
  - apply keys_degree_items.
  - apply sorted_NoDup, zero_degree_NoDup. now rewrite keys_degree_items.
  - intros x Hx. rewrite sorted_In, Hzero in Hx. tauto.
  - intros x Hx. rewrite dict_get_degree_items, remaining_nil. unfold parents_of.
    destruct (key_node _ Hx) as [n ->]. reflexivity.
  - intros x Hx. rewrite sorted_In, Hzero. tauto.
  - intros l1 x l2 H. destruct l1; discriminate.
  - apply sorted_sorted.
Qed.

Lemma topo_step_inv st current rest :
  sort_inv t st -> st_queue st = current :: rest ->
  exists st',
    topo_step t st current rest = Returns st'
    /\ sort_inv t st'
    /\ st_result st' = st_result st ++ [current].
Proof.
  intros [Hkeys Hnd Hincl Hdeg Hready Hord Hsort] Hq. rewrite Hq in *.
  assert (Hcur : In current (keys t)).
  { apply Hincl. apply in_or_app. right. now left. }
  assert (Hfresh : ~ In current (st_result st)).
  { intros H. apply NoDup_remove_2 in Hnd. apply Hnd. apply in_or_app. now left. }
  assert (Hpar : incl (parents_of t current) (st_result st)).
  { apply remaining_zero. apply Hready; [assumption|].
    apply in_or_app. right. now left. }
  destruct (key_node _ Hcur) as [node Hnode].
  assert (Hch : children_of t current = children node).
  { unfold children_of. now rewrite Hnode. }
  unfold topo_step. rewrite Hnode.
  destruct (process_children_spec (sorted (children node))
              (st_in_degree st) rest)
    as (deg' & q' & Hrun & Hk' & Hget & Hperm & Hsort').
  { apply sorted_NoDup. rewrite <- Hch. apply WF. }
  { intros c Hc. rewrite Hkeys. apply (wf_closed WF current). right.
    rewrite Hch. now apply sorted_In. }
  rewrite Hrun. simpl. eexists. split; [reflexivity|]. split; [|reflexivity].
  set (res' := st_result st ++ [current]).
  assert (Hrem : forall x, In x (keys t) ->
    Z.of_nat (remaining t res' x)
    = if set_mem x (sorted (children node))
      then (Z.of_nat (remaining t (st_result st) x) - 1)%Z
      else Z.of_nat (remaining t (st_result st) x)).
  { intros x Hx. destruct (set_mem x (sorted (children node))) eqn:E.
    - apply set_mem_In in E. rewrite sorted_In, <- Hch in E.
      rewrite (remaining_child _ _ _ E Hfresh). fold res'. lia.
    - apply set_mem_false in E. rewrite sorted_In, <- Hch in E.
      unfold res'. now rewrite remaining_other. }
  assert (Hnew : forall x,
    In x (filter (fun c => match dict_get c (st_in_degree st) with
                           | Some d => (d - 1 =? 0)%Z | None => false end)
            (sorted (children node)))
    <-> In x (keys t) /\ remaining t (st_result st) x <> 0%nat
        /\ remaining t res' x = 0%nat).
  { intros x. rewrite filter_In, sorted_In, <- Hch. split.
    - intros [Hx Hd].
      assert (Hxk : In x (keys t)) by (apply (wf_closed WF current); now right).
      rewrite (Hdeg _ Hxk) in Hd. apply Z.eqb_eq in Hd.
      pose proof (remaining_child _ _ _ Hx Hfresh) as Hr. fold res' in Hr.
      split; [assumption|]. lia.
    - intros (Hxk & Hr0 & Hr1).
      destruct (in_dec string_dec x (children_of t current)) as [Hx|Hx].
      + split; [assumption|]. rewrite (Hdeg _ Hxk). apply Z.eqb_eq.
        pose proof (remaining_child _ _ _ Hx Hfresh) as Hr. fold res' in Hr. lia.
      + exfalso. apply Hr0. rewrite <- Hr1. unfold res'.
        symmetry. now apply remaining_other. }
  assert (Hmono : forall x, remaining t (st_result st) x = 0%nat ->
                            remaining t res' x = 0%nat).
  { intros x. rewrite !remaining_zero. intros H y Hy.
    apply in_or_app. left. now apply H. }
  assert (Hmem : forall x, In x (res' ++ q') <->
                 In x (st_result st ++ current :: rest)
                 \/ (In x (keys t) /\ remaining t (st_result st) x <> 0%nat
                     /\ remaining t res' x = 0%nat)).
  { intros x. rewrite <- Hnew. unfold res'. rewrite !in_app_iff.
    split.
    - intros [[H|[<-|[]]]|H].
      + left. now left.
      + left. right. now left.
      + apply (Permutation_in _ Hperm) in H. apply in_app_iff in H.
        destruct H as [H|H]; [left; right; now right|now right].
    - intros [[H|[<-|H]]|H].
      + left. now left.
      + left. right. now left.
      + right. apply (Permutation_in _ (Permutation_sym Hperm)).
        apply in_or_app. now left.
      + right. apply (Permutation_in _ (Permutation_sym Hperm)).
        apply in_or_app. now right. }
  constructor; simpl.
  - now rewrite Hk'.
  - fold res'. unfold res'. rewrite <- app_assoc. simpl.
    eapply Permutation_NoDup.
    { apply Permutation_app_head. apply perm_skip. symmetry. exact Hperm. }
    rewrite app_comm_cons, app_assoc. apply NoDup_app.
    + exact Hnd.
    + apply NoDup_filter, sorted_NoDup. rewrite <- Hch. apply WF.
    + intros x Hx Hx'. apply Hnew in Hx'. destruct Hx' as (Hxk & Hr0 & _).
      apply Hr0. now apply Hready.
  - intros x Hx. fold res' in Hx. apply Hmem in Hx.
    destruct Hx as [Hx|[Hx _]]; [now apply Hincl|assumption].
  - intros x Hx. fold res'. rewrite Hget, (Hdeg _ Hx), (Hrem _ Hx).
    destruct (set_mem x (sorted (children node))); reflexivity.
  - intros x Hx. fold res'. rewrite Hmem. split.
    + intros [H|H]; [|tauto]. apply Hmono. now apply Hready.
    + intros H.
      destruct (Nat.eq_dec (remaining t (st_result st) x) 0) as [E|E].
      * left. now apply Hready.
      * right. tauto.
  - fold res'. intros l1 x l2 E.
    destruct (list_eq_dec string_dec l2 []) as [->|Hl2].
    + apply app_inj_tail in E. destruct E as [<- <-]. exact Hpar.
    + destruct (exists_last Hl2) as (l2' & y & ->).
      unfold res' in E.
      change (l1 ++ x :: l2' ++ [y]) with (l1 ++ (x :: l2') ++ [y]) in E.
      rewrite app_assoc in E. apply app_inj_tail in E.
      destruct E as [E _]. eapply Hord. exact E.
  - apply Hsort'. now inversion Hsort.
Qed.

Lemma topo_loop_inv : forall fuel st,
  sort_inv t st ->
  List.length (keys t) <= List.length (st_result st) + fuel ->
  exists st',
    topo_loop fuel t st = Returns (st_result st')
    /\ sort_inv t st' /\ st_queue st' = [].
Proof.
  induction fuel as [|fuel IH]; intros st Hinv Hfuel.
  - destruct (st_queue st) as [|current rest] eqn:Hq.
    + exists st. simpl. rewrite Hq. auto.
    + exfalso.
      pose proof (NoDup_incl_length (inv_nodup Hinv) (inv_incl Hinv)) as Hlen.
      rewrite Hq, length_app in Hlen. simpl in Hlen. lia.
  - destruct (st_queue st) as [|current rest] eqn:Hq.
    + exists st. simpl. rewrite Hq. auto.
    + destruct (topo_step_inv st current rest Hinv Hq) as (st1 & Hstep & Hinv1 & Hres1).
      destruct (IH st1 Hinv1) as (st' & Hrun & Hinv' & Hq').
      { rewrite Hres1, length_app. simpl. lia. }
      exists st'. simpl. rewrite Hq, Hstep. simpl. auto.
Qed.

(** The construction order [res] of a well-formed table: the sorter
    returns its reverse, it has no duplicate, it holds exactly the keys all
    of whose parents it holds, and every node comes after its parents. *)
Lemma topo_sort_construction :
  exists res,
    topo_sort t = Returns (rev res)
    /\ NoDup res
    /\ incl res (keys t)
    /\ (forall x, In x (keys t) -> (In x res <-> incl (parents_of t x) res))
    /\ (forall l1 x l2, res = l1 ++ x :: l2 -> incl (parents_of t x) l1).
Proof.
  destruct (topo_loop_inv (List.length t) _ topo_init_inv)
    as (st & Hrun & Hinv & Hq).
  { unfold keys. rewrite length_map. simpl. lia. }
  exists (st_result st). unfold topo_sort. rewrite Hrun. simpl.
  destruct Hinv as [_ Hnd Hincl _ Hready Hord _].
  rewrite Hq, app_nil_r in *.
  split; [reflexivity|]. split; [assumption|]. split; [assumption|].
  split; [|assumption]. intros x Hx. rewrite <- remaining_zero.
  now apply Hready.
Qed.

(** A node is emitted after all its ancestors. *)
Lemma ancestors_first res :
  (forall l1 x l2, res = l1 ++ x :: l2 -> incl (parents_of t x) l1) ->
  forall x y, ancestor t x y ->
  forall l1 l2, res = l1 ++ x :: l2 -> In y l1.
Proof.
  intros Hord x y Hanc. induction Hanc as [x y Hxy|x p y Hxp Hpy IH];
    intros l1 l2 E.
  - eapply Hord; eauto.
  - assert (Hp : In p l1) by (eapply Hord; eauto).
    apply in_split in Hp. destruct Hp as (la & lb & ->).
    assert (Hy : In y la).
    { eapply IH. rewrite E, <- app_assoc. simpl. reflexivity. }
    apply in_or_app. now left.
Qed.

Lemma cycle_not_emitted res x :
  NoDup res ->
  (forall l1 x l2, res = l1 ++ x :: l2 -> incl (parents_of t x) l1) ->
  on_cycle t x -> ~ In x res.
Proof.
  intros Hnd Hord Hcyc Hin.
  apply in_split in Hin. destruct Hin as (l1 & l2 & E).
  assert (Hx : In x l1) by (eapply ancestors_first; eauto).
  rewrite E in Hnd. apply NoDup_remove_2 in Hnd. apply Hnd.
  apply in_or_app. now left.
Qed.
End Kahn.

(** ** Finite graphs without cycles *)

Section Chains.
Variable R : string -> string -> Prop.

Lemma is_chain_app_r l1 l2 : is_chain R (l1 ++ l2) -> is_chain R l2.
Proof.
  induction l1 as [|x l1 IH]; [auto|].
  intros H. apply IH. destruct l1 as [|y l1]; simpl in *.
  - destruct l2; [exact I|tauto].
  - tauto.
Qed.

Lemma is_chain_path : forall l2 a b l3,
  is_chain R (a :: l2 ++ b :: l3) -> clos_trans_1n string R a b.
Proof.
  induction l2 as [|c l2 IH]; intros a b l3 H.
  - simpl in H. apply Relation_Operators.t1n_step. tauto.
  - change (R a c /\ is_chain R (c :: l2 ++ b :: l3)) in H.
    destruct H as [Hac H].
    eapply Relation_Operators.t1n_trans; [exact Hac|]. eapply IH. exact H.
Qed.

Variable U : list string.
Hypothesis step : forall x, In x U -> exists y, In y U /\ R x y.

Lemma long_chain : forall n x, In x U ->
  exists l, List.length l = n /\ is_chain R (x :: l) /\ incl (x :: l) U.
Proof.
  induction n as [|n IH]; intros x Hx.
  - exists []. repeat split. intros y [<-|[]]. assumption.
  - destruct (step x Hx) as (y & Hy & Hxy).
    destruct (IH y Hy) as (l & Hlen & Hch & Hincl).
    exists (y :: l). simpl. repeat split; auto.
    intros z [<-|Hz]; [assumption|now apply Hincl].
Qed.

Lemma descent_cycle x : In x U -> exists z, clos_trans_1n string R z z.
Proof.
  intros Hx. destruct (long_chain (List.length U) x Hx) as (l & Hlen & Hch & Hincl).
  assert (Hdup : ~ NoDup (x :: l)).
  { intros Hnd. apply NoDup_incl_length with (l' := U) in Hnd; [|assumption].
    simpl in Hnd. lia. }
  apply not_NoDup in Hdup.
  - destruct Hdup as (a & l1 & l2 & l3 & E). rewrite E in Hch.
    apply is_chain_app_r in Hch. exists a. eapply is_chain_path. exact Hch.
  - intros a b. destruct (string_dec a b); [now left|now right].
Qed.
End Chains.

Lemma acyclic_all_emitted (t : NodeTable) res :
  well_formed t -> acyclic t ->
  (forall x, In x (keys t) -> (In x res <-> incl (parents_of t x) res)) ->
  incl (keys t) res.
Proof.
  intros WF Hac Hready x Hx.
  destruct (in_dec string_dec x res) as [Hin|Hnin]; [assumption|exfalso].
  set (U := filter (fun k => negb (set_mem k res)) (keys t)).
  assert (HU : forall k, In k U <-> In k (keys t) /\ ~ In k res).
  { intros k. unfold U. rewrite filter_In, negb_true_iff, set_mem_false. tauto. }
  destruct (descent_cycle (parent_edge t) U) with (x := x) as [z Hz].
  - intros k Hk. apply HU in Hk. destruct Hk as [Hk Hkres].
    assert (Hrem : remaining t res k <> 0%nat).
    { intros H. apply Hkres. apply Hready; [assumption|].
      now apply filter_length_zero. }
    unfold remaining in Hrem.
    destruct (filter (fun p => negb (set_mem p res)) (parents_of t k))
      as [|p ps] eqn:E; [contradiction|].
    assert (Hp : In p (filter (fun p => negb (set_mem p res)) (parents_of t k)))
      by (rewrite E; now left).
    apply filter_In in Hp. destruct Hp as [Hp Hpres].
    apply negb_true_iff, set_mem_false in Hpres.
    exists p. split; [|exact Hp]. apply HU. split; [|assumption].
    apply (wf_closed WF k). now left.
  - apply HU. tauto.
  - exact (Hac z Hz).
Qed.

(** ** Checking concrete tables *)

Lemma nodupb_NoDup l : nodupb l = true -> NoDup l.
Proof.
  induction l as [|x l IH]; simpl; intros H; [constructor|].
  apply andb_true_iff in H. destruct H as [Hx Hl].
  constructor; [|now apply IH].
  apply negb_true_iff in Hx. now apply set_mem_false.
Qed.

Lemma well_formedb_sound t : well_formedb t = true -> well_formed t.
Proof.
  unfold well_formedb. intros H. apply andb_true_iff in H. destruct H as [Hk Hall].
  rewrite forallb_forall in Hall.
  assert (Hnode : forall x n, dict_get x t = Some n -> node_okb t (x, n) = true).
  { intros x n Hn. apply Hall. now apply dict_get_Some_In. }
  assert (Hpar : forall x p, In p (parents_of t x) ->
            In p (keys t) /\ In x (children_of t p)).
  { intros x p. unfold parents_of at 1. destruct (dict_get x t) as [n|] eqn:E; [|intros []].
    intros Hp. apply Hnode in E. unfold node_okb in E. simpl in E.
    rewrite !andb_true_iff in E. destruct E as [[[_ _] E] _].
    rewrite forallb_forall in E. specialize (E p Hp).
    apply andb_true_iff in E. destruct E as [E1 E2].
    split; [now apply dict_mem_In|now apply set_mem_In]. }
  assert (Hchi : forall x c, In c (children_of t x) ->
            In c (keys t) /\ In x (parents_of t c)).
  { intros x c. unfold children_of at 1. destruct (dict_get x t) as [n|] eqn:E; [|intros []].
    intros Hc. apply Hnode in E. unfold node_okb in E. simpl in E.
    rewrite !andb_true_iff in E. destruct E as [_ E].
    rewrite forallb_forall in E. specialize (E c Hc).
    apply andb_true_iff in E. destruct E as [E1 E2].
    split; [now apply dict_mem_In|now apply set_mem_In]. }
  constructor.
  - now apply nodupb_NoDup.
  - intros x. unfold parents_of. destruct (dict_get x t) as [n|] eqn:E; [|constructor].
    apply Hnode in E. unfold node_okb in E. simpl in E.
    rewrite !andb_true_iff in E. apply nodupb_NoDup. tauto.
  - intros x. unfold children_of. destruct (dict_get x t) as [n|] eqn:E; [|constructor].
    apply Hnode in E. unfold node_okb in E. simpl in E.
    rewrite !andb_true_iff in E. apply nodupb_NoDup. tauto.
  - intros x y [H|H]; [now apply Hpar in H|now apply Hchi in H].
  - intros a b. split; intros H; [now apply Hpar in H|now apply Hchi in H].
Qed.

Lemma ranked_ancestor t order :
  rankedb t order = true ->
  forall x y, ancestor t x y -> (rank_in order y < rank_in order x)%nat.
Proof.
  intros Hr. unfold rankedb in Hr. rewrite forallb_forall in Hr.
  assert (Hedge : forall c p, parent_edge t c p ->
            (rank_in order p < rank_in order c)%nat).
  { intros c p. unfold parent_edge, parents_of.
    destruct (dict_get c t) as [n|] eqn:E; [|intros []].
    intros Hp. apply dict_get_Some_In in E. specialize (Hr _ E). simpl in Hr.
    rewrite forallb_forall in Hr. now apply Nat.ltb_lt, Hr. }
  induction 1 as [x y Hxy|x p y Hxp _ IH].
  - now apply Hedge.
  - apply Hedge in Hxp. lia.
Qed.

Lemma rankedb_acyclic t order : rankedb t order = true -> acyclic t.
Proof.
  intros Hr x Hx. pose proof (ranked_ancestor t order Hr x x Hx). lia.
Qed.

Lemma parent_edge_key t c p : parent_edge t c p -> In c (keys t).
Proof.
  unfold parent_edge, parents_of. destruct (dict_get c t) eqn:E; [|intros []].
  intros _. eapply dict_get_Some_key; eauto.
Qed.

Lemma on_cycle_key t x : on_cycle t x -> In x (keys t).
Proof.
  intros H. inversion H; subst; eapply parent_edge_key; eauto.
Qed.

(** ** The sorter on cyclic and acyclic tables *)

(** C1, as the code has it: the sorter has no cycle check.  On a well-formed
    table it returns normally, and the sequence it returns leaves out every
    node that lies on a cycle, so it is shorter than the table. *)
Theorem topo_sort_cycle_truncated (t : NodeTable) (x : string) :
  well_formed t -> on_cycle t x ->
  exists out,
    topo_sort t = Returns out
    /\ ~ In x out
    /\ NoDup out /\ incl out (keys t)
    /\ (List.length out < List.length t)%nat.
Proof.
  intros WF Hcyc.
  destruct (topo_sort_construction t WF) as (res & Hrun & Hnd & Hincl & _ & Hord).
  assert (Hx : ~ In x res) by (eapply cycle_not_emitted; eauto).
  exists (rev res). split; [exact Hrun|].
  split; [now rewrite <- in_rev|].
  split; [now apply NoDup_rev|].
  split; [intros y Hy; apply Hincl; now apply in_rev|].
  rewrite length_rev.
  assert (Hlen : (List.length (x :: res) <= List.length (keys t))%nat).
  { apply NoDup_incl_length; [now constructor|].
    intros y [<-|Hy]; [now apply on_cycle_key|now apply Hincl]. }
  unfold keys in Hlen. rewrite length_map in Hlen. simpl in Hlen. lia.
Qed.

Lemma topo_sort_cycle_truncated_witness :
  well_formed cycle_below_root /\ on_cycle cycle_below_root "K"
  /\ exists out,
       topo_sort cycle_below_root = Returns out
       /\ ~ In "K" out
       /\ NoDup out /\ incl out (keys cycle_below_root)
       /\ (List.length out < List.length cycle_below_root)%nat.
Proof.
  assert (WF : well_formed cycle_below_root)
    by (apply well_formedb_sound; vm_compute; reflexivity).
  assert (Hcyc : on_cycle cycle_below_root "K").
  { apply Relation_Operators.t1n_trans with (y := "L").
    - unfold parent_edge. simpl. auto.
    - apply Relation_Operators.t1n_step. unfold parent_edge. simpl. auto. }
  split; [exact WF|]. split; [exact Hcyc|].
  exact (topo_sort_cycle_truncated cycle_below_root "K" WF Hcyc).
Defined.

(** C1 fails as stated: on the table where [A]'s parent is [B] and [B]'s
    parent is [A] the sorter reports no error and returns the empty
    sequence. *)
Lemma cycle_not_reported :
  well_formed cycle_AB /\ contains_cycle cycle_AB
  /\ topo_sort cycle_AB = Returns []
  /\ ~ reports_error (topo_sort cycle_AB).
Proof.
  split; [apply well_formedb_sound; vm_compute; reflexivity|].
  split.
  { exists "A". apply Relation_Operators.t1n_trans with (y := "B").
    - unfold parent_edge. simpl. auto.
    - apply Relation_Operators.t1n_step. unfold parent_edge. simpl. auto. }
  split; [reflexivity|].
  intros [e He]. vm_compute in He. discriminate.
Qed.

(** C2, on the tables it holds for: a well-formed table that contains no
    cycle is sorted into a sequence of as many identifiers as it has nodes,
    without duplicates, which is a permutation of its keys. *)
Theorem topo_sort_permutation (t : NodeTable) :
  well_formed t -> acyclic t ->
  exists out,
    topo_sort t = Returns out
    /\ List.length out = List.length t
    /\ NoDup out
    /\ Permutation out (keys t).
Proof.
  intros WF Hac.
  destruct (topo_sort_construction t WF) as (res & Hrun & Hnd & Hincl & Hready & _).
  pose proof (acyclic_all_emitted t res WF Hac Hready) as Hall.
  assert (HP : Permutation (rev res) (keys t)).
  { rewrite <- Permutation_rev. apply NoDup_Permutation; [assumption|apply WF|].
    intros x. split; [apply Hincl|apply Hall]. }
  exists (rev res). split; [exact Hrun|]. split.
  - rewrite (Permutation_length HP). unfold keys. apply length_map.
  - split; [now apply NoDup_rev|exact HP].
Qed.

Lemma topo_sort_permutation_witness :
  well_formed diamond /\ acyclic diamond
  /\ exists out,
       topo_sort diamond = Returns out
       /\ List.length out = List.length diamond
       /\ NoDup out
       /\ Permutation out (keys diamond).
Proof.
  assert (WF : well_formed diamond)
    by (apply well_formedb_sound; vm_compute; reflexivity).
  assert (Hac : acyclic diamond)
    by (apply rankedb_acyclic with (order := ["O"; "P"; "Q"; "M"]);
        vm_compute; reflexivity).
  split; [exact WF|]. split; [exact Hac|].
  exact (topo_sort_permutation diamond WF Hac).
Defined.

(** C2 fails as stated: the two-node table in which each node is the
    other's parent is sorted into the empty sequence, which is no
    permutation of its two keys. *)
Lemma cycle_table_not_permuted :
  well_formed cycle_AB
  /\ topo_sort cycle_AB = Returns []
  /\ ~ (exists out, topo_sort cycle_AB = Returns out
                    /\ List.length out = List.length cycle_AB
                    /\ NoDup out
                    /\ Permutation out (keys cycle_AB)).
Proof.
  split; [apply well_formedb_sound; vm_compute; reflexivity|].
  split; [reflexivity|].
  intros (out & Hrun & Hlen & _). vm_compute in Hrun.
  inversion Hrun; subst. discriminate.
Qed.

(** C3: on a well-formed table without a cycle, for every edge from a child
    [C] to its parent [P], the parent occurs after the child in the returned
    sequence, in which no identifier occurs twice. *)
Theorem topo_sort_child_before_parent (t : NodeTable) (P C : string) :
  well_formed t -> acyclic t -> parent_edge t C P ->
  exists out,
    topo_sort t = Returns out
    /\ NoDup out
    /\ occurs_before C P out.
Proof.
  intros WF Hac Hedge.
  destruct (topo_sort_construction t WF) as (res & Hrun & Hnd & Hincl & Hready & Hord).
  pose proof (acyclic_all_emitted t res WF Hac Hready) as Hall.
  assert (HC : In C res) by (apply Hall; eapply parent_edge_key; eauto).
  apply in_split in HC. destruct HC as (l1 & l2 & E).
  assert (HP : In P l1) by (eapply Hord; eauto).
  apply in_split in HP. destruct HP as (la & lb & ->).
  exists (rev res). split; [exact Hrun|]. split; [now apply NoDup_rev|].
  exists (rev l2), (rev lb), (rev la). rewrite E.
  rewrite <- app_assoc. simpl.
  repeat (rewrite rev_app_distr; simpl). rewrite <- !app_assoc. simpl.
  reflexivity.
Qed.

Lemma topo_sort_child_before_parent_witness :
  well_formed diamond /\ acyclic diamond /\ parent_edge diamond "M" "P"
  /\ exists out,
       topo_sort diamond = Returns out /\ NoDup out /\ occurs_before "M" "P" out.
Proof.
  assert (WF : well_formed diamond)
    by (apply well_formedb_sound; vm_compute; reflexivity).
  assert (Hac : acyclic diamond)
    by (apply rankedb_acyclic with (order := ["O"; "P"; "Q"; "M"]);
        vm_compute; reflexivity).
  assert (He : parent_edge diamond "M" "P") by (unfold parent_edge; simpl; auto).
  split; [exact WF|]. split; [exact Hac|]. split; [exact He|].
  exact (topo_sort_child_before_parent diamond "P" "M" WF Hac He).
Defined.

(** ** Determinism *)

Lemma dict_ext_set {V : Type} (d1 d2 : dict V) k v :
  dict_ext d1 d2 -> dict_ext (dict_set k v d1) (dict_set k v d2).
Proof.
  intros H k'. destruct (string_dec k k') as [->|Hne].
  - now rewrite !dict_get_set_eq.
  - rewrite !dict_get_set_neq by assumption. apply H.
Qed.

Lemma process_children_ext : forall cs d1 d2 q,
  dict_ext d1 d2 ->
  children_agree (process_children cs d1 q) (process_children cs d2 q).
Proof.
  induction cs as [|c cs IH]; intros d1 d2 q H; simpl.
  - split; [exact H|reflexivity].
  - rewrite <- (H c). destruct (dict_get c d1) as [d|]; [|reflexivity].
    destruct (d - 1 =? 0)%Z; apply IH; now apply dict_ext_set.
Qed.

Lemma topo_loop_ext (t1 t2 : NodeTable) :
  same_children t1 t2 ->
  forall fuel st1 st2,
    dict_ext (st_in_degree st1) (st_in_degree st2) ->
    st_queue st1 = st_queue st2 ->
    st_result st1 = st_result st2 ->
    topo_loop fuel t1 st1 = topo_loop fuel t2 st2.
Proof.
  intros Ht. induction fuel as [|fuel IH]; intros st1 st2 Hd Hq Hr; simpl.
  - rewrite <- Hq, Hr. reflexivity.
  - rewrite <- Hq. destruct (st_queue st1) as [|current rest]; [now rewrite Hr|].
    unfold topo_step. specialize (Ht current).
    destruct (dict_get current t1) as [n1|], (dict_get current t2) as [n2|];
      try contradiction; [|reflexivity].
    rewrite <- Ht.
    pose proof (process_children_ext (sorted (children n1)) _ _ rest Hd) as Hc.
    unfold children_agree in Hc.
    destruct (process_children (sorted (children n1)) (st_in_degree st1) rest)
      as [[d1 q1]|e1|];
    destruct (process_children (sorted (children n1)) (st_in_degree st2) rest)
      as [[d2 q2]|e2|]; try contradiction; simpl.
    + destruct Hc as [Hd' ->]. apply IH; simpl; [assumption|reflexivity|].
      now rewrite Hr.
    + now subst.
    + reflexivity.
Qed.

Lemma same_content_sym t1 t2 : same_content t1 t2 -> same_content t2 t1.
Proof.
  intros (H1 & H2 & H). split; [assumption|]. split; [assumption|].
  intros k. specialize (H k).
  destruct (dict_get k t1), (dict_get k t2); try assumption.
  destruct H as (Hh & Hp & Hc). repeat split; now symmetry.
Qed.

Lemma same_content_zero_incl t1 t2 x :
  same_content t1 t2 ->
  In x (zero_degree (map degree_item t1)) ->
  In x (zero_degree (map degree_item t2)).
Proof.
  intros (H1 & H2 & H). rewrite !zero_degree_In. intros (n1 & Hin & Hp).
  apply (dict_get_In _ _ _ H1) in Hin. specialize (H x). rewrite Hin in H.
  destruct (dict_get x t2) as [n2|] eqn:E; [|contradiction].
  exists n2. split; [now apply dict_get_Some_In|].
  destruct H as (_ & Hperm & _). rewrite Hp in Hperm.
  now apply Permutation_nil in Hperm.
Qed.

Lemma same_content_keys t1 t2 x :
  same_content t1 t2 -> In x (keys t1) -> In x (keys t2).
Proof.
  intros (_ & _ & H) Hx. apply dict_get_key in Hx. destruct Hx as [n1 Hn1].
  specialize (H x). rewrite Hn1 in H.
  destruct (dict_get x t2) eqn:E; [|contradiction].
  eapply dict_get_Some_key; eauto.
Qed.

(** C4: two dicts that hold the same table, with the mapping and the sets
    inside iterated in any order, are sorted alike: same sequence, or same
    exception. *)
Theorem topo_sort_deterministic (t1 t2 : NodeTable) :
  same_content t1 t2 -> topo_sort t1 = topo_sort t2.
Proof.
  intros Hsame. pose proof (same_content_sym _ _ Hsame) as Hsame'.
  pose proof Hsame as (H1 & H2 & H).
  unfold topo_sort. f_equal.
  assert (Hlen : List.length t1 = List.length t2).
  { rewrite <- (length_map fst t1), <- (length_map fst t2).
    apply Permutation_length. apply NoDup_Permutation; try assumption.
    intros x. split; now apply same_content_keys. }
  rewrite Hlen. apply topo_loop_ext.
  - intros k. specialize (H k).
    destruct (dict_get k t1), (dict_get k t2); try assumption.
    apply sorted_perm_eq. apply H.
  - unfold topo_init. simpl. rewrite !in_degree_of_map by assumption.
    intros k. rewrite !dict_get_degree_items. specialize (H k).
    destruct (dict_get k t1), (dict_get k t2); try contradiction; [|reflexivity].
    simpl. destruct H as (_ & Hp & _). now rewrite (Permutation_length Hp).
  - unfold topo_init. simpl. rewrite !in_degree_of_map by assumption.
    apply sorted_perm_eq. apply NoDup_Permutation.
    + apply zero_degree_NoDup. now rewrite keys_degree_items.
    + apply zero_degree_NoDup. now rewrite keys_degree_items.
    + intros x. split; now apply same_content_zero_incl.
  - reflexivity.
Qed.

Lemma topo_sort_deterministic_witness :
  same_content diamond diamond_permuted
  /\ topo_sort diamond = topo_sort diamond_permuted.
Proof.
  assert (Hsame : same_content diamond diamond_permuted).
  { split; [apply nodupb_NoDup; reflexivity|].
    split; [apply nodupb_NoDup; reflexivity|].
    intros k. unfold diamond, diamond_permuted.
    destruct (String.eqb_spec "M" k) as [<-|HM];
      [cbn; unfold same_node; cbn; repeat split; auto using perm_swap, Permutation_refl|].
    destruct (String.eqb_spec "Q" k) as [<-|HQ];
      [cbn; unfold same_node; cbn; repeat split; auto using perm_swap, Permutation_refl|].
    destruct (String.eqb_spec "P" k) as [<-|HP];
      [cbn; unfold same_node; cbn; repeat split; auto using perm_swap, Permutation_refl|].
    destruct (String.eqb_spec "O" k) as [<-|HO];
      [cbn; unfold same_node; cbn; repeat split; auto using perm_swap, Permutation_refl|].
    fold diamond diamond_permuted.
    assert (E1 : dict_get k diamond = None)
      by (apply dict_get_None; simpl; intuition congruence).
    assert (E2 : dict_get k diamond_permuted = None)
      by (apply dict_get_None; simpl; intuition congruence).
    rewrite E1, E2. exact I. }
  split; [exact Hsame|].
  exact (topo_sort_deterministic diamond diamond_permuted Hsame).
Defined.

(** ** The tie-break *)

Lemma process_children_queue : forall cs deg q deg' q',
  process_children cs deg q = Returns (deg', q') ->
  incl q q' /\ (StronglySorted str_le q -> StronglySorted str_le q').
Proof.
  induction cs as [|c cs IH]; intros deg q deg' q' H; simpl in H.
  - inversion H; subst. split; [apply incl_refl|auto].
  - destruct (dict_get c deg) as [d|]; [|discriminate].
    destruct (d - 1 =? 0)%Z.
    + apply IH in H. destruct H as [Hincl Hsort]. split.
      * intros x Hx. apply Hincl, sorted_In, in_or_app. now left.
      * intros _. apply Hsort, sorted_sorted.
    + now apply IH in H.
Qed.

Lemma topo_step_queue t st current rest st' :
  topo_step t st current rest = Returns st' ->
  st_result st' = st_result st ++ [current]
  /\ incl rest (st_queue st')
  /\ (StronglySorted str_le rest -> StronglySorted str_le (st_queue st')).
Proof.
  unfold topo_step. destruct (dict_get current t) as [node|]; [|discriminate].
  destruct (process_children (sorted (children node)) (st_in_degree st) rest)
    as [[deg' q']|e|] eqn:E; simpl; try discriminate.
  intros [= <-]. simpl. apply process_children_queue in E. tauto.
Qed.

Lemma loop_head_sorted t st : loop_head t st -> StronglySorted str_le (st_queue st).
Proof.
  induction 1 as [|st current rest st' _ IH Hq Hstep].
  - apply sorted_sorted.
  - apply topo_step_queue in Hstep. apply Hstep.
    rewrite Hq in IH. now inversion IH.
Qed.

Lemma loop_head_run t res st :
  topo_loop (List.length t) t (topo_init t) = Returns res ->
  loop_head t st ->
  exists fuel, topo_loop fuel t st = Returns res.
Proof.
  intros Hrun. induction 1 as [|st current rest st' _ IH Hq Hstep].
  - eauto.
  - destruct IH as [fuel IH]. destruct fuel as [|fuel]; simpl in IH;
      rewrite Hq in IH; [discriminate|].
    rewrite Hstep in IH. simpl in IH. eauto.
Qed.

Lemma topo_loop_extends t : forall fuel st res,
  topo_loop fuel t st = Returns res -> exists s, res = st_result st ++ s.
Proof.
  induction fuel as [|fuel IH]; intros st res H; simpl in H;
    destruct (st_queue st) as [|current rest] eqn:Hq; try discriminate.
  - inversion H. exists []. now rewrite app_nil_r.
  - inversion H. exists []. now rewrite app_nil_r.
  - destruct (topo_step t st current rest) as [st'|e|] eqn:Hstep; try discriminate.
    simpl in H. apply IH in H. destruct H as [s ->].
    apply topo_step_queue in Hstep. destruct Hstep as [-> _].
    rewrite <- app_assoc. eauto.
Qed.

Lemma topo_loop_emits_queue t : forall fuel st res y,
  topo_loop fuel t st = Returns res -> In y (st_queue st) ->
  exists l1 l2, res = st_result st ++ l1 ++ y :: l2.
Proof.
  induction fuel as [|fuel IH]; intros st res y H Hy; simpl in H;
    destruct (st_queue st) as [|current rest] eqn:Hq; try discriminate;
    try (now destruct Hy).
  destruct (topo_step t st current rest) as [st'|e|] eqn:Hstep; try discriminate.
  simpl in H. pose proof (topo_step_queue _ _ _ _ _ Hstep) as (Hres & Hincl & _).
  destruct (string_dec current y) as [->|Hne].
  - apply topo_loop_extends in H. destruct H as [s ->]. rewrite Hres.
    exists [], s. now rewrite <- app_assoc.
  - destruct Hy as [Hy|Hy]; [contradiction|].
    destruct (IH st' res y H (Hincl _ Hy)) as (l1 & l2 & ->).
    rewrite Hres. exists (current :: l1), l2. now rewrite <- app_assoc.
Qed.

Lemma topo_loop_ascending t : forall fuel st res x y,
  topo_loop fuel t st = Returns res ->
  StronglySorted str_le (st_queue st) ->
  In x (st_queue st) -> In y (st_queue st) -> str_lt x y ->
  exists l1 l2 l3, res = st_result st ++ l1 ++ x :: l2 ++ y :: l3.
Proof.
  induction fuel as [|fuel IH]; intros st res x y H Hsort Hx Hy Hlt; simpl in H;
    destruct (st_queue st) as [|current rest] eqn:Hq; try discriminate;
    try (now destruct Hx).
  destruct (topo_step t st current rest) as [st'|e|] eqn:Hstep; try discriminate.
  simpl in H.
  pose proof (topo_step_queue _ _ _ _ _ Hstep) as (Hres & Hincl & Hsort').
  inversion Hsort as [|? ? Hrest Hmin]; subst.
  apply str_lt_le in Hlt. destruct Hlt as [Hle Hne].
  assert (Hyrest : In y rest).
  { destruct Hy as [<-|Hy]; [|assumption]. exfalso.
    destruct Hx as [Hx|Hx]; [congruence|].
    rewrite Forall_forall in Hmin. apply Hne.
    apply str_le_antisym; [assumption|now apply Hmin]. }
  destruct (string_dec current x) as [->|Hcx].
  - destruct (topo_loop_emits_queue t fuel st' res y H (Hincl _ Hyrest))
      as (l1 & l2 & ->).
    rewrite Hres. exists [], l1, l2. now rewrite <- app_assoc.
  - destruct Hx as [Hx|Hx]; [contradiction|].
    destruct (IH st' res x y H (Hsort' Hrest) (Hincl _ Hx) (Hincl _ Hyrest))
      as (l1 & l2 & l3 & ->).
    { apply str_lt_le. now split. }
    rewrite Hres. exists (current :: l1), l2, l3. now rewrite <- app_assoc.
Qed.

(** C5, with the order of the returned sequence as the code has it: at the
    head of every iteration the identifier removed next is the smallest of
    the ready collection and goes to the end of the construction order; so
    of two identifiers that are ready at the same time the smaller is
    emitted first, and in the returned sequence, which is the construction
    order reversed, the greater one comes first. *)
Theorem ready_smallest_first (t : NodeTable) (st : sort_state) :
  loop_head t st ->
  (forall current rest, st_queue st = current :: rest ->
     Forall (str_le current) rest
     /\ forall st', topo_step t st current rest = Returns st' ->
                    st_result st' = st_result st ++ [current])
  /\ (forall out x y,
        topo_sort t = Returns out ->
        In x (st_queue st) -> In y (st_queue st) -> str_lt x y ->
        occurs_before y x out).
Proof.
  intros Hhead. pose proof (loop_head_sorted t st Hhead) as Hsort. split.
  - intros current rest Hq. rewrite Hq in Hsort. split.
    + now inversion Hsort.
    + intros st' Hstep. now apply topo_step_queue in Hstep.
  - intros out x y Hrun Hx Hy Hlt. unfold topo_sort in Hrun.
    destruct (topo_loop (List.length t) t (topo_init t)) as [res|e|] eqn:E;
      try discriminate.
    simpl in Hrun. inversion Hrun; subst out.
    destruct (loop_head_run t res st E Hhead) as [fuel Hfuel].
    destruct (topo_loop_ascending t fuel st res x y Hfuel Hsort Hx Hy Hlt)
      as (l1 & l2 & l3 & ->).
    exists (rev l3), (rev l2), (rev (st_result st ++ l1)).
    rewrite app_assoc.
    repeat (rewrite rev_app_distr; simpl). rewrite <- !app_assoc. simpl.
    reflexivity.
Qed.

Lemma ready_smallest_first_witness :
  loop_head roots_AB (topo_init roots_AB)
  /\ (forall current rest, st_queue (topo_init roots_AB) = current :: rest ->
        Forall (str_le current) rest
        /\ forall st', topo_step roots_AB (topo_init roots_AB) current rest = Returns st' ->
                       st_result st' = st_result (topo_init roots_AB) ++ [current])
  /\ (forall out x y,
        topo_sort roots_AB = Returns out ->
        In x (st_queue (topo_init roots_AB)) ->
        In y (st_queue (topo_init roots_AB)) -> str_lt x y ->
        occurs_before y x out).
Proof.
  split; [apply head_init|].
  exact (ready_smallest_first roots_AB (topo_init roots_AB) (head_init roots_AB)).
Defined.

(** C5 fails as stated for the returned sequence: the roots [A] and [B] are
    ready together at the first iteration and [A] is the smaller, yet the
    sorter returns [B] before [A]. *)
Lemma ready_pair_returned_descending :
  loop_head roots_AB (topo_init roots_AB)
  /\ In "A" (st_queue (topo_init roots_AB))
  /\ In "B" (st_queue (topo_init roots_AB))
  /\ str_lt "A" "B"
  /\ topo_sort roots_AB = Returns ["B"; "A"]
  /\ ~ occurs_before "A" "B" ["B"; "A"].
Proof.
  split; [apply head_init|].
  split; [vm_compute; auto|]. split; [vm_compute; auto|].
  split; [reflexivity|]. split; [reflexivity|].
  intros (l1 & l2 & l3 & E).
  destruct l1 as [|? [|? l1]]; simpl in E; try discriminate.
  - inversion E as [[E1 E2]]. destruct l2; discriminate.
  - inversion E as [[E1 E2 E3]]. destruct l1; discriminate.
Qed.

(** ** The annotator *)

Lemma sticky_end_closing (n : CommitNode) : sticky_end n = closing_marker (parents n).
Proof.
  unfold sticky_end, closing_marker, join.
  destruct (parents n) as [|p ps]; reflexivity.
Qed.

Lemma sticky_start_opening (n : CommitNode) :
  sticky_start n = opening_marker (children n).
Proof.
  unfold sticky_start, opening_marker, join.
  destruct (sorted (children n)); reflexivity.
Qed.

Lemma print_loop_annotate (t : NodeTable) (names : dict (list string)) :
  forall ordered prev out,
    (forall h, In h ordered -> In h (keys t)) ->
    (forall p, prev = Some p -> In p (keys t)) ->
    print_loop t names ordered prev out
    = Returns (out ++ annotate t names prev ordered).
Proof.
  induction ordered as [|h rest IH]; intros prev out Hkeys Hprev; simpl.
  - now rewrite app_nil_r.
  - destruct (dict_get_key h t (Hkeys h (or_introl eq_refl))) as [node Hnode].
    assert (Hrest : forall h', In h' rest -> In h' (keys t))
      by (intros h' H'; apply Hkeys; now right).
    assert (Hnext : forall p, Some h = Some p -> In p (keys t))
      by (intros p [= <-]; apply Hkeys; now left).
    unfold print_sticky, children_of. rewrite Hnode.
    destruct prev as [p|]; simpl.
    + destruct (dict_get_key p t (Hprev p eq_refl)) as [pnode Hp].
      destruct (set_mem p (children node)); simpl.
      * rewrite IH by assumption. now rewrite <- app_assoc.
      * rewrite Hp. simpl. rewrite IH by assumption.
        unfold boundary_block, parents_of, children_of. rewrite Hp, Hnode.
        rewrite sticky_end_closing, sticky_start_opening.
        rewrite <- !app_assoc. reflexivity.
    + rewrite IH by assumption. now rewrite <- app_assoc.
Qed.

(** C8: on a sequence of keys of the table the annotator prints, before the
    line of each node, a boundary block exactly when there is a previous
    node and it is not among the children of the current one; the block is
    the closing marker with the sorted parents of the previous node, a blank
    line, and the opening marker with the sorted children of the current
    node, and a marker without identifiers is bare. *)
Theorem print_boundaries (t : NodeTable) (ordered : list string)
    (names : dict (list string)) :
  (forall h, In h ordered -> In h (keys t)) ->
  print_topo_ordered_commits t ordered names
  = Returns (annotate t names None ordered)
  /\ closing_marker [] = "=" /\ opening_marker [] = "=".
Proof.
  intros Hkeys. split; [|split; reflexivity].
  unfold print_topo_ordered_commits.
  rewrite print_loop_annotate; [reflexivity|assumption|discriminate].
Qed.

Lemma print_boundaries_witness :
  (forall h, In h ["A"; "B"; "C"; "D"] -> In h (keys two_components))
  /\ print_topo_ordered_commits two_components ["A"; "B"; "C"; "D"]
       [("A", ["main"]); ("C", ["topic"; "dev"])]
     = Returns ["A main"; "B"; "="; ""; "="; "C dev topic"; "D"].
Proof.
  assert (H : forall h, In h ["A"; "B"; "C"; "D"] -> In h (keys two_components))
    by (simpl; tauto).
  split; [exact H|].
  exact (eq_trans
           (proj1 (print_boundaries two_components ["A"; "B"; "C"; "D"]
                     [("A", ["main"]); ("C", ["topic"; "dev"])] H))
           eq_refl).
Defined.

(** ** Edge insertion *)

Lemma ensure_node_keys h g k :
  In k (keys (ensure_node h g)) <-> k = h \/ In k (keys g).
Proof.
  unfold ensure_node. destruct (dict_mem h g) eqn:E.
  - apply dict_mem_In in E. split; [tauto|]. intros [->|H]; assumption.
  - apply keys_set_In.
Qed.

Lemma ensure_node_NoDup h g : NoDup (keys g) -> NoDup (keys (ensure_node h g)).
Proof.
  unfold ensure_node. destruct (dict_mem h g); [auto|apply keys_set_NoDup].
Qed.

Lemma ensure_node_get h g x :
  dict_get x (ensure_node h g)
  = match dict_get x g with
    | Some n => Some n
    | None => if String.eqb h x then Some (new_CommitNode h) else None
    end.
Proof.
  unfold ensure_node, dict_mem. destruct (dict_get h g) as [n|] eqn:E.
  - destruct (dict_get x g) eqn:Ex; [reflexivity|].
    destruct (String.eqb_spec h x); [congruence|reflexivity].
  - destruct (String.eqb_spec h x) as [->|Hne].
    + now rewrite dict_get_set_eq, E.
    + rewrite dict_get_set_neq by assumption. now destruct (dict_get x g).
Qed.

Lemma ensure_node_parents h g x : parents_of (ensure_node h g) x = parents_of g x.
Proof.
  unfold parents_of. rewrite ensure_node_get.
  destruct (dict_get x g); [reflexivity|]. now destruct (String.eqb h x).
Qed.

Lemma ensure_node_children h g x :
  children_of (ensure_node h g) x = children_of g x.
Proof.
  unfold children_of. rewrite ensure_node_get.
  destruct (dict_get x g); [reflexivity|]. now destruct (String.eqb h x).
Qed.

Lemma add_parent_spec h p g :
  In h (keys g) ->
  exists g',
    add_parent h p g = Returns g'
    /\ keys g' = keys g
    /\ (forall x, parents_of g' x
                  = if String.eqb x h then set_add p (parents_of g h)
                    else parents_of g x)
    /\ (forall x, children_of g' x = children_of g x).
Proof.
  intros Hh. destruct (dict_get_key h g Hh) as [n Hn].
  unfold add_parent. rewrite Hn. eexists. split; [reflexivity|].
  split; [now apply keys_set_in|]. split; intros x.
  - unfold parents_of. destruct (String.eqb_spec x h) as [->|Hne].
    + now rewrite dict_get_set_eq, Hn.
    + rewrite dict_get_set_neq by congruence. reflexivity.
  - unfold children_of. destruct (String.eqb_spec x h) as [->|Hne].
    + now rewrite dict_get_set_eq, Hn.
    + rewrite dict_get_set_neq by congruence. reflexivity.
Qed.

Lemma add_child_spec p h g :
  In p (keys g) ->
  exists g',
    add_child p h g = Returns g'
    /\ keys g' = keys g
    /\ (forall x, parents_of g' x = parents_of g x)
    /\ (forall x, children_of g' x
                  = if String.eqb x p then set_add h (children_of g p)
                    else children_of g x).
Proof.
  intros Hp. destruct (dict_get_key p g Hp) as [n Hn].
  unfold add_child. rewrite Hn. eexists. split; [reflexivity|].
  split; [now apply keys_set_in|]. split; intros x.
  - unfold parents_of. destruct (String.eqb_spec x p) as [->|Hne].
    + now rewrite dict_get_set_eq, Hn.
    + rewrite dict_get_set_neq by congruence. reflexivity.
  - unfold children_of. destruct (String.eqb_spec x p) as [->|Hne].
    + now rewrite dict_get_set_eq, Hn.
    + rewrite dict_get_set_neq by congruence. reflexivity.
Qed.

Lemma add_edge_spec h p g :
  In h (keys (ensure_node p g)) ->
  exists g',
    add_edge h p g = Returns g'
    /\ keys g' = keys (ensure_node p g)
    /\ (forall x, parents_of g' x
                  = if String.eqb x h then set_add p (parents_of g h)
                    else parents_of g x)
    /\ (forall x, children_of g' x
                  = if String.eqb x p then set_add h (children_of g p)
                    else children_of g x).
Proof.
  intros Hh. unfold add_edge.
  destruct (add_parent_spec h p (ensure_node p g) Hh) as (g1 & H1 & K1 & P1 & C1).
  rewrite H1. simpl.
  destruct (add_child_spec p h g1) as (g2 & H2 & K2 & P2 & C2).
  { rewrite K1. apply ensure_node_keys. now left. }
  exists g2. split; [exact H2|]. split; [congruence|]. split; intros x.
  - rewrite P2, P1, !ensure_node_parents. reflexivity.
  - rewrite C2, !C1, !ensure_node_children. reflexivity.
Qed.

Lemma add_edge_returns h p g g' :
  add_edge h p g = Returns g' -> In h (keys (ensure_node p g)).
Proof.
  unfold add_edge, add_parent.
  destruct (dict_get h (ensure_node p g)) eqn:E; [|discriminate].
  intros _. eapply dict_get_Some_key; eauto.
Qed.

Lemma add_edge_both h p g g' :
  add_edge h p g = Returns g' ->
  In p (parents_of g' h) /\ In h (children_of g' p).
Proof.
  intros H. pose proof (add_edge_returns _ _ _ _ H) as Hh.
  destruct (add_edge_spec h p g Hh) as (g2 & H2 & _ & P & C).
  rewrite H in H2. inversion H2; subst g2.
  rewrite P, C, !String.eqb_refl. split; apply set_add_In; now left.
Qed.

Lemma add_edge_symmetric h p g g' :
  add_edge h p g = Returns g' ->
  (forall a b, In b (parents_of g a) <-> In a (children_of g b)) ->
  forall a b, In b (parents_of g' a) <-> In a (children_of g' b).
Proof.
  intros H Hsym a b. pose proof (add_edge_returns _ _ _ _ H) as Hh.
  destruct (add_edge_spec h p g Hh) as (g2 & H2 & _ & P & C).
  rewrite H in H2. inversion H2; subst g2.
  rewrite P, C.
  destruct (String.eqb_spec a h) as [->|Ha], (String.eqb_spec b p) as [->|Hb];
    rewrite ?set_add_In, ?Hsym; intuition congruence.
Qed.

(** ** Scanning a record *)

Lemma startswith_nonempty line : startswith line "parent" = true -> line <> "".
Proof. intros H ->. discriminate. Qed.

Lemma declared_nil id : ~ declared [] id.
Proof. intros (line & [] & _). Qed.

Lemma declared_blank rest id : ~ declared ("" :: rest) id.
Proof. intros (line & [] & _). Qed.

Lemma declared_cons line rest id :
  line <> "" ->
  (declared (line :: rest) id <-> declares line id \/ declared rest id).
Proof.
  intros Hne. unfold declared. simpl.
  destruct (String.eqb_spec line ""); [contradiction|]. split.
  - intros (l & [<-|Hl] & Hd); [now left|right; eauto].
  - intros [Hd|(l & Hl & Hd)]; [exists line|exists l]; simpl; auto.
Qed.

Lemma scan_lines_spec (h : string) : forall lines g stack g' stack',
  In h (keys g) ->
  scan_lines h lines g stack = Returns (g', stack') ->
  (NoDup (keys g) -> NoDup (keys g'))
  /\ ((forall x, NoDup (parents_of g x)) -> forall x, NoDup (parents_of g' x))
  /\ ((forall x, NoDup (children_of g x)) -> forall x, NoDup (children_of g' x))
  /\ ((forall a b, In b (parents_of g a) <-> In a (children_of g b)) ->
      forall a b, In b (parents_of g' a) <-> In a (children_of g' b))
  /\ incl (keys g) (keys g')
  /\ (forall k, In k (keys g') -> In k (keys g) \/ In k stack')
  /\ incl stack stack'
  /\ (forall x, x <> h -> parents_of g' x = parents_of g x)
  /\ (forall p, In p (parents_of g' h) <-> In p (parents_of g h) \/ declared lines p)
  /\ (List.length stack' <= List.length stack + List.length lines)%nat.
Proof.
  induction lines as [|line rest IH]; intros g stack g' stack' Hh Hrun;
    cbn [scan_lines] in Hrun.
  - inversion Hrun; subst.
    split; [auto|split; [auto|split; [auto|split; [auto|split; [apply incl_refl|
      split; [auto|split; [apply incl_refl|split; [auto|split; [|simpl; lia]]]]]]]]].
    intros p. split; [auto|].
    intros [H|H]; [assumption|now apply declared_nil in H].
  - destruct (startswith line "parent") eqn:Hstart.
    + destruct (nth_error (split line) 1) as [p0|] eqn:Hsplit; [|discriminate].
      destruct (add_edge h p0 g) as [g1| |] eqn:Hedge; try discriminate.
      simpl in Hrun.
      pose proof (add_edge_returns _ _ _ _ Hedge) as Hh1.
      destruct (add_edge_spec h p0 g Hh1) as (g2 & H2 & K & P & C).
      rewrite Hedge in H2. inversion H2; subst g2. clear H2.
      assert (Hkeys1 : forall k, In k (keys g1) <-> k = p0 \/ In k (keys g))
        by (intros k; rewrite K; apply ensure_node_keys).
      assert (Hh' : In h (keys g1)) by (apply Hkeys1; now right).
      destruct (IH g1 (p0 :: stack) g' stack' Hh' Hrun)
        as (I1 & I2 & I3 & I4 & I5 & I6 & I7 & I8 & I9 & I10).
      split; [intros H; apply I1; rewrite K; now apply ensure_node_NoDup|].
      split.
      { intros H. apply I2. intros x. rewrite P.
        destruct (String.eqb x h); [apply set_add_NoDup|]; apply H. }
      split.
      { intros H. apply I3. intros x. rewrite C.
        destruct (String.eqb x p0); [apply set_add_NoDup|]; apply H. }
      split; [intros H; apply I4; eapply add_edge_symmetric; eauto|].
      split; [intros k Hk; apply I5, Hkeys1; now right|].
      split.
      { intros k Hk. apply I6 in Hk. destruct Hk as [Hk|Hk]; [|now right].
        apply Hkeys1 in Hk. destruct Hk as [->|Hk]; [|now left].
        right. apply I7. now left. }
      split; [intros k Hk; apply I7; now right|].
      split.
      { intros x Hx. rewrite (I8 x Hx), P.
        destruct (String.eqb_spec x h); [contradiction|reflexivity]. }
      split.
      { intros p. rewrite I9, P, String.eqb_refl, set_add_In.
        rewrite declared_cons by now apply startswith_nonempty.
        unfold declares. rewrite Hstart, Hsplit.
        split; intros H; intuition congruence. }
      simpl in I10. simpl. lia.
    + destruct (String.eqb_spec line "") as [->|Hne].
      * inversion Hrun; subst.
        split; [auto|split; [auto|split; [auto|split; [auto|split; [apply incl_refl|
      split; [auto|split; [apply incl_refl|split; [auto|split; [|simpl; lia]]]]]]]]].
        intros p. split; [auto|].
        intros [H|H]; [assumption|now apply declared_blank in H].
      * destruct (IH g stack g' stack' Hh Hrun)
          as (I1 & I2 & I3 & I4 & I5 & I6 & I7 & I8 & I9 & I10).
        split; [auto|split; [auto|split; [auto|split; [auto|split; [auto|
          split; [auto|split; [auto|split; [auto|split; [|simpl; lia]]]]]]]]].
        intros p. rewrite I9, declared_cons by assumption.
        unfold declares. rewrite Hstart. intuition discriminate.
Qed.

(** ** The traversal *)

Lemma build_init_inv git_dir stack : build_inv git_dir (mkBuildState [] stack []).
Proof.
  constructor; simpl.
  - constructor.
  - intros x. constructor.
  - intros x. constructor.
  - intros a b. unfold parents_of, children_of. simpl. tauto.
  - intros x [].
  - intros x [].
  - reflexivity.
Qed.

Lemma skip_inv git_dir st h rest :
  build_inv git_dir st -> bs_stack st = h :: rest -> In h (bs_visited st) ->
  build_inv git_dir (mkBuildState (bs_graph st) rest (bs_visited st)).
Proof.
  intros [B1 B2 B3 B4 B5 B6 B7] Hs Hv. constructor; simpl; auto.
  intros x Hx. destruct (B5 x Hx) as [H|H]; [now left|].
  rewrite Hs in H. destruct H as [<-|H]; [now left|now right].
Qed.

Lemma visit_inv git_dir st h rest st' :
  build_inv git_dir st -> bs_stack st = h :: rest -> ~ In h (bs_visited st) ->
  visit git_dir st h rest = Returns st' ->
  build_inv git_dir st'
  /\ exists lines,
       decompress_git_object git_dir h = Returns lines
       /\ (List.length (bs_stack st') <= List.length rest + List.length lines)%nat
       /\ bs_visited st' = set_add h (bs_visited st).
Proof.
  intros [B1 B2 B3 B4 B5 B6 B7] Hs Hv. unfold visit.
  destruct (decompress_git_object git_dir h) as [lines|e|] eqn:Hread;
    simpl; try discriminate.
  destruct (scan_lines h lines (ensure_node h (bs_graph st)) rest)
    as [[g' stack']|e|] eqn:Hscan; simpl; try discriminate.
  intros [= <-].
  destruct (scan_lines_spec h lines _ _ _ _
              (proj2 (ensure_node_keys h (bs_graph st) h) (or_introl eq_refl)) Hscan)
    as (I1 & I2 & I3 & I4 & I5 & I6 & I7 & I8 & I9 & I10).
  split; [|exists lines; simpl; auto].
  constructor; simpl.
  - apply I1. now apply ensure_node_NoDup.
  - apply I2. intros x. rewrite ensure_node_parents. apply B2.
  - apply I3. intros x. rewrite ensure_node_children. apply B3.
  - apply I4. intros a b. rewrite ensure_node_parents, ensure_node_children. apply B4.
  - intros x Hx. rewrite set_add_In. apply I6 in Hx.
    destruct Hx as [Hx|Hx]; [|now right].
    apply ensure_node_keys in Hx. destruct Hx as [->|Hx]; [now left; left|].
    destruct (B5 x Hx) as [H|H]; [now left; right|].
    rewrite Hs in H. destruct H as [<-|H]; [now left; left|right; now apply I7].
  - intros x Hx. apply set_add_In in Hx.
    destruct (string_dec x h) as [->|Hne].
    + split; [apply I5, ensure_node_keys; now left|].
      exists lines. split; [assumption|]. intros p. rewrite I9.
      rewrite ensure_node_parents, (B7 h Hv). simpl. tauto.
    + destruct Hx as [Hx|Hx]; [contradiction|].
      destruct (B6 x Hx) as (Hk & lx & Hlx & Hpx).
      split; [apply I5, ensure_node_keys; now right|].
      exists lx. split; [assumption|]. intros p.
      rewrite (I8 x Hne), ensure_node_parents. apply Hpx.
  - intros x Hx. rewrite set_add_In in Hx.
    assert (x <> h) by tauto.
    rewrite (I8 x) by assumption. rewrite ensure_node_parents. apply B7. tauto.
Qed.

Lemma build_loop_inv git_dir : forall fuel st g,
  build_inv git_dir st ->
  build_loop fuel git_dir st = Returns g ->
  exists st', build_inv git_dir st' /\ bs_stack st' = [] /\ bs_graph st' = g.
Proof.
  induction fuel as [|fuel IH]; intros st g Hinv Hrun; simpl in Hrun;
    destruct (bs_stack st) as [|h rest] eqn:Hs; try discriminate.
  - inversion Hrun; subst. eauto.
  - inversion Hrun; subst. eauto.
  - destruct (set_mem h (bs_visited st)) eqn:Hv.
    + apply set_mem_In in Hv. eapply IH; [|exact Hrun].
      eapply skip_inv; eauto.
    + apply set_mem_false in Hv.
      destruct (visit git_dir st h rest) as [st1|e|] eqn:Hvisit; try discriminate.
      simpl in Hrun. eapply IH; [|exact Hrun].
      eapply visit_inv; eauto.
Qed.

(** The table the builder returns: every key has been visited, its record
    was read, and its parents are the identifiers its header declares. *)
Lemma build_commit_graph_inv git_dir branches g :
  build_commit_graph git_dir branches = Returns g ->
  NoDup (keys g)
  /\ (forall x, NoDup (parents_of g x))
  /\ (forall x, NoDup (children_of g x))
  /\ (forall a b, In b (parents_of g a) <-> In a (children_of g b))
  /\ (forall x, In x (keys g) ->
        exists lines,
          decompress_git_object git_dir x = Returns lines
          /\ forall p, In p (parents_of g x) <-> declared lines p).
Proof.
  unfold build_commit_graph. intros Hrun.
  apply build_loop_inv in Hrun; [|apply build_init_inv].
  destruct Hrun as (st & [B1 B2 B3 B4 B5 B6 B7] & Hs & <-).
  repeat (split; [assumption|]).
  intros x Hx. destruct (B5 x Hx) as [H|H]; [|rewrite Hs in H; destruct H].
  now apply B6.
Qed.

Lemma symmetric_closed g :
  (forall a b, In b (parents_of g a) <-> In a (children_of g b)) ->
  forall x y, In y (parents_of g x) \/ In y (children_of g x) -> In y (keys g).
Proof.
  intros Hsym x y [H|H].
  - apply Hsym in H. unfold children_of in H.
    destruct (dict_get y g) eqn:E; [|destruct H]. eapply dict_get_Some_key; eauto.
  - apply Hsym in H. unfold parents_of in H.
    destruct (dict_get y g) eqn:E; [|destruct H]. eapply dict_get_Some_key; eauto.
Qed.

Lemma build_commit_graph_well_formed git_dir branches g :
  build_commit_graph git_dir branches = Returns g -> well_formed g.
Proof.
  intros H. apply build_commit_graph_inv in H.
  destruct H as (B1 & B2 & B3 & B4 & _).
  constructor; auto. now apply symmetric_closed.
Qed.

(** ** Termination of the traversal *)

Lemma set_mem_add_other k h visited :
  k <> h -> set_mem k (set_add h visited) = set_mem k visited.
Proof.
  intros Hne. destruct (set_mem k visited) eqn:E.
  - apply set_mem_In, set_add_In. right. now apply set_mem_In.
  - apply set_mem_false. rewrite set_add_In. apply set_mem_false in E. tauto.
Qed.

Lemma pending_mono git_dir h visited :
  (pending git_dir (set_add h visited) <= pending git_dir visited)%nat.
Proof.
  unfold pending. induction git_dir as [|[k f] d IH]; simpl; [lia|].
  destruct (string_dec k h) as [->|Hne].
  - replace (set_mem h (set_add h visited)) with true
      by (symmetry; apply set_mem_In, set_add_In; now left).
    destruct (set_mem h visited); lia.
  - rewrite set_mem_add_other by assumption. lia.
Qed.

Lemma pending_visit git_dir h visited f :
  dict_get h git_dir = Some f -> ~ In h visited ->
  (pending git_dir (set_add h visited) + object_lines f
   <= pending git_dir visited)%nat.
Proof.
  intros Hget Hv. induction git_dir as [|[k f'] d IH]; simpl in *; [discriminate|].
  destruct (String.eqb_spec k h) as [->|Hne].
  - inversion Hget; subst f'. unfold pending. simpl.
    replace (set_mem h (set_add h visited)) with true
      by (symmetry; apply set_mem_In, set_add_In; now left).
    apply set_mem_false in Hv. rewrite Hv.
    pose proof (pending_mono d h visited) as Hm. unfold pending in Hm. lia.
  - specialize (IH Hget). unfold pending in *. simpl.
    rewrite set_mem_add_other by assumption. lia.
Qed.

Lemma read_lines_bound git_dir h lines :
  decompress_git_object git_dir h = Returns lines ->
  (List.length lines
   <= match dict_get h git_dir with Some f => object_lines f | None => 0 end)%nat.
Proof.
  unfold decompress_git_object.
  destruct (dict_get h git_dir) as [[|text]|]; intros H; inversion H; simpl; lia.
Qed.

Lemma add_edge_no_fuel h p g : add_edge h p g <> OutOfFuel.
Proof.
  unfold add_edge, add_parent.
  destruct (dict_get h (ensure_node p g)); simpl; [|discriminate].
  unfold add_child. now destruct (dict_get p _).
Qed.

Lemma scan_lines_no_fuel h : forall lines g stack,
  scan_lines h lines g stack <> OutOfFuel.
Proof.
  induction lines as [|line rest IH]; intros g stack; cbn [scan_lines];
    [discriminate|].
  destruct (startswith line "parent").
  - destruct (nth_error (split line) 1) as [p|]; [|discriminate].
    destruct (add_edge h p g) eqn:E; simpl; [apply IH|discriminate|].
    now apply add_edge_no_fuel in E.
  - destruct (String.eqb line ""); [discriminate|apply IH].
Qed.

Lemma build_loop_terminates git_dir : forall fuel st,
  (List.length (bs_stack st) + pending git_dir (bs_visited st) <= fuel)%nat ->
  build_loop fuel git_dir st <> OutOfFuel.
Proof.
  induction fuel as [|fuel IH]; intros st Hfuel; simpl;
    destruct (bs_stack st) as [|h rest] eqn:Hs; try discriminate.
  - simpl in Hfuel. lia.
  - simpl in Hfuel. destruct (set_mem h (bs_visited st)) eqn:Hv.
    + apply IH. simpl. lia.
    + apply set_mem_false in Hv. unfold visit.
      destruct (decompress_git_object git_dir h) as [lines|e|] eqn:Hread;
        simpl; try discriminate.
      * destruct (scan_lines h lines (ensure_node h (bs_graph st)) rest)
          as [[g' stack']|e|] eqn:Hscan; simpl; try discriminate.
        -- apply IH. simpl.
           destruct (scan_lines_spec h lines _ _ _ _
              (proj2 (ensure_node_keys h (bs_graph st) h) (or_introl eq_refl)) Hscan)
             as (_ & _ & _ & _ & _ & _ & _ & _ & _ & Hlen).
           pose proof (read_lines_bound _ _ _ Hread) as Hb.
           destruct (dict_get h git_dir) as [f|] eqn:Hget.
           ++ pose proof (pending_visit git_dir h _ f Hget Hv). lia.
           ++ pose proof (pending_mono git_dir h (bs_visited st)). lia.
        -- now apply scan_lines_no_fuel in Hscan.
      * unfold decompress_git_object in Hread.
        destruct (dict_get h git_dir) as [[|text]|]; discriminate.
Qed.

(** The fuel given to the traversal is never used up: on every store and
    every list of branches the builder returns a table or raises. *)
Lemma build_commit_graph_terminates git_dir branches :
  build_commit_graph git_dir branches <> OutOfFuel.
Proof.
  unfold build_commit_graph. apply build_loop_terminates. simpl.
  unfold build_fuel, pending. simpl. lia.
Qed.

(** ** Lines that begin with the token [parent] *)

Lemma split_skip ws s : all_space ws -> split (ws ++ s)%string = split s.
Proof.
  unfold all_space. induction ws as [|c ws IH]; simpl; [reflexivity|].
  intros H. apply andb_true_iff in H. destruct H as [Hc Hws].
  rewrite Hc. now apply IH.
Qed.

Lemma split_word : forall w rest,
  w <> "" -> no_space w -> field_end rest ->
  split (w ++ rest)%string = w :: split rest.
Proof.
  unfold no_space. induction w as [|c w IH]; intros rest Hne Hw Hrest;
    [contradiction|].
  simpl in Hw. apply andb_true_iff in Hw. destruct Hw as [Hc Hw].
  apply negb_true_iff in Hc.
  destruct w as [|c2 w].
  - simpl. rewrite Hc. destruct rest as [|c' r]; [reflexivity|].
    simpl in Hrest. now rewrite Hrest.
  - assert (Hc2 : isspace c2 = false).
    { simpl in Hw. apply andb_true_iff in Hw. now apply negb_true_iff. }
    specialize (IH rest ltac:(discriminate) Hw Hrest).
    change (String c (String c2 w) ++ rest)%string
      with (String c (String c2 w ++ rest))%string.
    change (String c2 w ++ rest)%string with (String c2 (w ++ rest))%string in *.
    cbn [split]. rewrite Hc, Hc2. cbn [split] in IH. rewrite Hc2 in IH.
    rewrite IH. reflexivity.
Qed.

Lemma prefix_nil s : String.prefix "" s = true.
Proof. now destruct s. Qed.

Lemma parent_token_declares line id : parent_token_line line id -> declares line id.
Proof.
  intros (ws & rest & -> & Hws & Hsp & Hid & Hns & Hend). split.
  - unfold startswith. simpl. apply prefix_nil.
  - rewrite split_word.
    + simpl. rewrite split_skip by assumption.
      rewrite split_word by assumption. reflexivity.
    + discriminate.
    + reflexivity.
    + destruct ws as [|c ws]; [contradiction|]. simpl.
      unfold all_space in Hsp. simpl in Hsp. now apply andb_true_iff in Hsp.
Qed.

Lemma header_split lines :
  exists tail,
    lines = header lines ++ tail
    /\ ~ In "" (header lines)
    /\ (tail = [] \/ hd_error tail = Some "").
Proof.
  induction lines as [|line rest (tail & E & Hno & Htail)]; simpl.
  - exists []. auto.
  - destruct (String.eqb_spec line "") as [->|Hne].
    + exists ("" :: rest). simpl. auto.
    + exists tail. simpl. split; [now f_equal|]. split; [|assumption].
      intros [H|H]; [congruence|contradiction].
Qed.

(** ** What the Graph Builder returns *)

(** C6, with the test the code makes: in the table the builder returns, the
    parents of a node are the second fields of the lines of its record that
    start with the characters [parent] and stand before the first blank
    line; every line there that begins with the token [parent], whitespace
    and an identifier is such a line; the lines from the first blank line on
    declare nothing. *)
Theorem build_edges_from_header (git_dir : GitDir)
    (branches : list (string * string)) (g : NodeTable) (h : string) :
  build_commit_graph git_dir branches = Returns g -> In h (keys g) ->
  exists lines,
    decompress_git_object git_dir h = Returns lines
    /\ (forall id,
          In id (parents_of g h)
          <-> exists line,
                In line (header lines)
                /\ startswith line "parent" = true
                /\ nth_error (split line) 1 = Some id)
    /\ (forall line id,
          In line (header lines) -> parent_token_line line id ->
          In id (parents_of g h))
    /\ (exists tail,
          lines = header lines ++ tail
          /\ ~ In "" (header lines)
          /\ (tail = [] \/ hd_error tail = Some "")).
Proof.
  intros Hrun Hh. apply build_commit_graph_inv in Hrun.
  destruct Hrun as (_ & _ & _ & _ & Hvis).
  destruct (Hvis h Hh) as (lines & Hread & Hpar).
  exists lines. split; [assumption|]. split; [|split].
  - intros id. rewrite Hpar. unfold declared, declares. reflexivity.
  - intros line id Hline Htok. apply Hpar. exists line.
    split; [assumption|now apply parent_token_declares].
  - apply header_split.
Qed.

Lemma build_edges_from_header_witness :
  exists g,
    build_commit_graph store_ABCD [("main", "A")] = Returns g
    /\ In "A" (keys g)
    /\ exists lines,
         decompress_git_object store_ABCD "A" = Returns lines
         /\ (forall id,
               In id (parents_of g "A")
               <-> exists line,
                     In line (header lines)
                     /\ startswith line "parent" = true
                     /\ nth_error (split line) 1 = Some id)
         /\ (forall line id,
               In line (header lines) -> parent_token_line line id ->
               In id (parents_of g "A"))
         /\ (exists tail,
               lines = header lines ++ tail
               /\ ~ In "" (header lines)
               /\ (tail = [] \/ hd_error tail = Some "")).
Proof.
  eexists. split; [vm_compute; reflexivity|].
  split; [vm_compute; auto|].
  apply (build_edges_from_header store_ABCD [("main", "A")]).
  - vm_compute. reflexivity.
  - vm_compute. auto.
Defined.

(** C6 fails as stated: the only line of the record of [H] starts with
    [parentx], which is not the token [parent] followed by whitespace, and
    the builder takes [abc] for a parent of [H] all the same. *)
Lemma parent_prefix_declares_edge :
  exists g,
    build_commit_graph store_parentx [("main", "H")] = Returns g
    /\ In "abc" (parents_of g "H")
    /\ decompress_git_object store_parentx "H" = Returns ["parentx abc"; ""]
    /\ forall line id, In line ["parentx abc"; ""] -> ~ parent_token_line line id.
Proof.
  eexists. split; [vm_compute; reflexivity|].
  split; [vm_compute; auto|]. split; [reflexivity|].
  intros line id Hline (ws & rest & E & Hws & Hsp & _).
  destruct Hline as [<-|[<-|[]]]; [|discriminate].
  destruct ws as [|c ws]; [contradiction|].
  simpl in E. inversion E; subst c. vm_compute in Hsp. discriminate.
Qed.

(** C7, for the object the code guards against: the read of a hash without
    a stored object returns no line; the visit of such a hash creates its
    node, marks it visited and goes on with the rest of the stack; and in
    the table the builder returns the node has no parent. *)
Theorem missing_object_is_leaf (git_dir : GitDir) (h : string) :
  dict_get h git_dir = None ->
  decompress_git_object git_dir h = Returns []
  /\ (forall st rest,
        visit git_dir st h rest
        = Returns (mkBuildState (ensure_node h (bs_graph st)) rest
                     (set_add h (bs_visited st))))
  /\ (forall branches g n,
        build_commit_graph git_dir branches = Returns g ->
        dict_get h g = Some n -> parents n = []).
Proof.
  intros Hmiss.
  assert (Hread : decompress_git_object git_dir h = Returns [])
    by (unfold decompress_git_object; now rewrite Hmiss).
  split; [exact Hread|]. split.
  - intros st rest. unfold visit. rewrite Hread. reflexivity.
  - intros branches g n Hrun Hn. apply build_commit_graph_inv in Hrun.
    destruct Hrun as (_ & _ & _ & _ & Hvis).
    destruct (Hvis h (dict_get_Some_key _ _ _ Hn)) as (lines & Hl & Hpar).
    rewrite Hread in Hl. inversion Hl; subst lines.
    unfold parents_of in Hpar. rewrite Hn in Hpar.
    destruct (parents n) as [|p ps]; [reflexivity|].
    exfalso. apply (declared_nil p). apply Hpar. now left.
Qed.

Lemma missing_object_is_leaf_witness :
  dict_get "C" store_ABCD = None
  /\ decompress_git_object store_ABCD "C" = Returns []
  /\ (forall st rest,
        visit store_ABCD st "C" rest
        = Returns (mkBuildState (ensure_node "C" (bs_graph st)) rest
                     (set_add "C" (bs_visited st))))
  /\ (forall branches g n,
        build_commit_graph store_ABCD branches = Returns g ->
        dict_get "C" g = Some n -> parents n = []).
Proof.
  split; [reflexivity|].
  exact (missing_object_is_leaf store_ABCD "C" eq_refl).
Defined.

(** C7 fails as stated for an object that is stored and cannot be read: the
    read raises, and so does the builder that visits it. *)
Lemma unreadable_object_raises :
  decompress_git_object store_corrupt "G" = Raises ReadError
  /\ decompress_git_object store_corrupt "G" <> Returns []
  /\ build_commit_graph store_corrupt [("main", "G")] = Raises ReadError.
Proof.
  split; [reflexivity|]. split; [discriminate|reflexivity].
Qed.

(** C9: in the table the builder returns, [B] is among the parents of [A]
    exactly when [A] is among the children of [B]; and the insertion of an
    edge puts both in place. *)
Theorem build_parents_children_mirror (git_dir : GitDir)
    (branches : list (string * string)) (g : NodeTable) :
  build_commit_graph git_dir branches = Returns g ->
  (forall A B nA nB,
     dict_get A g = Some nA -> dict_get B g = Some nB ->
     (In B (parents nA) <-> In A (children nB)))
  /\ (forall h p g0 g1,
        add_edge h p g0 = Returns g1 ->
        In p (parents_of g1 h) /\ In h (children_of g1 p)).
Proof.
  intros Hrun. split.
  - apply build_commit_graph_inv in Hrun. destruct Hrun as (_ & _ & _ & Hsym & _).
    intros A B nA nB HA HB. specialize (Hsym A B).
    unfold parents_of, children_of in Hsym. now rewrite HA, HB in Hsym.
  - intros h p g0 g1. apply add_edge_both.
Qed.

Lemma build_parents_children_mirror_witness :
  exists g,
    build_commit_graph store_ABCD [("main", "A"); ("dev", "B")] = Returns g
    /\ (forall A B nA nB,
          dict_get A g = Some nA -> dict_get B g = Some nB ->
          (In B (parents nA) <-> In A (children nB)))
    /\ (forall h p g0 g1,
          add_edge h p g0 = Returns g1 ->
          In p (parents_of g1 h) /\ In h (children_of g1 p)).
Proof.
  eexists. split; [vm_compute; reflexivity|].
  apply (build_parents_children_mirror store_ABCD [("main", "A"); ("dev", "B")]).
  vm_compute. reflexivity.
Defined.

(** C10: the table the builder returns is closed, every identifier in a
    parents or children set being a key; so the sorter returns a sequence
    on it, and the annotator prints that sequence, neither missing a
    lookup. *)
Theorem build_table_closed (git_dir : GitDir)
    (branches : list (string * string)) (g : NodeTable) :
  build_commit_graph git_dir branches = Returns g ->
  (forall x n y,
     dict_get x g = Some n -> In y (parents n) \/ In y (children n) ->
     exists ny, dict_get y g = Some ny)
  /\ (exists out,
        topo_sort g = Returns out
        /\ forall names,
             exists printed,
               print_topo_ordered_commits g out names = Returns printed).
Proof.
  intros Hrun. pose proof (build_commit_graph_well_formed _ _ _ Hrun) as WF.
  split.
  - intros x n y Hx Hy. apply dict_get_key. apply (wf_closed WF x).
    unfold parents_of, children_of. now rewrite Hx.
  - destruct (topo_sort_construction g WF) as (res & Hsort & _ & Hincl & _).
    exists (rev res). split; [exact Hsort|]. intros names.
    eexists. unfold print_topo_ordered_commits. apply print_loop_annotate.
    + intros h Hh. apply Hincl. now apply in_rev.
    + discriminate.
Qed.

Lemma build_table_closed_witness :
  exists g,
    build_commit_graph store_ABCD [("main", "A"); ("dev", "B")] = Returns g
    /\ (forall x n y,
          dict_get x g = Some n -> In y (parents n) \/ In y (children n) ->
          exists ny, dict_get y g = Some ny)
    /\ (exists out,
          topo_sort g = Returns out
          /\ forall names,
               exists printed,
                 print_topo_ordered_commits g out names = Returns printed).
Proof.
  eexists. split; [vm_compute; reflexivity|].
  apply (build_table_closed store_ABCD [("main", "A"); ("dev", "B")]).
  vm_compute. reflexivity.
Defined.

(** ** Termination of the sorter *)

Lemma dict_set_length {V : Type} k (v : V) d :
  (List.length (dict_set k v d) <= S (List.length d))%nat.
Proof.
  induction d as [|[k' v'] d IH]; simpl; [lia|].
  destruct (String.eqb k' k); simpl; lia.
Qed.

Lemma in_degree_fold_shape (t : NodeTable) : forall acc : dict Z,
  NoDup (keys acc) ->
  let d := fold_left
             (fun in_degree (item : string * CommitNode) =>
                dict_set (fst item) (Z.of_nat (List.length (parents (snd item))))
                  in_degree)
             t acc in
  NoDup (keys d) /\ (List.length d <= List.length acc + List.length t)%nat.
Proof.
  induction t as [|item t IH]; intros acc Hnd; simpl.
  - split; [assumption|lia].
  - destruct (IH (dict_set (fst item)
                    (Z.of_nat (List.length (parents (snd item)))) acc))
      as [H1 H2]; [now apply keys_set_NoDup|].
    split; [exact H1|].
    pose proof (dict_set_length (fst item)
                  (Z.of_nat (List.length (parents (snd item)))) acc).
    lia.
Qed.

Lemma zero_degree_zero (d : dict Z) x :
  NoDup (keys d) -> In x (zero_degree d) -> dict_get x d = Some 0%Z.
Proof.
  intros Hnd Hx. unfold zero_degree in Hx. apply in_map_iff in Hx.
  destruct Hx as [[k v] [E H]]. simpl in E. subst k.
  apply filter_In in H. destruct H as [H Hz]. simpl in Hz.
  apply Z.eqb_eq in Hz. subst v. now apply dict_get_In.
Qed.

Lemma process_children_no_fuel : forall cs deg q,
  process_children cs deg q <> OutOfFuel.
Proof.
  induction cs as [|c cs IH]; intros deg q; simpl; [discriminate|].
  destruct (dict_get c deg) as [d|]; [|discriminate].
  destruct (d - 1 =? 0)%Z; apply IH.
Qed.

Lemma process_children_spent (done : list string) : forall cs deg q deg' q',
  process_children cs deg q = Returns (deg', q') ->
  spent deg (done ++ q) ->
  spent deg' (done ++ q') /\ keys deg' = keys deg.
Proof.
  induction cs as [|c cs IH]; intros deg q deg' q' Hrun Hsp; simpl in Hrun.
  - inversion Hrun; subst. auto.
  - destruct (dict_get c deg) as [d|] eqn:Hd; [|discriminate].
    destruct Hsp as (S1 & S2 & S3 & S4).
    assert (Hc : In c (keys deg)) by (eapply dict_get_Some_key; eauto).
    assert (Hk : keys (dict_set c (d - 1)%Z deg) = keys deg)
      by now apply keys_set_in.
    destruct (d - 1 =? 0)%Z eqn:Ez.
    + apply Z.eqb_eq in Ez.
      assert (Hfresh : ~ In c (done ++ q)).
      { intros H. destruct (S4 c H) as (d0 & Hd0 & Hle). rewrite Hd in Hd0.
        inversion Hd0. lia. }
      assert (HP : Permutation (done ++ sorted (q ++ [c])) (c :: done ++ q)).
      { rewrite sorted_perm, app_assoc. rewrite Permutation_app_comm. reflexivity. }
      apply IH in Hrun.
      * destruct Hrun as [Hsp' Hk']. split; [assumption|congruence].
      * split; [now rewrite Hk|]. split.
        { eapply Permutation_NoDup; [symmetry; exact HP|]. now constructor. }
        split.
        { rewrite Hk. intros x Hx. apply (Permutation_in _ HP) in Hx.
          destruct Hx as [<-|Hx]; [assumption|now apply S3]. }
        intros x Hx. apply (Permutation_in _ HP) in Hx.
        destruct (string_dec c x) as [<-|Hne].
        -- exists (d - 1)%Z. rewrite dict_get_set_eq. split; [reflexivity|lia].
        -- destruct Hx as [Hx|Hx]; [contradiction|].
           rewrite dict_get_set_neq by assumption. now apply S4.
    + apply IH in Hrun.
      * destruct Hrun as [Hsp' Hk']. split; [assumption|congruence].
      * split; [now rewrite Hk|]. split; [assumption|].
        split; [now rewrite Hk|].
        intros x Hx. destruct (string_dec c x) as [<-|Hne].
        -- exists (d - 1)%Z. rewrite dict_get_set_eq. split; [reflexivity|].
           destruct (S4 c Hx) as (d0 & Hd0 & Hle). rewrite Hd in Hd0.
           inversion Hd0. lia.
        -- rewrite dict_get_set_neq by assumption. now apply S4.
Qed.

Lemma topo_loop_terminates (t : NodeTable) : forall fuel st,
  spent (st_in_degree st) (st_result st ++ st_queue st) ->
  (List.length (keys (st_in_degree st)) <= List.length (st_result st) + fuel)%nat ->
  topo_loop fuel t st <> OutOfFuel.
Proof.
  induction fuel as [|fuel IH]; intros st Hsp Hfuel; simpl;
    destruct (st_queue st) as [|current rest] eqn:Hq; try discriminate.
  - exfalso. destruct Hsp as (_ & S2 & S3 & _).
    pose proof (NoDup_incl_length S2 S3) as Hlen.
    rewrite length_app in Hlen. simpl in Hlen. lia.
  - unfold topo_step. destruct (dict_get current t) as [node|]; [|discriminate].
    destruct (process_children (sorted (children node)) (st_in_degree st) rest)
      as [[deg' q']|e|] eqn:Hrun; simpl; try discriminate.
    + apply (process_children_spent (st_result st ++ [current])) in Hrun.
      * destruct Hrun as [Hsp' Hk]. apply IH; simpl; [assumption|].
        rewrite Hk, length_app. simpl. lia.
      * rewrite <- app_assoc. exact Hsp.
    + now apply process_children_no_fuel in Hrun.
Qed.

(** The fuel given to the loop of the sorter is never used up: on every
    table, well-formed or not, [topo_sort] returns a sequence or raises. *)
Lemma topo_sort_terminates (t : NodeTable) : topo_sort t <> OutOfFuel.
Proof.
  unfold topo_sort.
  destruct (topo_loop (List.length t) t (topo_init t)) as [res|e|] eqn:E;
    simpl; try discriminate.
  exfalso. revert E. apply topo_loop_terminates.
  - unfold topo_init. simpl.
    destruct (in_degree_fold_shape t [] (NoDup_nil _)) as [Hnd _].
    fold (in_degree_of t) in Hnd.
    split; [assumption|]. split.
    { apply sorted_NoDup. now apply zero_degree_NoDup. }
    split.
    { intros x Hx. rewrite sorted_In in Hx.
      apply (dict_get_Some_key x 0%Z). now apply zero_degree_zero. }
    intros x Hx. rewrite sorted_In in Hx. exists 0%Z.
    split; [now apply zero_degree_zero|lia].
  - unfold topo_init. simpl.
    destruct (in_degree_fold_shape t [] (NoDup_nil _)) as [_ Hlen].
    fold (in_degree_of t) in Hlen. unfold keys. rewrite length_map.
    simpl in Hlen. lia.
Qed.

(** ** Worked examples *)

(** The chain in which [A] has parent [B] and [B] has parent [C]: the
    construction order is [C; B; A], the returned sequence its reverse. *)
Example topo_sort_chain : topo_sort chain_ABC = Returns ["A"; "B"; "C"].
Proof. reflexivity. Qed.

Example topo_sort_diamond : topo_sort diamond = Returns ["M"; "Q"; "P"; "O"].
Proof. reflexivity. Qed.

Example split_fields : split "parent  abc def " = ["parent"; "abc"; "def"].
Proof. reflexivity. Qed.

Example split_lines_text :
  split_lines ("tree t" ++ newline ++ newline ++ "msg")%string
  = ["tree t"; ""; "msg"].
Proof. reflexivity. Qed.

(** The line [parent Z] of the record of [A] stands after the blank line and
    declares nothing; the objects of [C] and [D] are missing and the two are
    leaves. *)
Example build_store_ABCD :
  build_commit_graph store_ABCD [("main", "A")]
  = Returns [ ("A", mkCommitNode "A" ["B"; "D"] []);
              ("B", mkCommitNode "B" ["C"] ["A"]);
              ("D", mkCommitNode "D" [] ["A"]);
              ("C", mkCommitNode "C" [] ["B"]) ].
Proof. reflexivity. Qed.

Example print_store_ABCD :
  topo_order_commits store_ABCD [("main", "A"); ("topic", "A")]
  = Returns ["A main topic"; "D"; "="; ""; "= A"; "B"; "C"].
Proof. reflexivity. Qed.

(** * Further properties of the code *)

(** ** The reach of the traversal *)

Lemma reachable_step git_dir from x p :
  reachable git_dir from x -> store_parent git_dir x p ->
  reachable git_dir from p.
Proof.
  intros (s & Hs & Hpath) Hp. exists s. split; [assumption|]. clear Hs.
  revert Hp. induction Hpath as [a|a b c Hab Hbc IH]; intros Hp.
  - eapply Relation_Operators.rt1n_trans; [exact Hp|constructor].
  - eapply Relation_Operators.rt1n_trans; [exact Hab|now apply IH].
Qed.

Lemma scan_lines_stack (h : string) : forall lines g stack g' stack',
  scan_lines h lines g stack = Returns (g', stack') ->
  (forall k, In k stack' <-> In k stack \/ declared lines k)
  /\ header_ok lines = true.
Proof.
  induction lines as [|line rest IH]; intros g stack g' stack' Hrun;
    cbn [scan_lines] in Hrun.
  - inversion Hrun; subst. split; [|reflexivity].
    intros k. split; [auto|]. intros [H|H]; [assumption|].
    now apply declared_nil in H.
  - unfold header_ok. cbn [header].
    destruct (startswith line "parent") eqn:Hstart.
    + destruct (nth_error (split line) 1) as [p0|] eqn:Hsplit; [|discriminate].
      destruct (add_edge h p0 g) as [g1| |] eqn:Hedge; try discriminate.
      simpl in Hrun. apply IH in Hrun. destruct Hrun as [Hstack Hok].
      pose proof (startswith_nonempty _ Hstart) as Hne.
      destruct (String.eqb_spec line ""); [contradiction|]. split.
      * intros k. rewrite Hstack, declared_cons by assumption.
        unfold declares. rewrite Hstart, Hsplit. simpl.
        split; intros H; intuition congruence.
      * simpl. unfold line_ok at 1. rewrite Hstart, Hsplit. exact Hok.
    + destruct (String.eqb_spec line "") as [->|Hne].
      * inversion Hrun; subst. split; [|reflexivity].
        intros k. split; [auto|]. intros [H|H]; [assumption|].
        now apply declared_blank in H.
      * apply IH in Hrun. destruct Hrun as [Hstack Hok]. split.
        -- intros k. rewrite Hstack, declared_cons by assumption.
           unfold declares. rewrite Hstart. intuition discriminate.
        -- simpl. unfold line_ok at 1. rewrite Hstart. exact Hok.
Qed.

Lemma add_edge_returns_key h p g :
  In h (keys g) -> exists g', add_edge h p g = Returns g' /\ In h (keys g').
Proof.
  intros Hh.
  destruct (add_edge_spec h p g) as (g' & Hrun & K & _).
  { apply ensure_node_keys. now right. }
  exists g'. split; [assumption|]. rewrite K. apply ensure_node_keys. now right.
Qed.

Lemma scan_lines_returns (h : string) : forall lines g stack,
  In h (keys g) -> header_ok lines = true ->
  exists g' stack', scan_lines h lines g stack = Returns (g', stack').
Proof.
  induction lines as [|line rest IH]; intros g stack Hh Hok; cbn [scan_lines].
  - eauto.
  - unfold header_ok in Hok. cbn [header] in Hok.
    destruct (String.eqb_spec line "") as [->|Hne].
    + cbn. change (startswith "" "parent") with false. cbn. eauto.
    + simpl in Hok. apply andb_true_iff in Hok. destruct Hok as [Hline Hok].
      unfold line_ok in Hline.
      destruct (startswith line "parent"); [|now apply IH].
      destruct (nth_error (split line) 1) as [p0|]; [|discriminate].
      destruct (add_edge_returns_key h p0 g Hh) as (g1 & Hedge & Hh1).
      rewrite Hedge. simpl. now apply IH.
Qed.




Lemma reach_init_inv git_dir from :
  reach_inv git_dir from (mkBuildState [] (rev from) []).
Proof.
  constructor; simpl.
  - intros x [].
  - intros x Hx. apply in_rev in Hx. exists x. split; [assumption|constructor].
  - intros s Hs. right. now apply -> in_rev.
  - intros x [].
Qed.

Lemma reach_skip_inv git_dir from st h rest :
  build_inv git_dir st -> reach_inv git_dir from st ->
  bs_stack st = h :: rest -> In h (bs_visited st) ->
  reach_inv git_dir from (mkBuildState (bs_graph st) rest (bs_visited st)).
Proof.
  intros Hb [R1 R2 R3 R4] Hs Hv. constructor; simpl; auto.
  - intros x Hx. apply R2. rewrite Hs. now right.
  - intros s Hin. destruct (R3 s Hin) as [H|H]; [now left|].
    rewrite Hs in H. destruct H as [<-|H]; [|now right].
    left. now apply (bi_visited git_dir st Hb).
Qed.

Lemma reach_visit_inv git_dir from st h rest st' :
  reach_inv git_dir from st ->
  bs_stack st = h :: rest ->
  visit git_dir st h rest = Returns st' ->
  reach_inv git_dir from st'.
Proof.
  intros [R1 R2 R3 R4] Hs. unfold visit.
  destruct (decompress_git_object git_dir h) as [lines|e|] eqn:Hread;
    simpl; try discriminate.
  destruct (scan_lines h lines (ensure_node h (bs_graph st)) rest)
    as [[g' stack']|e|] eqn:Hscan; simpl; try discriminate.
  intros [= <-].
  destruct (scan_lines_spec h lines _ _ _ _
              (proj2 (ensure_node_keys h (bs_graph st) h) (or_introl eq_refl)) Hscan)
    as (_ & _ & _ & _ & I5 & I6 & _).
  destruct (scan_lines_stack h lines _ _ _ _ Hscan) as [Hstack Hok].
  assert (Hh : reachable git_dir from h) by (apply R2; rewrite Hs; now left).
  assert (Hst : forall x, In x stack' -> reachable git_dir from x).
  { intros x Hx. apply Hstack in Hx. destruct Hx as [Hx|Hx].
    - apply R2. rewrite Hs. now right.
    - apply (reachable_step git_dir from h x Hh). exists lines. auto. }
  constructor; simpl.
  - intros x Hx. apply I6 in Hx. destruct Hx as [Hx|Hx]; [|now apply Hst].
    apply ensure_node_keys in Hx. destruct Hx as [->|Hx]; [assumption|now apply R1].
  - exact Hst.
  - intros s Hin. destruct (R3 s Hin) as [H|H].
    + left. apply I5, ensure_node_keys. now right.
    + rewrite Hs in H. destruct H as [<-|H].
      * left. apply I5, ensure_node_keys. now left.
      * right. apply Hstack. now left.
  - intros x Hx. apply set_add_In in Hx. destruct Hx as [->|Hx]; [|now apply R4].
    exists lines. auto.
Qed.

Lemma build_loop_reach git_dir from : forall fuel st g,
  build_inv git_dir st -> reach_inv git_dir from st ->
  build_loop fuel git_dir st = Returns g ->
  exists st',
    build_inv git_dir st' /\ reach_inv git_dir from st'
    /\ bs_stack st' = [] /\ bs_graph st' = g.
Proof.
  induction fuel as [|fuel IH]; intros st g Hb Hr Hrun; simpl in Hrun;
    destruct (bs_stack st) as [|h rest] eqn:Hs; try discriminate.
  - inversion Hrun; subst. eauto.
  - inversion Hrun; subst. eauto.
  - destruct (set_mem h (bs_visited st)) eqn:Hv.
    + apply set_mem_In in Hv. eapply IH; [| |exact Hrun].
      * eapply skip_inv; eauto.
      * eapply reach_skip_inv; eauto.
    + apply set_mem_false in Hv.
      destruct (visit git_dir st h rest) as [st1|e|] eqn:Hvisit; try discriminate.
      simpl in Hrun. eapply IH; [| |exact Hrun].
      * eapply visit_inv; eauto.
      * eapply reach_visit_inv; eauto.
Qed.

Lemma build_loop_no_raise git_dir from :
  (forall x, reachable git_dir from x -> record_ok git_dir x) ->
  forall fuel st e,
    build_inv git_dir st -> reach_inv git_dir from st ->
    build_loop fuel git_dir st <> Raises e.
Proof.
  intros Hall. induction fuel as [|fuel IH]; intros st e Hb Hr; simpl;
    destruct (bs_stack st) as [|h rest] eqn:Hs; try discriminate.
  destruct (set_mem h (bs_visited st)) eqn:Hv.
  - apply set_mem_In in Hv. apply IH.
    + eapply skip_inv; eauto.
    + eapply reach_skip_inv; eauto.
  - apply set_mem_false in Hv.
    assert (Hvisit : exists st1, visit git_dir st h rest = Returns st1).
    { destruct (Hall h) as (lines & Hread & Hok).
      { apply (ri_stack git_dir from st Hr). rewrite Hs. now left. }
      unfold visit. rewrite Hread. simpl.
      destruct (scan_lines_returns h lines (ensure_node h (bs_graph st)) rest)
        as (g' & stack' & Hscan); [apply ensure_node_keys; now left|assumption|].
      rewrite Hscan. simpl. eauto. }
    destruct Hvisit as [st1 Hvisit]. rewrite Hvisit. simpl. apply IH.
    + eapply visit_inv; eauto.
    + eapply reach_visit_inv; eauto.
Qed.

Lemma build_final git_dir branches g :
  build_commit_graph git_dir branches = Returns g ->
  exists st,
    build_inv git_dir st /\ reach_inv git_dir (seeds branches) st
    /\ bs_stack st = [] /\ bs_graph st = g.
Proof.
  unfold build_commit_graph. intros Hrun.
  eapply build_loop_reach; [apply build_init_inv| |exact Hrun].
  apply reach_init_inv.
Qed.

Lemma reachable_is_key git_dir from st :
  build_inv git_dir st -> reach_inv git_dir from st -> bs_stack st = [] ->
  forall x, reachable git_dir from x -> In x (keys (bs_graph st)).
Proof.
  intros Hb Hr Hs x (s & Hin & Hpath).
  assert (Hseed : In s (keys (bs_graph st))).
  { destruct (ri_seeds _ _ _ Hr s Hin) as [H|H]; [assumption|].
    rewrite Hs in H. destruct H. }
  clear Hin. induction Hpath as [a|a b c Hab _ IH]; [assumption|].
  apply IH. destruct Hab as (lines & Hread & Hdecl).
  destruct (bi_pending _ _ Hb a Hseed) as [Hv|Hv]; [|rewrite Hs in Hv; destruct Hv].
  destruct (bi_visited _ _ Hb a Hv) as (_ & lines' & Hread' & Hpar).
  rewrite Hread in Hread'. inversion Hread'; subst lines'.
  apply (symmetric_closed _ (bi_symmetric _ _ Hb) a). left. now apply Hpar.
Qed.

(** The table the builder returns holds the seeds and what is reached from
    them along the parents the records declare, and nothing else: a key is
    a branch head or an ancestor of one. *)
Theorem build_keys_reachable (git_dir : GitDir)
    (branches : list (string * string)) (g : NodeTable) :
  build_commit_graph git_dir branches = Returns g ->
  forall x, In x (keys g) <-> reachable git_dir (seeds branches) x.
Proof.
  intros Hrun. destruct (build_final _ _ _ Hrun) as (st & Hb & Hr & Hs & <-).
  intros x. split.
  - apply (ri_keys _ _ _ Hr).
  - now apply reachable_is_key.
Qed.

Lemma build_keys_reachable_witness :
  exists g,
    build_commit_graph store_ABCD [("main", "B")] = Returns g
    /\ forall x, In x (keys g) <-> reachable store_ABCD (seeds [("main", "B")]) x.
Proof.
  eexists. split; [vm_compute; reflexivity|].
  apply (build_keys_reachable store_ABCD [("main", "B")]).
  vm_compute. reflexivity.
Defined.

Lemma build_returns_ok git_dir branches g :
  build_commit_graph git_dir branches = Returns g ->
  forall x, reachable git_dir (seeds branches) x -> record_ok git_dir x.
Proof.
  intros Hrun x Hx.
  destruct (build_final _ _ _ Hrun) as (st & Hb & Hr & Hs & <-).
  pose proof (reachable_is_key _ _ _ Hb Hr Hs x Hx) as Hk.
  destruct (bi_pending _ _ Hb x Hk) as [Hv|Hv]; [|rewrite Hs in Hv; destruct Hv].
  now apply (ri_records _ _ _ Hr).
Qed.

Lemma build_returns_when_ok git_dir branches :
  (forall x, reachable git_dir (seeds branches) x -> record_ok git_dir x) ->
  exists g, build_commit_graph git_dir branches = Returns g.
Proof.
  intros Hall.
  pose proof (build_commit_graph_terminates git_dir branches) as Hfuel.
  pose proof (fun e =>
    build_loop_no_raise git_dir (seeds branches) Hall
      (build_fuel git_dir (rev (map snd branches)))
      (mkBuildState [] (rev (map snd branches)) []) e
      (build_init_inv _ _) (reach_init_inv _ _)) as Hraise.
  fold (build_commit_graph git_dir branches) in Hraise.
  destruct (build_commit_graph git_dir branches) as [g|e|].
  - eauto.
  - now specialize (Hraise e).
  - contradiction.
Qed.

(** The builder returns a table exactly when every record it can reach from
    the seeds can be read and has, on each header line that starts with
    [parent], a second field. *)
Theorem build_returns_iff (git_dir : GitDir) (branches : list (string * string)) :
  (exists g, build_commit_graph git_dir branches = Returns g)
  <-> (forall x, reachable git_dir (seeds branches) x -> record_ok git_dir x).
Proof.
  split.
  - intros [g Hrun]. now apply build_returns_ok with (g := g).
  - apply build_returns_when_ok.
Qed.

(** ** The sorter on any table *)

Lemma in_degree_fold_keys (t : NodeTable) : forall (acc : dict Z) k,
  In k (keys (fold_left
                (fun in_degree (item : string * CommitNode) =>
                   dict_set (fst item)
                     (Z.of_nat (List.length (parents (snd item)))) in_degree)
                t acc))
  <-> In k (keys acc) \/ In k (keys t).
Proof.
  induction t as [|item t IH]; intros acc k; simpl.
  - tauto.
  - rewrite IH, keys_set_In. intuition.
Qed.

Lemma in_degree_keys (t : NodeTable) k :
  In k (keys (in_degree_of t)) <-> In k (keys t).
Proof.
  unfold in_degree_of. rewrite in_degree_fold_keys. simpl. tauto.
Qed.

Lemma zero_degree_keys (d : dict Z) x : In x (zero_degree d) -> In x (keys d).
Proof.
  unfold zero_degree, keys. rewrite !in_map_iff.
  intros (item & E & H). apply filter_In in H. exists item. tauto.
Qed.

Lemma process_children_raises : forall cs deg q e,
  process_children cs deg q = Raises e ->
  exists c, e = KeyError c /\ In c cs /\ ~ In c (keys deg).
Proof.
  induction cs as [|c cs IH]; intros deg q e H; simpl in H; [discriminate|].
  destruct (dict_get c deg) as [d|] eqn:Hd.
  - assert (Hk : forall k, ~ In k (keys (dict_set c (d - 1)%Z deg)) ->
                           ~ In k (keys deg)).
    { intros k Hk Hin. apply Hk. apply keys_set_In. now right. }
    destruct (d - 1 =? 0)%Z; apply IH in H;
      destruct H as (c' & -> & Hin & Hno); exists c'; auto using in_cons.
  - inversion H; subst. exists c. split; [reflexivity|].
    split; [now left|now apply dict_get_None].
Qed.

Lemma process_children_members : forall cs deg q deg' q',
  process_children cs deg q = Returns (deg', q') ->
  (forall k, In k (keys deg') <-> In k (keys deg))
  /\ (forall x, In x q' -> In x q \/ (In x cs /\ In x (keys deg))).
Proof.
  induction cs as [|c cs IH]; intros deg q deg' q' H; simpl in H.
  - inversion H; subst. split; [tauto|auto].
  - destruct (dict_get c deg) as [d|] eqn:Hd; [|discriminate].
    assert (Hc : In c (keys deg)) by (eapply dict_get_Some_key; eauto).
    assert (Hk : keys (dict_set c (d - 1)%Z deg) = keys deg)
      by now apply keys_set_in.
    destruct (d - 1 =? 0)%Z; apply IH in H; destruct H as [H1 H2];
      rewrite Hk in *; (split; [assumption|]).
    + intros x Hx. apply H2 in Hx. destruct Hx as [Hx|[Hx Hx']].
      * rewrite sorted_In in Hx. apply in_app_or in Hx.
        destruct Hx as [Hx|[<-|[]]]; [now left|right]. split; [now left|assumption].
      * right. split; [now right|assumption].
    + intros x Hx. apply H2 in Hx. destruct Hx as [Hx|[Hx Hx']]; [now left|].
      right. split; [now right|assumption].
Qed.

Lemma topo_loop_raises (t : NodeTable) : forall fuel st e,
  (forall k, In k (keys (st_in_degree st)) <-> In k (keys t)) ->
  incl (st_queue st) (keys t) ->
  topo_loop fuel t st = Raises e ->
  exists x c,
    e = KeyError c /\ In x (keys t)
    /\ In c (children_of t x) /\ ~ In c (keys t).
Proof.
  induction fuel as [|fuel IH]; intros st e Hkeys Hq Hrun; simpl in Hrun;
    destruct (st_queue st) as [|current rest] eqn:Hqueue; try discriminate.
  assert (Hcur : In current (keys t)) by (apply Hq; now left).
  destruct (dict_get_key current t Hcur) as [node Hnode].
  unfold topo_step in Hrun. rewrite Hnode in Hrun.
  destruct (process_children (sorted (children node)) (st_in_degree st) rest)
    as [[deg' q']|e'|] eqn:Hpc; simpl in Hrun; try discriminate.
  - apply process_children_members in Hpc. destruct Hpc as [Hk' Hq'].
    apply IH in Hrun; [assumption| |]; simpl.
    + intros k. rewrite Hk'. apply Hkeys.
    + intros x Hx. apply Hq' in Hx. destruct Hx as [Hx|[_ Hx]].
      * apply Hq. now right.
      * now apply Hkeys.
  - inversion Hrun; subst e'. apply process_children_raises in Hpc.
    destruct Hpc as (c & -> & Hin & Hno). exists current, c.
    split; [reflexivity|]. split; [assumption|].
    unfold children_of. rewrite Hnode. rewrite sorted_In in Hin.
    split; [assumption|]. intros H. apply Hno. now apply Hkeys.
Qed.

(** On any table, the sorter ends in one of two ways: it returns a
    sequence, or it raises [KeyError] for an identifier that stands among
    the children of a node and is not a key of the table.  So it returns on
    every table whose children sets name keys only. *)
Theorem topo_sort_outcomes (t : NodeTable) :
  (exists out, topo_sort t = Returns out)
  \/ (exists x c,
        topo_sort t = Raises (KeyError c) /\ In x (keys t)
        /\ In c (children_of t x) /\ ~ In c (keys t)).
Proof.
  pose proof (topo_sort_terminates t) as Hfuel. unfold topo_sort in *.
  destruct (topo_loop (List.length t) t (topo_init t)) as [res|e|] eqn:E;
    simpl in *.
  - left. eauto.
  - right. apply topo_loop_raises in E.
    + destruct E as (x & c & -> & H). exists x, c. auto.
    + intros k. apply in_degree_keys.
    + intros x Hx. unfold topo_init in Hx. simpl in Hx.
      rewrite sorted_In in Hx. apply zero_degree_keys in Hx.
      now apply in_degree_keys.
  - contradiction.
Qed.

Lemma topo_loop_spent_result (t : NodeTable) : forall fuel st res,
  spent (st_in_degree st) (st_result st ++ st_queue st) ->
  topo_loop fuel t st = Returns res ->
  NoDup res /\ incl res (keys (st_in_degree st)).
Proof.
  induction fuel as [|fuel IH]; intros st res Hsp Hrun; simpl in Hrun;
    destruct (st_queue st) as [|current rest] eqn:Hq; try discriminate.
  - inversion Hrun; subst. rewrite app_nil_r in Hsp.
    destruct Hsp as (_ & S2 & S3 & _). auto.
  - inversion Hrun; subst. rewrite app_nil_r in Hsp.
    destruct Hsp as (_ & S2 & S3 & _). auto.
  - unfold topo_step in Hrun.
    destruct (dict_get current t) as [node|]; [|discriminate].
    destruct (process_children (sorted (children node)) (st_in_degree st) rest)
      as [[deg' q']|e|] eqn:Hpc; simpl in Hrun; try discriminate.
    apply (process_children_spent (st_result st ++ [current])) in Hpc.
    + destruct Hpc as [Hsp' Hk]. apply IH in Hrun; [|exact Hsp'].
      simpl in Hrun. now rewrite Hk in Hrun.
    + rewrite <- app_assoc. exact Hsp.
Qed.

(** On any table, well-formed or not, a sequence the sorter returns names
    keys of the table only and names none twice. *)
Theorem topo_sort_keys_once (t : NodeTable) (out : list string) :
  topo_sort t = Returns out -> NoDup out /\ incl out (keys t).
Proof.
  unfold topo_sort.
  destruct (topo_loop (List.length t) t (topo_init t)) as [res|e|] eqn:E;
    simpl; try discriminate.
  intros [= <-]. apply topo_loop_spent_result in E.
  - destruct E as [Hnd Hincl]. split; [now apply NoDup_rev|].
    intros x Hx. apply in_rev in Hx. apply Hincl in Hx.
    unfold topo_init in Hx. simpl in Hx. now apply in_degree_keys.
  - unfold topo_init. simpl.
    destruct (in_degree_fold_shape t [] (NoDup_nil _)) as [Hnd _].
    fold (in_degree_of t) in Hnd.
    split; [assumption|]. split.
    { apply sorted_NoDup. now apply zero_degree_NoDup. }
    split.
    { intros x Hx. rewrite sorted_In in Hx. now apply zero_degree_keys. }
    intros x Hx. rewrite sorted_In in Hx. exists 0%Z.
    split; [now apply zero_degree_zero|lia].
Qed.

Lemma topo_sort_keys_once_witness :
  topo_sort cycle_below_root = Returns ["R"]
  /\ NoDup ["R"] /\ incl ["R"] (keys cycle_below_root).
Proof.
  split; [reflexivity|].
  exact (topo_sort_keys_once cycle_below_root ["R"] eq_refl).
Defined.

(** ** Which nodes a cycle takes out of the sequence *)

Lemma descent_cycle_from (R : string -> string -> Prop) (U : list string) :
  (forall x, In x U -> exists y, In y U /\ R x y) ->
  forall x, In x U ->
  exists z, (z = x \/ clos_trans_1n string R x z) /\ clos_trans_1n string R z z.
Proof.
  intros step x Hx.
  destruct (long_chain R U step (List.length U) x Hx) as (l & Hlen & Hch & Hincl).
  assert (Hdup : ~ NoDup (x :: l)).
  { intros Hnd. apply NoDup_incl_length with (l' := U) in Hnd; [|assumption].
    simpl in Hnd. lia. }
  apply not_NoDup in Hdup.
  - destruct Hdup as (a & l1 & l2 & l3 & E). exists a. split.
    + destruct l1 as [|b l1]; simpl in E.
      * inversion E. now left.
      * inversion E; subst b. right. rewrite H1 in Hch.
        eapply is_chain_path. exact Hch.
    + rewrite E in Hch. apply is_chain_app_r in Hch.
      eapply is_chain_path. exact Hch.
  - intros a b. destruct (string_dec a b); [now left|now right].
Qed.

Lemma unemitted_parent (t : NodeTable) res :
  well_formed t ->
  (forall x, In x (keys t) -> (In x res <-> incl (parents_of t x) res)) ->
  forall k, In k (keys t) -> ~ In k res ->
  exists p, (In p (keys t) /\ ~ In p res) /\ parent_edge t k p.
Proof.
  intros WF Hready k Hk Hkres.
  assert (Hrem : remaining t res k <> 0%nat).
  { intros H. apply Hkres. apply Hready; [assumption|].
    now apply filter_length_zero. }
  unfold remaining in Hrem.
  destruct (filter (fun p => negb (set_mem p res)) (parents_of t k))
    as [|p ps] eqn:E; [contradiction|].
  assert (Hp : In p (filter (fun p => negb (set_mem p res)) (parents_of t k)))
    by (rewrite E; now left).
  apply filter_In in Hp. destruct Hp as [Hp Hpres].
  apply negb_true_iff, set_mem_false in Hpres.
  exists p. split; [|exact Hp]. split; [|assumption].
  apply (wf_closed WF k). now left.
Qed.

(** On a well-formed table the sorter returns exactly the keys that have no
    cycle above them: a key is in the returned sequence when neither it nor
    any of its ancestors lies on a cycle, and is left out otherwise. *)
Theorem topo_sort_emits_exactly (t : NodeTable) :
  well_formed t ->
  exists out,
    topo_sort t = Returns out
    /\ forall x,
         In x out
         <-> In x (keys t)
             /\ forall y, y = x \/ ancestor t x y -> ~ on_cycle t y.
Proof.
  intros WF.
  destruct (topo_sort_construction t WF) as (res & Hrun & Hnd & Hincl & Hready & Hord).
  exists (rev res). split; [exact Hrun|]. intros x. rewrite <- in_rev. split.
  - intros Hx. split; [now apply Hincl|]. intros y Hy Hcyc.
    assert (Hyres : In y res).
    { destruct Hy as [->|Hy]; [assumption|].
      apply in_split in Hx. destruct Hx as (l1 & l2 & E).
      assert (In y l1) by exact (ancestors_first t res Hord x y Hy l1 l2 E).
      rewrite E. apply in_or_app. now left. }
    revert Hyres. now apply (cycle_not_emitted t res).
  - intros [Hk Hfree].
    destruct (in_dec string_dec x res) as [Hin|Hnin]; [assumption|exfalso].
    set (U := filter (fun k => negb (set_mem k res)) (keys t)).
    assert (HU : forall k, In k U <-> In k (keys t) /\ ~ In k res).
    { intros k. unfold U. rewrite filter_In, negb_true_iff, set_mem_false. tauto. }
    destruct (descent_cycle_from (parent_edge t) U) with (x := x) as (z & Hz & Hcyc).
    + intros k Hk'. apply HU in Hk'. destruct Hk' as [Hk1 Hk2].
      destruct (unemitted_parent t res WF Hready k Hk1 Hk2) as (p & Hp & Hedge).
      exists p. split; [now apply HU|assumption].
    + apply HU. tauto.
    + apply (Hfree z); [|exact Hcyc]. destruct Hz as [->|Hz]; [now left|now right].
Qed.

Lemma topo_sort_emits_exactly_witness :
  well_formed cycle_below_root
  /\ exists out,
       topo_sort cycle_below_root = Returns out
       /\ forall x,
            In x out
            <-> In x (keys cycle_below_root)
                /\ forall y, y = x \/ ancestor cycle_below_root x y ->
                             ~ on_cycle cycle_below_root y.
Proof.
  assert (WF : well_formed cycle_below_root)
    by (apply well_formedb_sound; vm_compute; reflexivity).
  split; [exact WF|].
  exact (topo_sort_emits_exactly cycle_below_root WF).
Defined.

(** ** Where the sequence ends *)

(** On a table that has a key without parents, the sequence the sorter
    returns ends with the smallest of the keys without parents. *)
Theorem topo_sort_ends_with_smallest_root (t : NodeTable) (out : list string)
    (r : string) :
  NoDup (keys t) -> topo_sort t = Returns out ->
  In r (keys t) -> parents_of t r = [] ->
  exists m out',
    out = out' ++ [m]
    /\ In m (keys t) /\ parents_of t m = [] /\ str_le m r.
Proof.
  intros Hnd Hrun Hr Hroot. unfold topo_sort in Hrun.
  destruct (topo_loop (List.length t) t (topo_init t)) as [res|e|] eqn:E;
    simpl in Hrun; try discriminate.
  inversion Hrun; subst out. clear Hrun.
  assert (Hzero : forall x, In x (sorted (zero_degree (in_degree_of t)))
                            <-> In x (keys t) /\ parents_of t x = []).
  { intros x. rewrite sorted_In, in_degree_of_map, zero_degree_In by assumption.
    unfold parents_of. split.
    - intros (n & Hin & Hp). rewrite (dict_get_In _ _ _ Hnd Hin).
      split; [|assumption]. change x with (fst (x, n)). now apply in_map.
    - intros [Hk Hp]. destruct (dict_get_key x t Hk) as [n Hn].
      rewrite Hn in Hp. exists n. split; [now apply dict_get_Some_In|assumption]. }
  pose proof (sorted_sorted (zero_degree (in_degree_of t))) as Hsort.
  destruct (sorted (zero_degree (in_degree_of t))) as [|m rest] eqn:Hq.
  { exfalso. apply (proj2 (Hzero r)). tauto. }
  assert (Hm : In m (keys t) /\ parents_of t m = [])
    by (apply Hzero; now left).
  assert (Hle : str_le m r).
  { assert (Hin : In r (m :: rest)) by (apply Hzero; tauto).
    destruct Hin as [->|Hin]; [apply str_le_refl|].
    inversion Hsort as [|? ? _ Hall]; subst.
    rewrite Forall_forall in Hall. now apply Hall. }
  destruct (List.length t) as [|fuel]; simpl in E;
    unfold topo_init in E; simpl in E; rewrite Hq in E; [discriminate|].
  match type of E with
  | bind ?step _ = _ => destruct step as [st'|e|] eqn:Hstep; try discriminate
  end.
  simpl in E. apply topo_loop_extends in E. destruct E as [s ->].
  apply topo_step_queue in Hstep. destruct Hstep as [-> _]. simpl.
  exists m, (rev s). split; [reflexivity|tauto].
Qed.

Lemma topo_sort_ends_with_smallest_root_witness :
  NoDup (keys diamond) /\ topo_sort diamond = Returns ["M"; "Q"; "P"; "O"]
  /\ In "O" (keys diamond) /\ parents_of diamond "O" = []
  /\ exists m out',
       ["M"; "Q"; "P"; "O"] = out' ++ [m]
       /\ In m (keys diamond) /\ parents_of diamond m = [] /\ str_le m "O".
Proof.
  assert (Hnd : NoDup (keys diamond)) by (apply nodupb_NoDup; reflexivity).
  assert (Hin : In "O" (keys diamond)) by (simpl; auto).
  split; [exact Hnd|]. split; [reflexivity|]. split; [exact Hin|].
  split; [reflexivity|].
  exact (topo_sort_ends_with_smallest_root diamond ["M"; "Q"; "P"; "O"] "O"
           Hnd eq_refl Hin eq_refl).
Defined.

(** ** The lines the annotator prints *)

Lemma annotate_length t names : forall ordered prev,
  List.length (annotate t names prev ordered)
  = (List.length ordered
     + 3 * breaks t match prev with Some p => p :: ordered | None => ordered end)%nat.
Proof.
  induction ordered as [|c rest IH]; intros prev; [now destruct prev|].
  cbn [annotate]. rewrite !length_app, IH. cbn [List.length].
  destruct prev as [p|]; [|simpl; lia].
  change (breaks t (p :: c :: rest))
    with ((if set_mem p (children_of t c) then 0 else 1) + breaks t (c :: rest))%nat.
  destruct (set_mem p (children_of t c)); simpl; lia.
Qed.

Lemma annotate_unbroken t names : forall ordered prev,
  breaks t match prev with Some p => p :: ordered | None => ordered end = 0%nat ->
  annotate t names prev ordered = map (commit_line names) ordered.
Proof.
  induction ordered as [|c rest IH]; intros prev H; [reflexivity|].
  cbn [annotate map]. destruct prev as [p|].
  - change (breaks t (p :: c :: rest))
      with ((if set_mem p (children_of t c) then 0 else 1) + breaks t (c :: rest))%nat
      in H.
    destruct (set_mem p (children_of t c)); [|simpl in H; lia].
    simpl. f_equal. apply IH. exact H.
  - simpl. f_equal. apply IH. exact H.
Qed.

(** On a sequence of keys the annotator prints one line for each commit and
    three more for each place where the commit before is not a child of the
    commit after; where there is no such place it prints the lines of the
    commits and nothing else. *)
Theorem print_line_count (t : NodeTable) (ordered : list string)
    (names : dict (list string)) :
  (forall h, In h ordered -> In h (keys t)) ->
  exists printed,
    print_topo_ordered_commits t ordered names = Returns printed
    /\ List.length printed = (List.length ordered + 3 * breaks t ordered)%nat
    /\ (breaks t ordered = 0%nat -> printed = map (commit_line names) ordered).
Proof.
  intros Hkeys. exists (annotate t names None ordered). split.
  - unfold print_topo_ordered_commits.
    rewrite print_loop_annotate; [reflexivity|assumption|discriminate].
  - split.
    + now rewrite annotate_length.
    + intros H. now apply annotate_unbroken.
Qed.

Lemma print_line_count_witness :
  (forall h, In h ["A"; "B"; "C"; "D"] -> In h (keys two_components))
  /\ exists printed,
       print_topo_ordered_commits two_components ["A"; "B"; "C"; "D"] []
       = Returns printed
       /\ List.length printed
          = (List.length ["A"; "B"; "C"; "D"]
             + 3 * breaks two_components ["A"; "B"; "C"; "D"])%nat
       /\ (breaks two_components ["A"; "B"; "C"; "D"] = 0%nat ->
           printed = map (commit_line []) ["A"; "B"; "C"; "D"]).
Proof.
  assert (H : forall h, In h ["A"; "B"; "C"; "D"] -> In h (keys two_components))
    by (simpl; tauto).
  split; [exact H|].
  exact (print_line_count two_components ["A"; "B"; "C"; "D"] [] H).
Defined.

(** ** The names on a commit's line *)

Lemma head_to_branches_fold h : forall branches (acc : dict (list string)),
  dict_get h
    (fold_left
       (fun d (b : string * string) =>
          let d1 := if dict_mem (snd b) d then d else dict_set (snd b) [] d in
          match dict_get (snd b) d1 with
          | Some names => dict_set (snd b) (names ++ [fst b]) d1
          | None => d1
          end)
       branches acc)
  = match dict_get h acc, names_at branches h with
    | None, [] => None
    | None, ns => Some ns
    | Some a, ns => Some (a ++ ns)
    end.
Proof.
  induction branches as [|[name target] rest IH]; intros acc; simpl.
  - destruct (dict_get h acc); [now rewrite app_nil_r|reflexivity].
  - rewrite IH. clear IH. unfold names_at. simpl.
    set (d1 := if dict_mem target acc then acc else dict_set target [] acc).
    assert (Hd1 : dict_get target d1
                   = Some match dict_get target acc with Some a => a | None => [] end).
    { unfold d1, dict_mem. destruct (dict_get target acc) eqn:E; [assumption|].
      apply dict_get_set_eq. }
    assert (Hother : target <> h -> dict_get h d1 = dict_get h acc).
    { intros Hne. unfold d1. destruct (dict_mem target acc); [reflexivity|].
      now apply dict_get_set_neq. }
    rewrite Hd1. destruct (String.eqb_spec target h) as [->|Hne].
    + rewrite dict_get_set_eq. simpl.
      destruct (dict_get h acc) as [a|]; simpl.
      * now rewrite <- app_assoc.
      * reflexivity.
    + rewrite dict_get_set_neq by assumption. rewrite (Hother Hne). reflexivity.
Qed.

Lemma head_to_branches_get branches h :
  dict_get h (head_to_branches_of branches)
  = match names_at branches h with [] => None | ns => Some ns end.
Proof.
  unfold head_to_branches_of. rewrite head_to_branches_fold. simpl.
  now destruct (names_at branches h).
Qed.

Lemma commit_line_names branches h :
  commit_line (head_to_branches_of branches) h
  = if nonempty (names_at branches h)
    then (h ++ " " ++ String.concat " " (sorted (names_at branches h)))%string
    else h.
Proof.
  unfold commit_line, join. rewrite head_to_branches_get.
  now destruct (names_at branches h).
Qed.

(** The map from heads to branch names groups the branches by their head:
    looking a commit up gives the names of the branches that point to it, in
    the order of the list, and no entry for a commit no branch points to.
    So the line of a commit shows the sorted names of its branches, or the
    commit alone. *)
Theorem head_to_branches_groups (branches : list (string * string)) (h : string) :
  dict_get h (head_to_branches_of branches)
  = match names_at branches h with [] => None | ns => Some ns end
  /\ commit_line (head_to_branches_of branches) h
     = if nonempty (names_at branches h)
       then (h ++ " " ++ String.concat " " (sorted (names_at branches h)))%string
       else h.
Proof.
  split; [apply head_to_branches_get|apply commit_line_names].
Qed.

(** ** From the branches to the printed lines *)

Lemma annotate_In t names h : forall ordered prev,
  In h ordered -> In (commit_line names h) (annotate t names prev ordered).
Proof.
  induction ordered as [|c rest IH]; intros prev Hh; [destruct Hh|].
  cbn [annotate]. apply in_or_app. right. destruct Hh as [->|Hh].
  - now left.
  - right. now apply IH.
Qed.

(** When the table built from the branches has no cycle, the printed lines
    show every branch: for each branch there is a line made of its head, a
    space, and the sorted names of the branches with that head, its own
    among them. *)
Theorem every_branch_printed (git_dir : GitDir)
    (branches : list (string * string)) (g : NodeTable)
    (printed : list string) :
  build_commit_graph git_dir branches = Returns g -> acyclic g ->
  topo_order_commits git_dir branches = Returns printed ->
  forall name h, In (name, h) branches ->
    In name (names_at branches h)
    /\ In (h ++ " " ++ String.concat " " (sorted (names_at branches h)))%string
         printed.
Proof.
  intros Hbuild Hac Hrun name h Hin.
  assert (Hname : In name (names_at branches h)).
  { unfold names_at. change name with (fst (name, h)). apply in_map.
    apply filter_In. split; [assumption|apply String.eqb_refl]. }
  split; [exact Hname|].
  pose proof (build_commit_graph_well_formed _ _ _ Hbuild) as WF.
  assert (Hkey : In h (keys g)).
  { destruct (build_final _ _ _ Hbuild) as (st & _ & Hr & Hs & <-).
    destruct (ri_seeds _ _ _ Hr h) as [H|H]; [|assumption|rewrite Hs in H; destruct H].
    unfold seeds. change h with (snd (name, h)). now apply in_map. }
  destruct (topo_sort_construction g WF) as (res & Hsort & _ & Hincl & Hready & _).
  pose proof (acyclic_all_emitted g res WF Hac Hready h Hkey) as Hres.
  assert (Hline : commit_line (head_to_branches_of branches) h
                  = (h ++ " " ++ String.concat " " (sorted (names_at branches h)))%string).
  { rewrite commit_line_names. destruct (names_at branches h); [destruct Hname|].
    reflexivity. }
  rewrite <- Hline.
  unfold topo_order_commits in Hrun. rewrite Hbuild in Hrun. simpl in Hrun.
  rewrite Hsort in Hrun. simpl in Hrun.
  unfold print_topo_ordered_commits in Hrun.
  rewrite print_loop_annotate in Hrun.
  - inversion Hrun as [Hp]. apply annotate_In. now apply -> in_rev.
  - intros x Hx. apply Hincl. now apply in_rev.
  - discriminate.
Qed.

Lemma every_branch_printed_witness :
  exists g printed,
    build_commit_graph store_ABCD [("main", "A"); ("dev", "B"); ("topic", "A")]
    = Returns g
    /\ acyclic g
    /\ topo_order_commits store_ABCD [("main", "A"); ("dev", "B"); ("topic", "A")]
       = Returns printed
    /\ forall name h,
         In (name, h) [("main", "A"); ("dev", "B"); ("topic", "A")] ->
         In name (names_at [("main", "A"); ("dev", "B"); ("topic", "A")] h)
         /\ In (h ++ " "
                ++ String.concat " "
                     (sorted (names_at
                                [("main", "A"); ("dev", "B"); ("topic", "A")] h)))%string
              printed.
Proof.
  eexists. eexists.
  split; [vm_compute; reflexivity|].
  assert (Hac : acyclic [ ("A", mkCommitNode "A" ["B"; "D"] []);
                          ("B", mkCommitNode "B" ["C"] ["A"]);
                          ("D", mkCommitNode "D" [] ["A"]);
                          ("C", mkCommitNode "C" [] ["B"]) ])
    by (apply rankedb_acyclic with (order := ["C"; "D"; "B"; "A"]);
        vm_compute; reflexivity).
  split; [exact Hac|].
  split; [vm_compute; reflexivity|].
  apply (every_branch_printed store_ABCD
           [("main", "A"); ("dev", "B"); ("topic", "A")]
           [ ("A", mkCommitNode "A" ["B"; "D"] []);
             ("B", mkCommitNode "B" ["C"] ["A"]);
             ("D", mkCommitNode "D" [] ["A"]);
             ("C", mkCommitNode "C" [] ["B"]) ]).
  - vm_compute. reflexivity.
  - exact Hac.
  - vm_compute. reflexivity.
Defined.

(** ** The order of the branches *)

Lemma Permutation_filter_str {A : Type} (f : A -> bool) (l1 l2 : list A) :
  Permutation l1 l2 -> Permutation (filter f l1) (filter f l2).
Proof.
  induction 1 as [|x l1 l2 _ IH|x y l|l1 l2 l3 _ IH1 _ IH2]; simpl.
  - constructor.
  - destruct (f x); [now constructor|assumption].
  - destruct (f x), (f y); try reflexivity. apply perm_swap.
  - now rewrite IH1.
Qed.

Lemma commit_line_permuted b1 b2 h :
  Permutation b1 b2 ->
  commit_line (head_to_branches_of b1) h = commit_line (head_to_branches_of b2) h.
Proof.
  intros HP. rewrite !commit_line_names.
  assert (Hn : Permutation (names_at b1 h) (names_at b2 h)).
  { unfold names_at. apply Permutation_map. now apply Permutation_filter_str. }
  rewrite (sorted_perm_eq _ _ Hn).
  destruct (names_at b1 h) as [|n1 l1], (names_at b2 h) as [|n2 l2];
    try reflexivity.
  - apply Permutation_nil in Hn. discriminate.
  - symmetry in Hn. apply Permutation_nil in Hn. discriminate.
Qed.

Lemma set_mem_permuted x l1 l2 :
  Permutation l1 l2 -> set_mem x l1 = set_mem x l2.
Proof.
  intros HP. destruct (set_mem x l2) eqn:E.
  - apply set_mem_In. apply set_mem_In in E.
    eapply Permutation_in; [symmetry; exact HP|assumption].
  - apply set_mem_false. apply set_mem_false in E. intros H. apply E.
    eapply Permutation_in; [exact HP|assumption].
Qed.

Lemma annotate_same_sets t1 t2 names1 names2 :
  same_sets t1 t2 ->
  (forall h, commit_line names1 h = commit_line names2 h) ->
  forall ordered prev,
    annotate t1 names1 prev ordered = annotate t2 names2 prev ordered.
Proof.
  intros (_ & _ & _ & Hsets) Hnames.
  induction ordered as [|c rest IH]; intros prev; [reflexivity|].
  cbn [annotate]. rewrite IH, Hnames. f_equal.
  destruct prev as [p|]; [|reflexivity].
  rewrite (set_mem_permuted p _ _ (proj2 (Hsets c))).
  destruct (set_mem p (children_of t2 c)); [reflexivity|].
  unfold boundary_block, closing_marker, opening_marker.
  rewrite (sorted_perm_eq _ _ (proj1 (Hsets p))).
  rewrite (sorted_perm_eq _ _ (proj2 (Hsets c))). reflexivity.
Qed.

Lemma zero_degree_roots t x :
  NoDup (keys t) ->
  (In x (zero_degree (map degree_item t))
   <-> In x (keys t) /\ parents_of t x = []).
Proof.
  intros Hnd. rewrite zero_degree_In. unfold parents_of. split.
  - intros (n & Hin & Hp). rewrite (dict_get_In _ _ _ Hnd Hin).
    split; [|assumption]. change x with (fst (x, n)). now apply in_map.
  - intros [Hk Hp]. destruct (dict_get_key x t Hk) as [n Hn].
    rewrite Hn in Hp. exists n. split; [now apply dict_get_Some_In|assumption].
Qed.

Lemma topo_sort_same_sets t1 t2 :
  same_sets t1 t2 -> topo_sort t1 = topo_sort t2.
Proof.
  intros (H1 & H2 & Hkeys & Hsets). unfold topo_sort. f_equal.
  assert (Hnone : forall k, dict_get k t1 = None <-> dict_get k t2 = None).
  { intros k. rewrite !dict_get_None, Hkeys. reflexivity. }
  assert (Hlen : List.length t1 = List.length t2).
  { rewrite <- (length_map fst t1), <- (length_map fst t2).
    apply Permutation_length. now apply NoDup_Permutation. }
  rewrite Hlen. apply topo_loop_ext.
  - intros k. specialize (Hsets k). unfold children_of in Hsets.
    pose proof (Hnone k) as Hk.
    destruct (dict_get k t1), (dict_get k t2);
      try (now apply sorted_perm_eq); try exact I.
    + destruct Hk as [_ Hk]. now specialize (Hk eq_refl).
    + destruct Hk as [Hk _]. now specialize (Hk eq_refl).
  - unfold topo_init. simpl. rewrite !in_degree_of_map by assumption.
    intros k. rewrite !dict_get_degree_items.
    specialize (Hsets k). unfold parents_of in Hsets. pose proof (Hnone k) as Hk.
    destruct (dict_get k t1), (dict_get k t2); simpl.
    + now rewrite (Permutation_length (proj1 Hsets)).
    + destruct Hk as [_ Hk]. now specialize (Hk eq_refl).
    + destruct Hk as [Hk _]. now specialize (Hk eq_refl).
    + reflexivity.
  - unfold topo_init. simpl. rewrite !in_degree_of_map by assumption.
    apply sorted_perm_eq. apply NoDup_Permutation.
    + apply zero_degree_NoDup. now rewrite keys_degree_items.
    + apply zero_degree_NoDup. now rewrite keys_degree_items.
    + intros x. rewrite !zero_degree_roots by assumption. rewrite Hkeys.
      destruct (Hsets x) as [Hp _]. split; intros [Hk Hr]; (split; [assumption|]).
      * rewrite Hr in Hp. now apply Permutation_nil in Hp.
      * rewrite Hr in Hp. symmetry in Hp. now apply Permutation_nil in Hp.
  - reflexivity.
Qed.

Lemma reachable_same_seeds git_dir s1 s2 x :
  (forall s, In s s1 -> In s s2) ->
  reachable git_dir s1 x -> reachable git_dir s2 x.
Proof. intros H (s & Hs & Hp). exists s. auto. Qed.

Lemma build_same_sets git_dir b1 b2 g1 g2 :
  Permutation b1 b2 ->
  build_commit_graph git_dir b1 = Returns g1 ->
  build_commit_graph git_dir b2 = Returns g2 ->
  same_sets g1 g2.
Proof.
  intros HP Hb1 Hb2.
  assert (Hseeds : forall s, In s (seeds b1) <-> In s (seeds b2)).
  { intros s. unfold seeds.
    split; apply Permutation_in; [|symmetry]; now apply Permutation_map. }
  destruct (build_final _ _ _ Hb1) as (st1 & B1 & R1 & S1 & <-).
  destruct (build_final _ _ _ Hb2) as (st2 & B2 & R2 & S2 & <-).
  assert (Hkeys : forall k, In k (keys (bs_graph st1)) <-> In k (keys (bs_graph st2))).
  { intros k. split; intros Hk.
    - apply (reachable_is_key _ _ _ B2 R2 S2).
      apply (reachable_same_seeds git_dir (seeds b1)); [apply Hseeds|].
      now apply (ri_keys _ _ _ R1).
    - apply (reachable_is_key _ _ _ B1 R1 S1).
      apply (reachable_same_seeds git_dir (seeds b2)); [apply Hseeds|].
      now apply (ri_keys _ _ _ R2). }
  assert (Hvis : forall st b, build_inv git_dir st -> bs_stack st = [] ->
            reach_inv git_dir b st ->
            forall k p, In p (parents_of (bs_graph st) k)
                        <-> In k (keys (bs_graph st)) /\ store_parent git_dir k p).
  { intros st b B S R k p. split.
    - intros Hp.
      assert (Hk : In k (keys (bs_graph st))).
      { unfold parents_of in Hp. destruct (dict_get k (bs_graph st)) eqn:E;
          [eapply dict_get_Some_key; eauto|destruct Hp]. }
      split; [assumption|].
      destruct (bi_pending _ _ B k Hk) as [Hv|Hv]; [|rewrite S in Hv; destruct Hv].
      destruct (bi_visited _ _ B k Hv) as (_ & lines & Hread & Hpar).
      exists lines. split; [assumption|now apply Hpar].
    - intros [Hk (lines & Hread & Hdecl)].
      destruct (bi_pending _ _ B k Hk) as [Hv|Hv]; [|rewrite S in Hv; destruct Hv].
      destruct (bi_visited _ _ B k Hv) as (_ & lines' & Hread' & Hpar).
      rewrite Hread in Hread'. inversion Hread'; subst lines'. now apply Hpar. }
  assert (Hpar : forall k p, In p (parents_of (bs_graph st1) k)
                             <-> In p (parents_of (bs_graph st2) k)).
  { intros k p. rewrite (Hvis st1 (seeds b1) B1 S1 R1),
                        (Hvis st2 (seeds b2) B2 S2 R2), Hkeys. reflexivity. }
  split; [apply B1|]. split; [apply B2|]. split; [exact Hkeys|].
  intros k. split.
  - apply NoDup_Permutation; [apply B1|apply B2|apply Hpar].
  - apply NoDup_Permutation; [apply B1|apply B2|].
    intros c. rewrite <- !(bi_symmetric git_dir _ B1), <- !(bi_symmetric git_dir _ B2).
    apply Hpar.
Qed.

(** The printed lines do not depend on the order in which the branches are
    listed: when the program prints its lines for a list of branches, it
    prints the same lines for every permutation of the list. *)
Theorem branch_order_irrelevant (git_dir : GitDir)
    (b1 b2 : list (string * string)) (printed : list string) :
  Permutation b1 b2 ->
  topo_order_commits git_dir b1 = Returns printed ->
  topo_order_commits git_dir b2 = Returns printed.
Proof.
  intros HP Hrun. unfold topo_order_commits in *.
  destruct (build_commit_graph git_dir b1) as [g1|e|] eqn:Hb1;
    simpl in Hrun; try discriminate.
  destruct (build_returns_when_ok git_dir b2) as [g2 Hb2].
  { intros x Hx. apply (build_returns_ok git_dir b1 g1 Hb1).
    apply (reachable_same_seeds git_dir (seeds b2)); [|assumption].
    intros s. unfold seeds. apply Permutation_in. symmetry.
    now apply Permutation_map. }
  rewrite Hb2. simpl.
  pose proof (build_same_sets git_dir b1 b2 g1 g2 HP Hb1 Hb2) as Hsame.
  rewrite <- (topo_sort_same_sets g1 g2 Hsame).
  pose proof (build_commit_graph_well_formed _ _ _ Hb1) as WF1.
  destruct (topo_sort_construction g1 WF1) as (res & Hsort & _ & Hincl & _).
  rewrite Hsort in *. simpl in *.
  unfold print_topo_ordered_commits in *.
  rewrite print_loop_annotate in Hrun;
    [|intros x Hx; apply Hincl; now apply in_rev|discriminate].
  rewrite print_loop_annotate;
    [|intros x Hx; apply Hsame, Hincl; now apply in_rev|discriminate].
  rewrite <- Hrun. f_equal. f_equal. symmetry.
  apply annotate_same_sets; [exact Hsame|].
  intros h. now apply commit_line_permuted.
Qed.

Lemma branch_order_irrelevant_witness :
  Permutation [("main", "A"); ("dev", "B"); ("topic", "A")]
              [("topic", "A"); ("main", "A"); ("dev", "B")]
  /\ topo_order_commits store_ABCD [("main", "A"); ("dev", "B"); ("topic", "A")]
     = Returns ["A main topic"; "D"; "="; ""; "= A"; "B dev"; "C"]
  /\ topo_order_commits store_ABCD [("topic", "A"); ("main", "A"); ("dev", "B")]
     = Returns ["A main topic"; "D"; "="; ""; "= A"; "B dev"; "C"].
Proof.
  assert (HP : Permutation [("main", "A"); ("dev", "B"); ("topic", "A")]
                           [("topic", "A"); ("main", "A"); ("dev", "B")]).
  { apply Permutation_sym.
    apply (Permutation_cons_app [("main", "A"); ("dev", "B")] [] ("topic", "A")).
    rewrite app_nil_r. apply Permutation_refl. }
  split; [exact HP|]. split; [reflexivity|].
  exact (branch_order_irrelevant store_ABCD _ _ _ HP eq_refl).
Defined.

(** ** The lines of a stored object *)

Lemma split_lines_nonempty s : split_lines s <> [].
Proof.
  destruct s as [|c s]; simpl; [discriminate|].
  destruct (Ascii.eqb c "010"%char); [discriminate|].
  destruct (split_lines s); discriminate.
Qed.

Lemma concat_split_lines s : String.concat newline (split_lines s) = s.
Proof.
  induction s as [|c s IH]; [reflexivity|]. simpl.
  pose proof (split_lines_nonempty s) as Hne.
  destruct (Ascii.eqb_spec c "010"%char) as [->|Hc].
  - destruct (split_lines s) as [|l ls]; [contradiction|].
    change (String.concat newline ("" :: l :: ls))
      with (String "010" (String.concat newline (l :: ls))).
    now rewrite IH.
  - destruct (split_lines s) as [|l ls]; [contradiction|].
    destruct ls as [|l' ls].
    + simpl in *. now rewrite IH.
    + change (String.concat newline (String c l :: l' :: ls))
        with (String c (String.concat newline (l :: l' :: ls))).
      now rewrite IH.
Qed.

Lemma split_lines_no_newline s : Forall no_newline (split_lines s).
Proof.
  induction s as [|c s IH]; simpl.
  - repeat constructor.
  - destruct (Ascii.eqb c "010"%char) eqn:Ec.
    + constructor; [reflexivity|assumption].
    + destruct (split_lines s) as [|l ls]; [repeat constructor; unfold no_newline; simpl; now rewrite Ec|].
      inversion IH; subst. constructor; [|assumption].
      unfold no_newline in *. simpl. now rewrite Ec.
Qed.

(** The read of an object loses nothing of its text: the lines it returns
    hold no newline and, joined by newlines, give the text back.  An object
    that is stored yields at least one line, whatever its text; only an
    object that is missing yields none. *)
Theorem read_lines_round_trip (git_dir : GitDir) (h : string)
    (lines : list string) :
  decompress_git_object git_dir h = Returns lines ->
  (lines = [] <-> dict_get h git_dir = None)
  /\ (forall text, dict_get h git_dir = Some (Blob text) ->
        String.concat newline lines = text /\ Forall no_newline lines).
Proof.
  unfold decompress_git_object.
  destruct (dict_get h git_dir) as [[|text]|]; intros Hread;
    inversion Hread; subst lines.
  - split.
    + split; [|discriminate]. intros H. now apply split_lines_nonempty in H.
    + intros text' [= <-]. split; [apply concat_split_lines|apply split_lines_no_newline].
  - split; [tauto|discriminate].
Qed.

Lemma read_lines_round_trip_witness :
  decompress_git_object store_ABCD "B"
  = Returns ["tree t"; "parent C"; ""; "msg"]
  /\ (["tree t"; "parent C"; ""; "msg"] = [] <-> dict_get "B" store_ABCD = None)
  /\ (forall text, dict_get "B" store_ABCD = Some (Blob text) ->
        String.concat newline ["tree t"; "parent C"; ""; "msg"] = text
        /\ Forall no_newline ["tree t"; "parent C"; ""; "msg"]).
Proof.
  split; [reflexivity|].
  exact (read_lines_round_trip store_ABCD "B" _ eq_refl).
Defined.

(** ** Looking for the [.git] directory *)

Lemma chars_append a b :
  list_ascii_of_string (a ++ b)%string
  = list_ascii_of_string a ++ list_ascii_of_string b.
Proof. induction a as [|c a IH]; simpl; [reflexivity|now rewrite IH]. Qed.

Lemma drop_while_nonslash_app l rest :
  forallb (fun a => negb (is_slash a)) l = true ->
  drop_while (fun c => negb (is_slash c)) (rev l ++ "/"%char :: rest)
  = "/"%char :: rest.
Proof.
  intros H. assert (Hr : forallb (fun a => negb (is_slash a)) (rev l) = true).
  { rewrite forallb_forall in *. intros x Hx. apply H. now apply in_rev. }
  clear H. induction (rev l) as [|c r IH]; simpl in *; [reflexivity|].
  apply andb_true_iff in Hr. destruct Hr as [Hc Hr]. rewrite Hc. now apply IH.
Qed.

Lemma string_app_assoc (a b c : string) :
  ((a ++ b) ++ c = a ++ (b ++ c))%string.
Proof. induction a as [|x a IH]; simpl; [reflexivity|now rewrite IH]. Qed.

Lemma string_app_nil (a : string) : (a ++ "")%string = a.
Proof. induction a as [|x a IH]; simpl; [reflexivity|now rewrite IH]. Qed.

Lemma below_root_snoc comps c :
  below_root (comps ++ [c]) = (below_root comps ++ "/" ++ c)%string.
Proof.
  induction comps as [|d comps IH]; simpl.
  - now rewrite string_app_nil.
  - rewrite IH. f_equal. now rewrite string_app_assoc.
Qed.

Lemma abs_path_snoc comps c :
  abs_path (comps ++ [c]) = (below_root comps ++ "/" ++ c)%string.
Proof.
  unfold abs_path. rewrite <- below_root_snoc. now destruct comps.
Qed.

Lemma rev_chars_snoc comps c :
  rev (list_ascii_of_string (abs_path (comps ++ [c])))
  = rev (list_ascii_of_string c)
    ++ "/"%char :: rev (list_ascii_of_string (below_root comps)).
Proof.
  rewrite abs_path_snoc, !chars_append. simpl.
  rewrite rev_app_distr. simpl. now rewrite <- app_assoc.
Qed.

Lemma component_chars c :
  component c ->
  exists a l, list_ascii_of_string c = a :: l
              /\ forallb (fun x => negb (is_slash x)) (a :: l) = true.
Proof.
  intros [Hne Hall]. destruct c as [|a c]; [contradiction|].
  exists a, (list_ascii_of_string c). split; [reflexivity|exact Hall].
Qed.

Lemma rev_component c :
  component c ->
  exists a l, rev (list_ascii_of_string c) = a :: l /\ is_slash a = false.
Proof.
  intros Hc. destruct (component_chars c Hc) as (a & l & E & Hall).
  rewrite E. destruct (rev (a :: l)) as [|b r] eqn:Er.
  - apply (f_equal (@List.length ascii)) in Er. rewrite length_rev in Er. discriminate.
  - exists b, r. split; [reflexivity|].
    rewrite forallb_forall in Hall. apply negb_true_iff. apply Hall.
    apply in_rev. rewrite Er. now left.
Qed.

Lemma dirname_snoc comps c :
  Forall component comps -> component c ->
  dirname (abs_path (comps ++ [c])) = abs_path comps.
Proof.
  intros Hcomps Hc. unfold dirname. rewrite rev_chars_snoc.
  rewrite drop_while_nonslash_app by apply Hc.
  destruct comps as [|d comps] using rev_ind.
  - reflexivity.
  - clear IHcomps. apply Forall_app in Hcomps. destruct Hcomps as [_ Hd].
    inversion Hd as [|? ? Hd' _]; subst.
    assert (Habs : abs_path (comps ++ [d]) = below_root (comps ++ [d]))
      by (unfold abs_path; now destruct comps).
    rewrite Habs.
    pose proof (rev_chars_snoc comps d) as Hrev. rewrite Habs in Hrev.
    rewrite Hrev. destruct (rev_component d Hd') as (a & l & E & Ha).
    rewrite E. cbn [app nonempty forallb drop_while andb].
    change (is_slash "/"%char) with true. rewrite Ha. cbn [andb negb].
    rewrite app_comm_cons, <- E, <- Hrev, rev_involutive.
    apply string_of_list_ascii_of_string.
Qed.

Lemma below_root_ends comps c :
  component c -> ends_with_slash (below_root (comps ++ [c])) = false.
Proof.
  intros Hc. unfold ends_with_slash.
  pose proof (rev_chars_snoc comps c) as Hrev.
  assert (Habs : abs_path (comps ++ [c]) = below_root (comps ++ [c]))
    by (unfold abs_path; now destruct comps).
  rewrite Habs in Hrev. rewrite Hrev.
  destruct (rev_component c Hc) as (a & l & E & Ha). now rewrite E.
Qed.

Lemma path_join_git comps c :
  component c ->
  path_join (abs_path (comps ++ [c])) ".git"
  = (abs_path (comps ++ [c]) ++ "/.git")%string.
Proof.
  intros Hc.
  assert (Habs : abs_path (comps ++ [c]) = below_root (comps ++ [c]))
    by (unfold abs_path; now destruct comps).
  unfold path_join. change (startswith ".git" "/") with false. cbn iota.
  rewrite Habs, (below_root_ends comps c Hc).
  destruct (String.eqb_spec (below_root (comps ++ [c])) "") as [E|_]; [|reflexivity].
  exfalso. rewrite below_root_snoc in E. destruct (below_root comps); discriminate.
Qed.

Lemma string_app_length (a b : string) :
  String.length (a ++ b) = (String.length a + String.length b)%nat.
Proof. induction a as [|x a IH]; simpl; [reflexivity|now rewrite IH]. Qed.

Lemma abs_path_not_root comps c :
  component c -> abs_path (comps ++ [c]) <> "/".
Proof.
  intros [Hne _] E. rewrite abs_path_snoc in E.
  apply (f_equal String.length) in E. rewrite !string_app_length in E.
  destruct c; [contradiction|]. simpl in E. lia.
Qed.

Lemma below_root_length comps :
  Forall component comps ->
  (List.length comps <= String.length (below_root comps))%nat.
Proof.
  induction 1 as [|c comps Hc _ IH]; simpl; [lia|].
  rewrite string_app_length. lia.
Qed.

Lemma climb_nearest isdir : forall inner_first fuel,
  Forall component inner_first ->
  (List.length inner_first <= fuel)%nat ->
  climb fuel isdir (abs_path (rev inner_first))
  = match nearest_git isdir inner_first with
    | Some git_path => Found git_path
    | None => Exits ("Not inside a Git repository" ++ newline)%string 1%Z
    end.
Proof.
  induction inner_first as [|c outer IH]; intros fuel Hcomps Hfuel.
  - destruct fuel; reflexivity.
  - inversion Hcomps as [|? ? Hc Houter]; subst.
    destruct fuel as [|fuel]; [simpl in Hfuel; lia|].
    cbn [rev nearest_git climb].
    destruct (String.eqb_spec (abs_path (rev outer ++ [c])) "/") as [E|_].
    { exfalso. revert E. now apply abs_path_not_root. }
    rewrite (path_join_git (rev outer) c Hc).
    destruct (isdir (abs_path (rev outer ++ [c]) ++ "/.git")%string); [reflexivity|].
    rewrite dirname_snoc; [|now apply Forall_rev|assumption].
    apply IH; [assumption|simpl in Hfuel; lia].
Qed.

Lemma nearest_git_some isdir p : forall inner_first,
  nearest_git isdir inner_first = Some p <->
  exists near far,
    inner_first = near ++ far /\ far <> []
    /\ p = (abs_path (rev far) ++ "/.git")%string /\ isdir p = true
    /\ forall near1 near2 d, near = near1 ++ d :: near2 ->
         isdir (abs_path (rev (d :: near2 ++ far)) ++ "/.git")%string = false.
Proof.
  induction inner_first as [|c outer IH]; simpl.
  - split; [discriminate|]. intros (near & far & E & Hfar & _).
    destruct near; simpl in E; [now subst|discriminate].
  - destruct (isdir (abs_path (rev outer ++ [c]) ++ "/.git")%string) eqn:Hd.
    + split.
      * intros [= <-]. exists [], (c :: outer). simpl.
        repeat split; try discriminate; auto.
        intros near1 near2 d E. destruct near1; discriminate.
      * intros (near & far & E & Hfar & Hp & Hdir & Hnone).
        destruct near as [|d near]; simpl in E.
        -- subst far. simpl in Hp. now subst.
        -- inversion E; subst d outer. exfalso.
           specialize (Hnone [] near c eq_refl). simpl in Hnone. congruence.
    + rewrite IH. split.
      * intros (near & far & E & Hfar & Hp & Hdir & Hnone).
        exists (c :: near), far. subst outer. repeat split; auto.
        intros near1 near2 d E. destruct near1 as [|e near1]; simpl in E.
        -- inversion E; subst. simpl. exact Hd.
        -- inversion E; subst. eapply Hnone. reflexivity.
      * intros (near & far & E & Hfar & Hp & Hdir & Hnone).
        destruct near as [|d near]; simpl in E.
        -- subst far. simpl in Hp. subst p. congruence.
        -- inversion E; subst d outer. exists near, far. repeat split; auto.
           intros near1 near2 d E'. apply (Hnone (c :: near1) near2 d).
           simpl. now rewrite E'.
Qed.

Lemma nearest_git_none isdir : forall inner_first,
  nearest_git isdir inner_first = None <->
  forall near far, inner_first = near ++ far -> far <> [] ->
    isdir (abs_path (rev far) ++ "/.git")%string = false.
Proof.
  induction inner_first as [|c outer IH]; simpl.
  - split; [|reflexivity]. intros _ near far E Hfar.
    destruct near, far; simpl in E; try discriminate. contradiction.
  - destruct (isdir (abs_path (rev outer ++ [c]) ++ "/.git")%string) eqn:Hd.
    + split; [discriminate|]. intros H.
      specialize (H [] (c :: outer) eq_refl ltac:(discriminate)).
      simpl in H. congruence.
    + rewrite IH. split.
      * intros H near far E Hfar. destruct near as [|d near]; simpl in E.
        -- subst far. exact Hd.
        -- inversion E; subst. now apply (H near far).
      * intros H near far E Hfar. apply (H (c :: near) far); [|assumption].
        simpl. now rewrite E.
Qed.

Lemma climb_from isdir comps :
  Forall component comps ->
  get_git_directory isdir (abs_path comps)
  = match nearest_git isdir (rev comps) with
    | Some git_path => Found git_path
    | None => Exits ("Not inside a Git repository" ++ newline)%string 1%Z
    end.
Proof.
  intros Hcomps. unfold get_git_directory.
  rewrite <- (rev_involutive comps) at 1 2.
  apply climb_nearest; [now apply Forall_rev|].
  rewrite rev_involutive, length_rev.
  pose proof (below_root_length comps Hcomps) as Hlen.
  unfold abs_path. destruct comps; [simpl; lia|exact Hlen].
Qed.

Lemma rev_eq_nil {A : Type} (l : list A) : rev l = [] -> l = [].
Proof.
  intros H. apply (f_equal (@List.length A)) in H. rewrite length_rev in H.
  now destruct l.
Qed.

Lemma longer_prefix {A : Type} (dir below dir' below' : list A) :
  dir ++ below = dir' ++ below' -> (List.length dir < List.length dir')%nat ->
  exists mid, mid <> [] /\ dir' = dir ++ mid /\ below = mid ++ below'.
Proof.
  intros E Hlen. apply app_eq_app in E. destruct E as [mid [[E1 E2]|[E1 E2]]].
  - exfalso. subst dir. rewrite length_app in Hlen. lia.
  - exists mid. repeat split; auto. intros ->. subst dir'.
    rewrite app_nil_r in Hlen. lia.
Qed.

(** From a working directory with the components [comps] under the root,
    [get_git_directory] returns the [.git] directory of the nearest
    directory, from the working directory upward and short of the root, that
    holds one; it exits with status 1 and the message on the error stream
    exactly when none of these directories holds one, whether or not the
    root does; and its loop comes to an end. *)
Theorem get_git_directory_nearest (isdir : string -> bool) (comps : list string) :
  Forall component comps ->
  (forall p,
     get_git_directory isdir (abs_path comps) = Found p
     <-> exists dir below,
           comps = dir ++ below /\ dir <> []
           /\ p = (abs_path dir ++ "/.git")%string /\ isdir p = true
           /\ forall dir' below',
                comps = dir' ++ below' ->
                (List.length dir < List.length dir')%nat ->
                isdir (abs_path dir' ++ "/.git")%string = false)
  /\ (get_git_directory isdir (abs_path comps)
      = Exits ("Not inside a Git repository" ++ newline)%string 1%Z
      <-> forall dir below,
            comps = dir ++ below -> dir <> [] ->
            isdir (abs_path dir ++ "/.git")%string = false)
  /\ get_git_directory isdir (abs_path comps) <> StillClimbing.
Proof.
  intros Hcomps. rewrite (climb_from isdir comps Hcomps). split; [|split].
  - intros p. split.
    + destruct (nearest_git isdir (rev comps)) as [q|] eqn:E; [|discriminate].
      intros [= ->]. apply nearest_git_some in E.
      destruct E as (near & far & E & Hfar & Hp & Hdir & Hnone).
      assert (Ecomps : comps = rev far ++ rev near).
      { rewrite <- (rev_involutive comps), E, rev_app_distr. reflexivity. }
      exists (rev far), (rev near). split; [exact Ecomps|].
      split; [intros H; apply Hfar; now apply rev_eq_nil|].
      split; [assumption|]. split; [assumption|].
      intros dir' below' E' Hlen. rewrite Ecomps in E'.
      destruct (longer_prefix _ _ _ _ E' Hlen) as (mid & Hmid & -> & Hbelow).
      destruct mid as [|d mid] using rev_ind; [contradiction|]. clear IHmid.
      assert (Hd : rev (d :: rev mid ++ far) = rev far ++ mid ++ [d]).
      { simpl. now rewrite rev_app_distr, rev_involutive, <- app_assoc. }
      rewrite <- Hd. apply (Hnone (rev below') (rev mid) d).
      rewrite <- (rev_involutive near), Hbelow, !rev_app_distr. simpl.
      reflexivity.
    + intros (dir & below & E & Hdir & Hp & Hisdir & Hnone).
      assert (Hsome : nearest_git isdir (rev comps) = Some p).
      { apply nearest_git_some. exists (rev below), (rev dir).
        split; [now rewrite E, rev_app_distr|].
        split; [intros H; apply Hdir; now apply rev_eq_nil|].
        split; [now rewrite rev_involutive|]. split; [assumption|].
        intros near1 near2 d En.
        replace (rev (d :: near2 ++ rev dir)) with (dir ++ rev near2 ++ [d])
          by (simpl; now rewrite rev_app_distr, rev_involutive, <- app_assoc).
        apply (Hnone _ (rev near1)).
        - rewrite E. rewrite <- (rev_involutive below), En, rev_app_distr.
          simpl. now rewrite <- !app_assoc.
        - rewrite !length_app. simpl. lia. }
      now rewrite Hsome.
  - split.
    + destruct (nearest_git isdir (rev comps)) as [q|] eqn:E; [discriminate|].
      intros _ dir below Ecomps Hdir.
      rewrite <- (rev_involutive dir).
      apply (proj1 (nearest_git_none isdir (rev comps)) E (rev below)).
      * now rewrite Ecomps, rev_app_distr.
      * intros H. apply Hdir. now apply rev_eq_nil.
    + intros Hnone.
      assert (E : nearest_git isdir (rev comps) = None).
      { apply nearest_git_none. intros near far E Hfar.
        apply (Hnone (rev far) (rev near)).
        - rewrite <- (rev_involutive comps), E, rev_app_distr. reflexivity.
        - intros H. apply Hfar. now apply rev_eq_nil. }
      now rewrite E.
  - now destruct (nearest_git isdir (rev comps)).
Qed.

Lemma get_git_directory_nearest_witness :
  Forall component ["home"; "u"; "proj"]
  /\ get_git_directory isdir_home_u "/home/u/proj" = Found "/home/u/.git"
  /\ (forall p,
        get_git_directory isdir_home_u (abs_path ["home"; "u"; "proj"]) = Found p
        <-> exists dir below,
              ["home"; "u"; "proj"] = dir ++ below /\ dir <> []
              /\ p = (abs_path dir ++ "/.git")%string /\ isdir_home_u p = true
              /\ forall dir' below',
                   ["home"; "u"; "proj"] = dir' ++ below' ->
                   (List.length dir < List.length dir')%nat ->
                   isdir_home_u (abs_path dir' ++ "/.git")%string = false).
Proof.
  assert (H : Forall component ["home"; "u"; "proj"]).
  { repeat constructor; discriminate. }
  split; [exact H|]. split; [reflexivity|].
  exact (proj1 (get_git_directory_nearest isdir_home_u ["home"; "u"; "proj"] H)).
Defined.

(** The root is not looked at: from a directory right under the root, with
    a [.git] directory in the root only, the search exits. *)
Example get_git_directory_root_only :
  get_git_directory (fun p => String.eqb p "/.git") "/home"
  = Exits ("Not inside a Git repository" ++ newline)%string 1%Z.
Proof. reflexivity. Qed.

(** ** The annotator and identifiers that are not keys *)

Lemma last_cons_default {A : Type} (a d : A) (l : list A) :
  last (a :: l) d = last l a.
Proof.
  revert a d. induction l as [|b l IH]; intros a d; [reflexivity|].
  change (last (a :: b :: l) d) with (last (b :: l) d).
  now rewrite !IH.
Qed.

Lemma print_loop_app t names : forall pre rest prev out,
  (forall h, In h pre -> In h (keys t)) ->
  (forall p, prev = Some p -> In p (keys t)) ->
  print_loop t names (pre ++ rest) prev out
  = print_loop t names rest (last (map Some pre) prev)
      (out ++ annotate t names prev pre).
Proof.
  induction pre as [|h pre IH]; intros rest prev out Hkeys Hprev.
  - simpl. now rewrite app_nil_r.
  - destruct (dict_get_key h t (Hkeys h (or_introl eq_refl))) as [node Hnode].
    assert (Hrest : forall h', In h' pre -> In h' (keys t))
      by (intros h' H'; apply Hkeys; now right).
    assert (Hnext : forall p, Some h = Some p -> In p (keys t))
      by (intros p [= <-]; apply Hkeys; now left).
    cbn [map]. rewrite last_cons_default.
    cbn [app print_loop annotate]. unfold print_sticky, children_of.
    rewrite Hnode. destruct prev as [p|]; simpl.
    + destruct (dict_get_key p t (Hprev p eq_refl)) as [pnode Hp].
      destruct (set_mem p (children node)); simpl.
      * rewrite IH by assumption. now rewrite <- app_assoc.
      * rewrite Hp. simpl. rewrite IH by assumption.
        unfold boundary_block, parents_of, children_of. rewrite Hp, Hnode.
        rewrite sticky_end_closing, sticky_start_opening.
        rewrite <- !app_assoc. reflexivity.
    + rewrite IH by assumption. now rewrite <- app_assoc.
Qed.

(** The annotator looks a commit up only when there is a commit before it:
    a sequence of one identifier is printed whether or not the identifier is
    a key of the table, and an identifier that is not a key, coming after
    identifiers that are, raises [KeyError]. *)
Theorem print_unknown_commit (t : NodeTable) (names : dict (list string))
    (pre post : list string) (h : string) :
  (forall x, In x pre -> In x (keys t)) -> ~ In h (keys t) ->
  print_topo_ordered_commits t [h] names = Returns [commit_line names h]
  /\ (pre <> [] ->
      print_topo_ordered_commits t (pre ++ h :: post) names = Raises (KeyError h)).
Proof.
  intros Hpre Hh. split; [reflexivity|]. intros Hne.
  unfold print_topo_ordered_commits.
  rewrite print_loop_app; [|assumption|discriminate].
  destruct pre as [|p pre] using rev_ind; [contradiction|]. clear IHpre.
  rewrite map_app. cbn [map]. rewrite last_last. cbn [print_loop print_sticky].
  apply dict_get_None in Hh. rewrite Hh. reflexivity.
Qed.

Lemma print_unknown_commit_witness :
  (forall x, In x ["A"; "B"] -> In x (keys two_components))
  /\ ~ In "Z" (keys two_components)
  /\ print_topo_ordered_commits two_components ["Z"] [] = Returns ["Z"]
  /\ print_topo_ordered_commits two_components ["A"; "B"; "Z"; "C"] []
     = Raises (KeyError "Z").
Proof.
  assert (H1 : forall x, In x ["A"; "B"] -> In x (keys two_components))
    by (simpl; tauto).
  assert (H2 : ~ In "Z" (keys two_components))
    by (simpl; intuition discriminate).
  split; [exact H1|]. split; [exact H2|].
  destruct (print_unknown_commit two_components [] ["A"; "B"] ["C"] "Z" H1 H2)
    as [Hone Hmany].
  split; [exact Hone|].
  apply Hmany. discriminate.
Defined.

(** ** The least topological order *)

Lemma topo_loop_least (t : NodeTable) (WF : well_formed t) : forall fuel st res,
  sort_inv t st ->
  topo_loop fuel t st = Returns res ->
  forall rest, topological t (st_result st ++ rest) ->
  exists s, res = st_result st ++ s /\ lex_le s rest.
Proof.
  induction fuel as [|fuel IH]; intros st res Hinv Hrun rest Htop; simpl in Hrun;
    destruct (st_queue st) as [|current q] eqn:Hq; try discriminate.
  - inversion Hrun; subst. exists []. rewrite app_nil_r. split; [reflexivity|constructor].
  - inversion Hrun; subst. exists []. rewrite app_nil_r. split; [reflexivity|constructor].
  - destruct (topo_step_inv t WF st current q Hinv Hq) as (st' & Hstep & Hinv' & Hres').
    rewrite Hstep in Hrun. simpl in Hrun.
    destruct Htop as [Hperm Hord].
    assert (Hnd : NoDup (st_result st ++ rest)).
    { eapply Permutation_NoDup; [symmetry; exact Hperm|apply WF]. }
    assert (Hcur : In current (keys t)).
    { apply (inv_incl Hinv). rewrite Hq. apply in_or_app. right. now left. }
    assert (Hfresh : ~ In current (st_result st)).
    { pose proof (inv_nodup Hinv) as H. rewrite Hq in H.
      apply NoDup_remove_2 in H. intros Hin. apply H. apply in_or_app. now left. }
    destruct rest as [|y rest'].
    { exfalso. rewrite app_nil_r in Hperm. apply Hfresh.
      eapply Permutation_in; [symmetry; exact Hperm|exact Hcur]. }
    assert (Hy : In y (st_queue st)).
    { assert (Hyk : In y (keys t)).
      { eapply Permutation_in; [exact Hperm|]. apply in_or_app. right. now left. }
      assert (Hyres : ~ In y (st_result st)).
      { apply NoDup_remove_2 in Hnd. intros Hin. apply Hnd. apply in_or_app. now left. }
      assert (Hready : In y (st_result st ++ st_queue st)).
      { apply (inv_ready t st Hinv y Hyk). apply filter_length_zero.
        apply (Hord (st_result st) y rest'). reflexivity. }
      apply in_app_or in Hready. destruct Hready; [contradiction|assumption]. }
    pose proof (inv_sorted t st Hinv) as Hsort. rewrite Hq in Hsort, Hy.
    destruct (string_dec current y) as [<-|Hne].
    + destruct (IH st' res Hinv' Hrun rest') as (s & -> & Hle).
      { rewrite Hres', <- app_assoc. split; assumption. }
      exists (current :: s). rewrite Hres', <- app_assoc.
      split; [reflexivity|now constructor].
    + apply topo_loop_extends in Hrun. destruct Hrun as [s ->].
      exists (current :: s). rewrite Hres', <- app_assoc.
      split; [reflexivity|]. apply lex_less. apply str_lt_le. split; [|assumption].
      destruct Hy as [Hy|Hy]; [contradiction|].
      inversion Hsort as [|? ? _ Hall]; subst.
      rewrite Forall_forall in Hall. now apply Hall.
Qed.

(** On a well-formed table without a cycle, the sequence the sorter returns
    is, read from its end, a topological order of the table (every key
    once, each after its parents), and the least of them in the
    lexicographic order: the table alone fixes the returned sequence. *)
Theorem topo_sort_least_order (t : NodeTable) :
  well_formed t -> acyclic t ->
  exists out,
    topo_sort t = Returns out
    /\ topological t (rev out)
    /\ forall l, topological t l -> lex_le (rev out) l.
Proof.
  intros WF Hac.
  destruct (topo_sort_construction t WF) as (res & Hrun & Hnd & Hincl & Hready & Hord).
  pose proof (acyclic_all_emitted t res WF Hac Hready) as Hall.
  exists (rev res). split; [exact Hrun|]. rewrite rev_involutive. split.
  - split; [|exact Hord]. apply NoDup_Permutation; [assumption|apply WF|].
    intros x. split; [apply Hincl|apply Hall].
  - intros l Htop. unfold topo_sort in Hrun.
    destruct (topo_loop (List.length t) t (topo_init t)) as [res'|e|] eqn:E;
      simpl in Hrun; try discriminate.
    inversion Hrun as [Hrev]. apply (f_equal (@rev string)) in Hrev.
    rewrite !rev_involutive in Hrev. subst res'.
    destruct (topo_loop_least t WF _ _ _ (topo_init_inv t WF) E l Htop)
      as (s & Hs & Hle).
    simpl in Hs. now subst s.
Qed.

Lemma topo_sort_least_order_witness :
  well_formed diamond /\ acyclic diamond
  /\ exists out,
       topo_sort diamond = Returns out
       /\ topological diamond (rev out)
       /\ forall l, topological diamond l -> lex_le (rev out) l.
Proof.
  assert (WF : well_formed diamond)
    by (apply well_formedb_sound; vm_compute; reflexivity).
  assert (Hac : acyclic diamond)
    by (apply rankedb_acyclic with (order := ["O"; "P"; "Q"; "M"]);
        vm_compute; reflexivity).
  split; [exact WF|]. split; [exact Hac|].
  exact (topo_sort_least_order diamond WF Hac).
Defined.
